(** * kklab2: grammar normalisation (ε-rule removal, left-recursion removal)

    A shallow embedding of [kklab2.py] and the properties of its three
    functions [find_nullable], [remove_epsilon_rules] and
    [eliminate_left_recursion].

    Python values are modelled as follows.
    - [str] is [string]; a production body ([List[str]]) is a [list string].
    - A [dict] is an association list in insertion order; a well-formed
      dictionary has pairwise distinct keys ([dict_ok]).
    - The nonterminal collection [cfg.N] is annotated [List[str]] but the
      script's entry point passes a [set]; both are legal Python values for
      the field, so the model has both ([PyList], [PySet]) and gives each
      method the behaviour it has on that type.
    - A [set] of tuples is modelled by the sequence of its insertions; the
      order in which Python iterates over it is left open ([SetOrder]).
    - A raised exception is an explicit [Raise] result. *)

From Stdlib Require Import String Ascii List Bool Arith Lia Relations Permutation.
Import ListNotations.
Open Scope string_scope.
Open Scope list_scope.

Set Implicit Arguments.

(** ** Python values *)

Definition symbol := string.
Definition body := list symbol.

(** [x in s] for a list or a set of strings. *)
Definition mem (x : symbol) (s : list symbol) : bool :=
  existsb (String.eqb x) s.

(** [not b] for a list: true on the empty list. *)
Definition is_empty {A : Type} (l : list A) : bool :=
  match l with [] => true | _ :: _ => false end.

(** Truthiness of a list: [if b]. *)
Definition truthy {A : Type} (l : list A) : bool := negb (is_empty l).

(** [rule and rule[0] == X]. *)
Definition begins_with (X : symbol) (rule : body) : bool :=
  match rule with
  | [] => false
  | s :: _ => String.eqb s X
  end.

(** [x in body] where the elements are bodies; only used with [x = []]. *)
Definition has_empty (bodies : list body) : bool := existsb is_empty bodies.

(** [l.remove([])]: drops the first empty body. *)
Fixpoint remove_first_empty (bodies : list body) : list body :=
  match bodies with
  | [] => []
  | b :: rest => if is_empty b then rest else b :: remove_first_empty rest
  end.

(** Exceptions and the result of a call. *)
Inductive exn : Type :=
| KeyError (k : symbol)
| AttributeError (attr : string).

Inductive result (A : Type) : Type :=
| Ok (a : A)
| Raise (e : exn).
Arguments Ok {A} a.
Arguments Raise {A} e.

Definition bind {A B : Type} (m : result A) (k : A -> result B) : result B :=
  match m with
  | Ok a => k a
  | Raise e => Raise e
  end.

Notation "x <- m ;; k" := (bind m (fun x => k))
  (at level 61, m at next level, right associativity).

(** Dictionaries in insertion order. *)
Section Dict.
Variable V : Type.

Definition dict := list (symbol * V).

Definition keys (d : dict) : list symbol := map fst d.

Fixpoint dict_get (d : dict) (k : symbol) : option V :=
  match d with
  | [] => None
  | (k', v) :: rest => if String.eqb k' k then Some v else dict_get rest k
  end.

(** [d[k]], raising [KeyError] on a missing key. *)
Definition dict_item (d : dict) (k : symbol) : result V :=
  match dict_get d k with
  | Some v => Ok v
  | None => Raise (KeyError k)
  end.

(** [d[k] = v]: overwrites in place, or appends a new key at the end. *)
Fixpoint dict_set (d : dict) (k : symbol) (v : V) : dict :=
  match d with
  | [] => [(k, v)]
  | (k', v') :: rest =>
      if String.eqb k' k then (k', v) :: rest
      else (k', v') :: dict_set rest k v
  end.

Definition dict_ok (d : dict) : Prop := NoDup (keys d).
End Dict.

(** The nonterminal collection: a list (as annotated) or a set (as the
    entry point of the script builds it).  For a set the list gives its
    elements in the order the set is iterated. *)
Inductive collection : Type :=
| PyList (xs : list symbol)
| PySet (xs : list symbol).

Definition elements (c : collection) : list symbol :=
  match c with PyList xs => xs | PySet xs => xs end.

(** [c.add(x)]: lists have no such method. *)
Definition coll_add (c : collection) (x : symbol) : result collection :=
  match c with
  | PyList _ => Raise (AttributeError "add")
  | PySet xs => Ok (PySet (if mem x xs then xs else xs ++ [x]))
  end.

(** [list(OrderedDict.fromkeys(xs))]: first occurrences, in order. *)
Definition fromkeys (xs : list symbol) : list symbol :=
  fold_left (fun acc k => if mem k acc then acc else acc ++ [k]) xs [].

(** ** The grammar *)

Module CFG.
Record t : Type := mk {
  N : collection;
  Sigma : list symbol;
  P : dict (list body);
  S : symbol
}.
End CFG.

(** ** find_nullable *)

(** The inner [for body in bodies] of one pass; the state is the set built
    so far and the [changed] flag. *)
Fixpoint scan_bodies (head : symbol) (bodies : list body)
    (st : list symbol * bool) : list symbol * bool :=
  match bodies with
  | [] => st
  | b :: rest =>
      let '(nullable, changed) := st in
      if is_empty b || forallb (fun s => mem s nullable) b then
        if negb (mem head nullable)
        then scan_bodies head rest (nullable ++ [head], true)
        else scan_bodies head rest (nullable, changed)
      else scan_bodies head rest (nullable, changed)
  end.

(** One execution of the body of the [while]: [changed = False], then the
    loop over [cfg.P.items()]. *)
Definition nullable_pass (P : dict (list body)) (nullable : list symbol)
    : list symbol * bool :=
  fold_left (fun st hb => scan_bodies (fst hb) (snd hb) st) P (nullable, false).

(** The [while changed] loop.  [fuel] bounds the number of passes; the
    result also counts the passes that added something. *)
Fixpoint nullable_loop (fuel : nat) (P : dict (list body))
    (nullable : list symbol) : option (list symbol * nat) :=
  match fuel with
  | O => None
  | S fuel' =>
      let '(nullable', changed) := nullable_pass P nullable in
      if changed then
        match nullable_loop fuel' P nullable' with
        | Some (r, k) => Some (r, S k)
        | None => None
        end
      else Some (nullable', O)
  end.

(** [find_nullable(cfg)].  One more pass than there are heads always
    suffices ([nullable_loop_total] below), so the default is never used. *)
Definition find_nullable (cfg : CFG.t) : list symbol :=
  match nullable_loop (S (length (CFG.P cfg))) (CFG.P cfg) [] with
  | Some (r, _) => r
  | None => []
  end.

(** ** remove_epsilon_rules *)

(** The order in which a [set] of tuples is iterated.  Python fixes neither
    the order nor its dependence on the insertions; all that is known is that
    every element inserted comes out exactly once.  [set_iter ins] is the
    iteration order of the set built by the insertions [ins]. *)
Class SetOrder : Type := {
  set_iter : list body -> list body;
  set_iter_NoDup : forall ins, NoDup (set_iter ins);
  set_iter_In : forall ins b, In b (set_iter ins) <-> In b ins
}.

(** [enumerate(l)]. *)
Definition enumerate {A : Type} (l : list A) : list (nat * A) :=
  combine (seq 0 (length l)) l.

(** [l[i] = x] for an index in range (the only use below). *)
Fixpoint list_set {A : Type} (l : list A) (i : nat) (x : A) : list A :=
  match l, i with
  | [], _ => []
  | _ :: rest, O => x :: rest
  | y :: rest, S i' => y :: list_set rest i' x
  end.

(** [[i for i, symbol in enumerate(body) if symbol in nullable]]. *)
Definition positions (nullable : list symbol) (b : body) : list nat :=
  map fst (filter (fun p => mem (snd p) nullable) (enumerate b)).

(** The loop [for j in range(n)] that overwrites with [None] the positions
    selected by [mask]. *)
Definition mark_deleted (mask : nat) (pos : list nat)
    (new_body : list (option symbol)) : list (option symbol) :=
  fold_left
    (fun nb j =>
       if negb (Nat.eqb (Nat.land (Nat.shiftr mask j) 1) 0)
       then list_set nb (nth j pos 0) None
       else nb)
    (seq 0 (length pos)) new_body.

(** [[s for s in new_body if s is not None]]. *)
Definition compact (new_body : list (option symbol)) : body :=
  flat_map (fun o => match o with Some s => [s] | None => [] end) new_body.

Definition candidate (mask : nat) (pos : list nat) (b : body) : body :=
  compact (mark_deleted mask pos (map Some b)).

(** What one body of [head] inserts into [new_bodies]: the candidates that
    pass [if candidate or head == cfg.S], for the masks in increasing order,
    then the body itself. *)
Definition body_insertions (nullable : list symbol) (is_start : bool)
    (b : body) : list body :=
  let pos := positions nullable b in
  filter (fun c => truthy c || is_start)
         (map (fun mask => candidate mask pos b)
              (seq 0 (Nat.shiftl 1 (length pos))))
  ++ [b].

Section RemoveEpsilon.
Context {order : SetOrder}.

(** The value stored in [new_productions[head]] by step 1. *)
Definition new_bodies_of (nullable : list symbol) (start head : symbol)
    (bodies : list body) : list body :=
  let ins := flat_map (body_insertions nullable (String.eqb head start)) bodies in
  if negb (String.eqb head start)
  then set_iter (filter truthy (set_iter ins))
  else set_iter ins.

(** Step 1: the loop over [cfg.P.items()]. *)
Definition step1 (nullable : list symbol) (start : symbol)
    (P : dict (list body)) : dict (list body) :=
  fold_left
    (fun new_productions hb =>
       dict_set new_productions (fst hb)
                (new_bodies_of nullable start (fst hb) (snd hb)))
    P [].

(** Step 2: does the start symbol occur in a body of [new_productions]? *)
Definition s_in_rhs (start : symbol) (new_productions : dict (list body)) : bool :=
  existsb (fun hb => existsb (fun b => mem start b) (snd hb)) new_productions.

(** Step 3: drop or add the empty body of the start symbol. *)
Definition step3 (nullable : list symbol) (start : symbol)
    (new_productions : dict (list body)) : result (dict (list body)) :=
  if s_in_rhs start new_productions then
    bs <- dict_item new_productions start ;;
    if has_empty bs
    then Ok (dict_set new_productions start (remove_first_empty bs))
    else Ok new_productions
  else
    if mem start nullable then
      bs <- dict_item new_productions start ;;
      if negb (has_empty bs)
      then Ok (dict_set new_productions start (bs ++ [[]]))
      else Ok new_productions
    else Ok new_productions.

Definition remove_epsilon_rules (cfg : CFG.t) : result CFG.t :=
  let nullable := find_nullable cfg in
  let new_productions := step1 nullable (CFG.S cfg) (CFG.P cfg) in
  new_productions' <- step3 nullable (CFG.S cfg) new_productions ;;
  Ok (CFG.mk (CFG.N cfg) (CFG.Sigma cfg) new_productions' (CFG.S cfg)).
End RemoveEpsilon.

(** ** eliminate_left_recursion *)

(** The body of [for rule in current_rules] in the substitution of [B]:
    what one rule contributes to [updated_rules]. *)
Definition substitute_rule (new_productions : dict (list body)) (B : symbol)
    (rule : body) : result (list body) :=
  if begins_with B rule then
    betas <- dict_item new_productions B ;;
    Ok (map (fun beta => beta ++ tl rule) betas)
  else Ok [rule].

Fixpoint substitute (new_productions : dict (list body)) (B : symbol)
    (current_rules : list body) : result (list body) :=
  match current_rules with
  | [] => Ok []
  | rule :: rest =>
      rs <- substitute_rule new_productions B rule ;;
      rs' <- substitute new_productions B rest ;;
      Ok (rs ++ rs')
  end.

(** [for j in range(i): B = ordered_nt[j] ...], with [earlier] the first
    [i] entries of [ordered_nt]. *)
Fixpoint substitute_all (new_productions : dict (list body))
    (earlier : list symbol) (current_rules : list body) : result (list body) :=
  match earlier with
  | [] => Ok current_rules
  | B :: rest =>
      updated_rules <- substitute new_productions B current_rules ;;
      substitute_all new_productions rest updated_rules
  end.

(** The primed name [A + "'"]. *)
Definition prime (A : symbol) : symbol := String.append A "'".

(** One iteration of the main loop, for the nonterminal [A] at index [i]. *)
Definition process (P : dict (list body)) (ordered_nt : list symbol)
    (i : nat) (A : symbol) (st : dict (list body) * collection)
    : result (dict (list body) * collection) :=
  let '(new_productions, new_non_terminals) := st in
  rules <- dict_item P A ;;
  current_rules <- substitute_all new_productions (firstn i ordered_nt) rules ;;
  let alpha := filter (begins_with A) current_rules in
  let beta := filter (fun r => negb (begins_with A r)) current_rules in
  if truthy alpha then
    let A_prime := prime A in
    new_non_terminals' <- coll_add new_non_terminals A_prime ;;
    let np1 := dict_set new_productions A (map (fun b => b ++ [A_prime]) beta) in
    let np2 := dict_set np1 A_prime
                 (map (fun a => tl a ++ [A_prime]) alpha ++ [[]]) in
    Ok (np2, new_non_terminals')
  else
    Ok (dict_set new_productions A current_rules, new_non_terminals).

(** [for i, A in enumerate(ordered_nt)], from index [i] on. *)
Fixpoint main_loop (P : dict (list body)) (ordered_nt : list symbol)
    (i : nat) (todo : list symbol) (st : dict (list body) * collection)
    : result (dict (list body) * collection) :=
  match todo with
  | [] => Ok st
  | A :: rest =>
      st' <- process P ordered_nt i A st ;;
      main_loop P ordered_nt (S i) rest st'
  end.

Definition eliminate_left_recursion (cfg : CFG.t) : result CFG.t :=
  let ordered_nt := fromkeys (elements (CFG.N cfg)) in
  let new_productions := map (fun nt => (nt, @nil body)) ordered_nt in
  let new_terminals := CFG.Sigma cfg in
  let new_non_terminals := CFG.N cfg in
  st <- main_loop (CFG.P cfg) ordered_nt 0 ordered_nt
          (new_productions, new_non_terminals) ;;
  Ok (CFG.mk (snd st) new_terminals (fst st) (CFG.S cfg)).

(** ** One iteration order *)

(** The order that lists the elements as first inserted; it makes the model
    executable ([insertion_order] below). *)
Fixpoint first_seen (ins : list body) (seen : list body) : list body :=
  match ins with
  | [] => []
  | b :: rest =>
      if in_dec (list_eq_dec string_dec) b seen
      then first_seen rest seen
      else b :: first_seen rest (b :: seen)
  end.

(** * Specification *)

(** ** Derivations and nullable symbols *)

(** The test of line 30: [not body or all(symbol in nullable ...)]. *)
Definition fires (nullable : list symbol) (b : body) : bool :=
  is_empty b || forallb (fun s => mem s nullable) b.

(** [A -> b] is a production of the grammar. *)
Definition produces (P : dict (list body)) (A : symbol) (b : body) : Prop :=
  exists bs, In (A, bs) P /\ In b bs.

(** One rewriting step of a sentential form, and derivations. *)
Inductive step (P : dict (list body)) : list symbol -> list symbol -> Prop :=
| step_rewrite (u v : list symbol) (A : symbol) (b : body) :
    produces P A b -> step P (u ++ A :: v) (u ++ b ++ v).

Definition derives (P : dict (list body)) : list symbol -> list symbol -> Prop :=
  clos_refl_trans_1n _ (step P).

(** [A] derives the empty string. *)
Definition derives_eps (P : dict (list body)) (A : symbol) : Prop :=
  derives P [A] [].

(** A set closed under the rule of line 30. *)
Definition closed (P : dict (list body)) (n : list symbol) : Prop :=
  forall A b, produces P A b -> Forall (fun s => In s n) b -> In A n.

(** The relation between [new_body] and [body] all along the inner loops:
    an entry is the symbol of the body, or [None] where that symbol is
    nullable. *)
Definition entry_ok (nullable : list symbol) (o : option symbol) (s : symbol) : Prop :=
  o = Some s \/ (o = None /\ In s nullable).

(** ** The data-model invariants *)

(** [X] occurs in some body. *)
Definition occurs_in_rhs (P : dict (list body)) (X : symbol) : Prop :=
  exists A b, produces P A b /\ In X b.

(** Every symbol of every body is a terminal or a nonterminal. *)
Definition symbols_closed (cfg : CFG.t) : Prop :=
  forall A b s, produces (CFG.P cfg) A b -> In s b ->
                In s (CFG.Sigma cfg) \/ In s (elements (CFG.N cfg)).

(** A well-formed grammar: distinct nonterminals, a dictionary with an entry
    for each nonterminal and no other head, a start symbol among the
    nonterminals, bodies over the terminals and nonterminals. *)
Record well_formed (cfg : CFG.t) : Prop := {
  wf_distinct : NoDup (elements (CFG.N cfg));
  wf_dict : dict_ok (CFG.P cfg);
  wf_entries : forall A, In A (elements (CFG.N cfg)) -> In A (keys (CFG.P cfg));
  wf_heads : forall A, In A (keys (CFG.P cfg)) -> In A (elements (CFG.N cfg));
  wf_start : In (CFG.S cfg) (elements (CFG.N cfg));
  wf_symbols : symbols_closed cfg
}.

(** ** Invariants of the main loop of eliminate_left_recursion *)

(** [{nt: [] for nt in ordered_nt}]. *)
Definition initial_productions (ord : list symbol) : dict (list body) :=
  map (fun nt => (nt, @nil body)) ord.

(** The shape of the state: the heads are the nonterminals in order, then
    primed names; the collection only gains primed names, and only a set
    can gain any. *)
Definition shape (cfg : CFG.t) (i : nat) (st : dict (list body) * collection) : Prop :=
  let ord := fromkeys (elements (CFG.N cfg)) in
  let '(np, nn) := st in
  dict_ok np /\
  (forall x, In x ord -> In x (keys np)) /\
  (forall x, In x (keys np) ->
             In x ord \/ exists A, In A (firstn i ord) /\ x = prime A /\ In x (elements nn)) /\
  (forall x, In x (elements (CFG.N cfg)) -> In x (elements nn)) /\
  (forall x, In x (elements nn) ->
             In x (elements (CFG.N cfg)) \/
             exists A, In A (firstn i ord) /\ x = prime A /\ In x (keys np)) /\
  (forall xs, CFG.N cfg = PyList xs -> nn = CFG.N cfg) /\
  (forall xs, CFG.N cfg = PySet xs -> exists xs', nn = PySet xs').

(** The symbols of a body are terminals or members of the collection. *)
Definition symbols_in (Sigma : list symbol) (nn : collection) (b : body) : Prop :=
  forall s, In s b -> In s Sigma \/ In s (elements nn).

Definition symbols_inv (cfg : CFG.t) (i : nat)
    (st : dict (list body) * collection) : Prop :=
  shape cfg i st /\
  forall A b, produces (fst st) A b -> symbols_in (CFG.Sigma cfg) (snd st) b.

(** The number of empty bodies in a list. *)
Definition count_empty (bs : list body) : nat := length (filter is_empty bs).

(** The grammars [remove_epsilon_rules] returns: an empty body only for the
    start symbol, at most once, and then the start symbol is in no body. *)
Record start_only_eps (cfg : CFG.t) : Prop := {
  soe_heads : forall A, produces (CFG.P cfg) A [] -> A = CFG.S cfg;
  soe_rhs : produces (CFG.P cfg) (CFG.S cfg) [] ->
            ~ occurs_in_rhs (CFG.P cfg) (CFG.S cfg);
  soe_single : forall A bs, dict_get (CFG.P cfg) A = Some bs -> count_empty bs <= 1
}.

(** No nonterminal is the primed name of a nonterminal. *)
Definition primes_fresh (cfg : CFG.t) : Prop :=
  forall X, In X (elements (CFG.N cfg)) -> ~ In (prime X) (elements (CFG.N cfg)).

(** An empty rule belongs to the start symbol, and a grammar whose start
    symbol has the empty body does not mention the start symbol. *)
Definition rule_ok (cfg : CFG.t) (A : symbol) (rule : body) : Prop :=
  (rule = [] -> A = CFG.S cfg /\ produces (CFG.P cfg) (CFG.S cfg) []) /\
  (produces (CFG.P cfg) (CFG.S cfg) [] -> ~ In (CFG.S cfg) rule).

Definition eps_inv (cfg : CFG.t) (i : nat)
    (st : dict (list body) * collection) : Prop :=
  shape cfg i st /\
  (forall B beta, In B (elements (CFG.N cfg)) ->
                  produces (fst st) B beta -> rule_ok cfg B beta) /\
  (forall H bs, dict_get (fst st) H = Some bs -> count_empty bs <= 1).

(** No production has an empty body. *)
Definition eps_free (cfg : CFG.t) : Prop :=
  forall A, ~ produces (CFG.P cfg) A [].

(** No primed name of a nonterminal is in use, as a nonterminal or in a body. *)
Definition primes_unused (cfg : CFG.t) : Prop :=
  forall X, In X (elements (CFG.N cfg)) ->
    ~ In (prime X) (elements (CFG.N cfg)) /\
    forall A b, produces (CFG.P cfg) A b -> ~ In (prime X) b.

(** [x] is not the primed name of a nonterminal. *)
Definition not_primed (cfg : CFG.t) (x : symbol) : Prop :=
  forall X, In X (elements (CFG.N cfg)) -> x <> prime X.

(** The body is not empty and its first symbol is a symbol of the input
    grammar outside [done]. *)
Definition leads_outside (cfg : CFG.t) (done : list symbol) (rule : body) : Prop :=
  match rule with
  | [] => False
  | x :: _ => not_primed cfg x /\ ~ In x done
  end.

Definition lead_inv (cfg : CFG.t) (i : nat)
    (st : dict (list body) * collection) : Prop :=
  let ord := fromkeys (elements (CFG.N cfg)) in
  shape cfg i st /\
  forall k A bs, k < i -> nth_error ord k = Some A ->
                 dict_get (fst st) A = Some bs ->
                 Forall (leads_outside cfg (firstn (S k) ord)) bs.

(** One rewriting of the leading nonterminal of a string by one of its bodies. *)
Definition lead_step (P : dict (list body)) (w w' : list symbol) : Prop :=
  exists X rest b, w = X :: rest /\ produces P X b /\ w' = b ++ rest.

(** [A] has a body that begins with [A], at once or after rewriting leading
    nonterminals. *)
Definition left_recursive (P : dict (list body)) (A : symbol) : Prop :=
  exists b w, produces P A b /\ clos_refl_trans_1n _ (lead_step P) b w /\
              begins_with A w = true.

(** ** Boolean checks of the side conditions *)

Fixpoint distinctb (l : list symbol) : bool :=
  match l with
  | [] => true
  | x :: rest => negb (mem x rest) && distinctb rest
  end.

Definition subsetb (l1 l2 : list symbol) : bool :=
  forallb (fun x => mem x l2) l1.

Definition all_bodies (f : body -> bool) (P : dict (list body)) : bool :=
  forallb (fun hb => forallb f (snd hb)) P.

Definition well_formedb (cfg : CFG.t) : bool :=
  distinctb (elements (CFG.N cfg)) &&
  distinctb (keys (CFG.P cfg)) &&
  subsetb (elements (CFG.N cfg)) (keys (CFG.P cfg)) &&
  subsetb (keys (CFG.P cfg)) (elements (CFG.N cfg)) &&
  mem (CFG.S cfg) (elements (CFG.N cfg)) &&
  all_bodies
    (forallb (fun s => mem s (CFG.Sigma cfg) || mem s (elements (CFG.N cfg))))
    (CFG.P cfg).

Definition eps_freeb (cfg : CFG.t) : bool :=
  all_bodies truthy (CFG.P cfg).

Definition primes_freshb (cfg : CFG.t) : bool :=
  forallb (fun X => negb (mem (prime X) (elements (CFG.N cfg))))
          (elements (CFG.N cfg)).

Definition primes_unusedb (cfg : CFG.t) : bool :=
  forallb (fun X => negb (mem (prime X) (elements (CFG.N cfg))) &&
                    all_bodies (fun b => negb (mem (prime X) b)) (CFG.P cfg))
          (elements (CFG.N cfg)).

(** ** Example grammars *)

(** The grammar built under [if __name__ == "__main__"], with the set [N]
    listed in one of its possible iteration orders. *)
Definition demo : CFG.t :=
  CFG.mk (PySet ["E"; "T"; "F"])
         ["+"; "*"; "("; ")"; "id"; "ε"]
         [ ("E", [["E"; "+"; "T"]; ["T"]; []]);
           ("T", [["T"; "*"; "F"]; ["F"]]);
           ("F", [["("; "E"; ")"]; ["id"]]) ]
         "E".

(** The same grammar with [N] a list, as the annotation of [CFG] has it. *)
Definition demo_list : CFG.t :=
  CFG.mk (PyList ["E"; "T"; "F"]) (CFG.Sigma demo) (CFG.P demo) (CFG.S demo).

(** A -> A a | b *)
Definition direct : CFG.t :=
  CFG.mk (PySet ["A"]) ["a"; "b"] [("A", [["A"; "a"]; ["b"]])] "A".

(** The same with [N] a list. *)
Definition direct_list : CFG.t :=
  CFG.mk (PyList ["A"]) ["a"; "b"] [("A", [["A"; "a"]; ["b"]])] "A".

(** A -> A | a *)
Definition unit_loop : CFG.t :=
  CFG.mk (PySet ["A"]) ["a"] [("A", [["A"]; ["a"]])] "A".

(** No empty body except at the start symbol. *)
Definition eps_only_at_start (cfg : CFG.t) : Prop :=
  forall H, produces (CFG.P cfg) H [] -> H = CFG.S cfg.

(** What [eliminate_left_recursion] returns on [direct] and [unit_loop]. *)
Definition direct_result : CFG.t :=
  CFG.mk (PySet ["A"; "A'"]) ["a"; "b"]
         [("A", [["b"; "A'"]]); ("A'", [["a"; "A'"]; []])] "A".

Definition unit_loop_result : CFG.t :=
  CFG.mk (PySet ["A"; "A'"]) ["a"]
         [("A", [["a"; "A'"]]); ("A'", [["A'"]; []])] "A".

(** ** Unit productions and the form of the new bodies *)

(** [A -> B] is a unit production. *)
Definition unit_step (P : dict (list body)) (A B : symbol) : Prop :=
  produces P A [B].

(** No nonterminal reaches itself through unit productions. *)
Definition acyclic_units (cfg : CFG.t) : Prop :=
  forall A, In A (elements (CFG.N cfg)) ->
            ~ clos_trans _ (unit_step (CFG.P cfg)) A A.

(** [y] is the primed name of a nonterminal. *)
Definition primed (cfg : CFG.t) (y : symbol) : Prop :=
  exists B, In B (elements (CFG.N cfg)) /\ y = prime B.

Definition primedb (cfg : CFG.t) (y : symbol) : bool :=
  existsb (fun B => String.eqb y (prime B)) (elements (CFG.N cfg)).

(** [y] is the primed name of a nonterminal of [done]. *)
Definition prime_of (done : list symbol) (y : symbol) : Prop :=
  exists B, In B done /\ y = prime B.

(** A symbol of the input, or the primed name of a nonterminal of [done]. *)
Definition sym_ok (cfg : CFG.t) (done : list symbol) (y : symbol) : Prop :=
  not_primed cfg y \/ prime_of done y.

(** A rule of [H] while [done] has been processed: it begins with a symbol
    of the input, carries primed names of [done] only, and when all that
    follows its first symbol [X] is primed names, [H] reaches [X] through
    unit productions of the input. *)
Definition rule_acyc (cfg : CFG.t) (H : symbol) (done : list symbol)
    (rule : body) : Prop :=
  leads_outside cfg [] rule /\
  Forall (sym_ok cfg done) rule /\
  forall X q, rule = X :: q -> Forall (primed cfg) q ->
              clos_trans _ (unit_step (CFG.P cfg)) H X.

(** A string that is empty or has a symbol of the input after primed names
    of [done] only. *)
Definition guarded (cfg : CFG.t) (done : list symbol) (w : list symbol) : Prop :=
  w = [] \/
  exists q X t, w = q ++ X :: t /\ Forall (prime_of done) q /\ not_primed cfg X.

Definition acyc_inv (cfg : CFG.t) (i : nat)
    (st : dict (list body) * collection) : Prop :=
  let ord := fromkeys (elements (CFG.N cfg)) in
  shape cfg i st /\
  (forall k A bs, k < i -> nth_error ord k = Some A ->
                  dict_get (fst st) A = Some bs ->
                  Forall (rule_acyc cfg A (firstn (S k) ord)) bs) /\
  (forall k A bs, k < i -> nth_error ord k = Some A ->
                  dict_get (fst st) (prime A) = Some bs ->
                  Forall (guarded cfg (firstn k ord)) bs).

(** Every unit production goes up in the ranking [r]. *)
Definition unit_rankedb (r : symbol -> nat) (cfg : CFG.t) : bool :=
  forallb
    (fun hb =>
       forallb (fun b => match b with
                         | [x] => Nat.ltb (r (fst hb)) (r x)
                         | _ => true
                         end)
               (snd hb))
    (CFG.P cfg).

(** A ranking for [direct] and one for [demo_no_eps]. *)
Definition rank_direct (s : symbol) : nat :=
  if String.eqb s "A" then 0 else 1.

Definition rank_demo (s : symbol) : nat :=
  if String.eqb s "E" then 0
  else if String.eqb s "T" then 1
  else if String.eqb s "F" then 2 else 3.

(** A -> A a | A' A | b, where A' is a terminal. *)
Definition primed_terminal : CFG.t :=
  CFG.mk (PySet ["A"]) ["a"; "b"; "A'"]
         [("A", [["A"; "a"]; ["A'"; "A"]; ["b"]])] "A".

Definition primed_terminal_result : CFG.t :=
  CFG.mk (PySet ["A"; "A'"]) ["a"; "b"; "A'"]
         [("A", [["A'"; "A"; "A'"]; ["b"; "A'"]]); ("A'", [["a"; "A'"]; []])] "A".

(** ** Definitions for the further properties *)

(** [c] is [b] without some occurrences of nullable symbols. *)
Inductive deletes (nullable : list symbol) : body -> body -> Prop :=
| deletes_nil : deletes nullable [] []
| deletes_keep (s : symbol) (b c : body) :
    deletes nullable b c -> deletes nullable (s :: b) (s :: c)
| deletes_drop (s : symbol) (b c : body) :
    In s nullable -> deletes nullable b c -> deletes nullable (s :: b) c.

(** [positions] computed from an index [k] on. *)
Definition positions_from (k : nat) (nullable : list symbol) (b : body) : list nat :=
  map fst (filter (fun p => mem (snd p) nullable) (combine (seq k (length b)) b)).

(** A grammar whose start symbol has no entry in the production map:
    A -> S a, start S. *)
Definition no_start_entry : CFG.t :=
  CFG.mk (PySet ["A"]) ["a"] [("A", [["S"; "a"]])] "S".

(** No body of a nonterminal begins with a nonterminal. *)
Definition leads_with_terminals (cfg : CFG.t) : Prop :=
  forall A b B, In A (elements (CFG.N cfg)) -> produces (CFG.P cfg) A b ->
                In B (elements (CFG.N cfg)) -> begins_with B b = false.

(** The invariant "no body of a processed nonterminal begins with it". *)
Definition no_direct_inv (cfg : CFG.t) (i : nat)
    (st : dict (list body) * collection) : Prop :=
  let ord := fromkeys (elements (CFG.N cfg)) in
  shape cfg i st /\
  forall k A bs, k < i -> nth_error ord k = Some A ->
                 dict_get (fst st) A = Some bs ->
                 Forall (fun b => begins_with A b = false) bs.

(** A body of a primed head: empty, or ending with the head. *)
Definition right_recursive (x : symbol) (b : body) : Prop :=
  b = [] \/ exists c, b = c ++ [x].

(** The invariant on the heads that are not input nonterminals. *)
Definition primed_inv (cfg : CFG.t) (i : nat)
    (st : dict (list body) * collection) : Prop :=
  let ord := fromkeys (elements (CFG.N cfg)) in
  forall x bs, ~ In x ord -> dict_get (fst st) x = Some bs ->
               (exists A, In A ord /\ x = prime A) /\
               count_empty bs = 1 /\ Forall (right_recursive x) bs.

(** A -> a B, B -> b | b A, with [N] a list. *)
Definition leading_terminals : CFG.t :=
  CFG.mk (PyList ["A"; "B"]) ["a"; "b"]
         [("A", [["a"; "B"]]); ("B", [["b"]; ["b"; "A"]])] "A".

(** A grammar whose nonterminal B has no entry. *)
Definition no_entry : CFG.t :=
  CFG.mk (PySet ["A"; "B"]) ["a"] [("A", [["a"]])] "A".

(** What [remove_epsilon_rules] returns on [demo], in insertion order. *)
Definition demo_no_eps : CFG.t :=
  CFG.mk (PySet ["E"; "T"; "F"])
         ["+"; "*"; "("; ")"; "id"; "ε"]
         [ ("E", [["E"; "+"; "T"]; ["+"; "T"]; ["T"]]);
           ("T", [["T"; "*"; "F"]; ["F"]]);
           ("F", [["("; "E"; ")"]; ["("; ")"]; ["id"]]) ]
         "E".

(** S -> a, and a head D without bodies. *)
Definition dead_head : CFG.t :=
  CFG.mk (PySet ["S"; "D"]) ["a"] [("S", [["a"]]); ("D", [])] "S".

(** The invariant "a processed nonterminal without bodies has none". *)
Definition dead_inv (cfg : CFG.t) (i : nat)
    (st : dict (list body) * collection) : Prop :=
  let ord := fromkeys (elements (CFG.N cfg)) in
  forall k A, k < i -> nth_error ord k = Some A ->
              dict_get (CFG.P cfg) A = Some [] -> dict_get (fst st) A = Some [].

(** The invariant "the bodies of a processed nonterminal whose primed name
    is a head end with that name". *)
Definition separated_inv (cfg : CFG.t) (i : nat)
    (st : dict (list body) * collection) : Prop :=
  let ord := fromkeys (elements (CFG.N cfg)) in
  shape cfg i st /\
  forall k A bs, k < i -> nth_error ord k = Some A ->
                 In (prime A) (keys (fst st)) ->
                 dict_get (fst st) A = Some bs ->
                 Forall (fun b => exists c, b = c ++ [prime A]) bs.

(** A -> A a, and a head D without bodies. *)
Definition dead_recursive : CFG.t :=
  CFG.mk (PySet ["A"; "D"]) ["a"] [("A", [["A"; "a"]]); ("D", [])] "A".

Definition dead_recursive_result : CFG.t :=
  CFG.mk (PySet ["A"; "D"; "A'"]) ["a"]
         [("A", []); ("D", []); ("A'", [["a"; "A'"]; []])] "A".

(** * Proofs *)

(** ** The insertion order is an iteration order *)

Lemma first_seen_In (ins seen : list body) (b : body) :
  In b (first_seen ins seen) <-> In b ins /\ ~ In b seen.
Proof.
  revert seen; induction ins as [|x ins IH]; intros seen; simpl.
  - tauto.
  - destruct (in_dec (list_eq_dec string_dec) x seen) as [Hx|Hx].
    + rewrite IH. intuition (subst; auto; contradiction).
    + simpl. rewrite IH. simpl.
      destruct (list_eq_dec string_dec x b) as [->|Hne]; intuition auto.
Qed.

Lemma first_seen_NoDup (ins seen : list body) : NoDup (first_seen ins seen).
Proof.
  revert seen; induction ins as [|x ins IH]; intros seen; simpl.
  - constructor.
  - destruct (in_dec (list_eq_dec string_dec) x seen) as [Hx|Hx]; auto.
    constructor; auto.
    rewrite first_seen_In. simpl. tauto.
Qed.

#[export] Instance insertion_order : SetOrder := {
  set_iter ins := first_seen ins [];
  set_iter_NoDup ins := first_seen_NoDup ins [];
  set_iter_In ins b :=
    conj (fun H => proj1 (proj1 (first_seen_In ins [] b) H))
         (fun H => proj2 (first_seen_In ins [] b) (conj H (fun F => F)))
}.

(** ** Basic facts about the Python values *)

Lemma mem_In (x : symbol) (s : list symbol) : mem x s = true <-> In x s.
Proof.
  unfold mem. rewrite existsb_exists. split.
  - intros [y [Hy Heq]]. apply String.eqb_eq in Heq. now subst.
  - intros H. exists x. split; [assumption | apply String.eqb_refl].
Qed.

Lemma mem_false (x : symbol) (s : list symbol) : mem x s = false <-> ~ In x s.
Proof.
  rewrite <- mem_In. destruct (mem x s); split; congruence.
Qed.

Lemma is_empty_nil {A : Type} (l : list A) : is_empty l = true <-> l = [].
Proof. destruct l; simpl; split; congruence. Qed.

Lemma truthy_spec {A : Type} (l : list A) : truthy l = true <-> l <> [].
Proof. destruct l; unfold truthy; simpl; split; intros H; congruence. Qed.

Lemma has_empty_In (bodies : list body) : has_empty bodies = true <-> In [] bodies.
Proof.
  unfold has_empty. rewrite existsb_exists. split.
  - intros [b [Hb He]]. apply is_empty_nil in He. now subst.
  - intros H. now exists [].
Qed.

(** ** find_nullable: the pass, the loop and its fixed point *)

Lemma fires_Forall (nullable : list symbol) (b : body) :
  fires nullable b = true <-> Forall (fun s => In s nullable) b.
Proof.
  unfold fires. rewrite orb_true_iff, forallb_forall, Forall_forall, is_empty_nil.
  split.
  - intros [-> | H] s Hs; [destruct Hs | now apply mem_In, H].
  - intros H. right. intros s Hs. now apply mem_In, H.
Qed.

(** A head is added by its bodies at most once, by the first body that
    passes the test. *)
Lemma scan_bodies_eq (head : symbol) (bodies : list body)
    (nullable : list symbol) (changed : bool) :
  scan_bodies head bodies (nullable, changed) =
  if existsb (fires nullable) bodies && negb (mem head nullable)
  then (nullable ++ [head], true)
  else (nullable, changed).
Proof.
  revert changed. induction bodies as [|b rest IH]; intros changed; simpl.
  - reflexivity.
  - fold (fires nullable b).
    destruct (fires nullable b) eqn:Hf; simpl.
    + destruct (mem head nullable) eqn:Hm; simpl.
      * rewrite IH, andb_false_r. reflexivity.
      * clear IH. induction rest as [|b' rest IH']; simpl; [reflexivity|].
        assert (Hm' : mem head (nullable ++ [head]) = true)
          by (apply mem_In, in_or_app; right; now left).
        rewrite Hm'. simpl.
        destruct (is_empty b' || forallb (fun s => mem s (nullable ++ [head])) b');
          exact IH'.
    + apply IH.
Qed.

Lemma pass_fold_grows (l : dict (list body)) (n : list symbol) (c : bool)
    (n' : list symbol) (c' : bool) :
  fold_left (fun st hb => scan_bodies (fst hb) (snd hb) st) l (n, c) = (n', c') ->
  exists ext,
    n' = n ++ ext /\ incl ext (keys l) /\ (NoDup n -> NoDup n') /\
    (ext = [] -> c' = c) /\ (ext <> [] -> c' = true).
Proof.
  revert n c. induction l as [|[h bs] l IH]; intros n c H; simpl in H.
  - inversion H; subst. exists []. rewrite app_nil_r.
    repeat split; auto. intros x [].
  - rewrite scan_bodies_eq in H.
    destruct (existsb (fires n) bs && negb (mem h n)) eqn:Ht.
    + apply IH in H. destruct H as [ext [-> [Hi [Hn [Hc1 Hc2]]]]].
      apply andb_true_iff in Ht. destruct Ht as [_ Hm].
      apply negb_true_iff, mem_false in Hm.
      exists (h :: ext). rewrite <- app_assoc. simpl.
      split; [reflexivity|]. split; [|split; [|split]].
      * intros x [<-|Hx]; [now left | right; now apply Hi].
      * intros Hnd. rewrite <- app_assoc in Hn. apply Hn.
        apply Permutation_NoDup with (l := h :: n).
        -- apply Permutation_cons_append.
        -- now constructor.
      * discriminate.
      * intros _. destruct ext as [|e ext]; [now apply Hc1 | apply Hc2; discriminate].
    + apply IH in H. destruct H as [ext [-> [Hi [Hn [Hc1 Hc2]]]]].
      exists ext. repeat split; auto.
      intros x Hx. right. now apply Hi.
Qed.

Lemma pass_fold_flag (l : dict (list body)) (n : list symbol) (n' : list symbol) (c' : bool) :
  fold_left (fun st hb => scan_bodies (fst hb) (snd hb) st) l (n, true) = (n', c') ->
  c' = true.
Proof.
  intros H. apply pass_fold_grows in H. destruct H as [ext [_ [_ [_ [H1 H2]]]]].
  destruct ext; [now apply H1 | apply H2; discriminate].
Qed.

Lemma pass_fold_closed (l : dict (list body)) (n : list symbol) (c : bool)
    (n' : list symbol) :
  fold_left (fun st hb => scan_bodies (fst hb) (snd hb) st) l (n, c) = (n', false) ->
  n' = n /\ closed l n.
Proof.
  revert n c. induction l as [|[h bs] l IH]; intros n c H; simpl in H.
  - inversion H; subst. split; [reflexivity|]. intros A b [bs [[] _]].
  - rewrite scan_bodies_eq in H.
    destruct (existsb (fires n) bs && negb (mem h n)) eqn:Ht.
    + apply pass_fold_flag in H. discriminate.
    + apply IH in H. destruct H as [-> Hcl]. split; [reflexivity|].
      intros A b [bs' [[Heq|Hin] Hb]] Hall.
      * inversion Heq; subst.
        apply andb_false_iff in Ht. destruct Ht as [Ht|Ht].
        -- exfalso. apply not_true_iff_false in Ht. apply Ht.
           apply existsb_exists. exists b. split; [assumption|].
           now apply fires_Forall.
        -- apply negb_false_iff in Ht. now apply mem_In.
      * apply Hcl with (b := b); [exists bs'; auto | assumption].
Qed.

Lemma pass_fold_sound (Q : symbol -> Prop) (l : dict (list body))
    (n : list symbol) (c : bool) (n' : list symbol) (c' : bool) :
  (forall A b, produces l A b -> Forall Q b -> Q A) ->
  fold_left (fun st hb => scan_bodies (fst hb) (snd hb) st) l (n, c) = (n', c') ->
  Forall Q n -> Forall Q n'.
Proof.
  revert n c. induction l as [|[h bs] l IH]; intros n c HQ H Hn; simpl in H.
  - now inversion H; subst.
  - assert (HQ' : forall A b, produces l A b -> Forall Q b -> Q A).
    { intros A b [bs' [Hin Hb]]. apply HQ. exists bs'. split; [now right | assumption]. }
    rewrite scan_bodies_eq in H.
    destruct (existsb (fires n) bs && negb (mem h n)) eqn:Ht.
    + apply (IH _ _ HQ' H). apply Forall_app. split; [assumption|].
      constructor; [|constructor].
      apply andb_true_iff in Ht. destruct Ht as [Ht _].
      apply existsb_exists in Ht. destruct Ht as [b [Hb Hf]].
      apply HQ with (b := b); [exists bs; split; [now left | assumption]|].
      apply fires_Forall in Hf. rewrite Forall_forall in *.
      intros s Hs. apply Hn. now apply Hf.
    + now apply (IH _ _ HQ' H).
Qed.

Lemma nullable_pass_grows (P : dict (list body)) (n n' : list symbol) (c' : bool) :
  nullable_pass P n = (n', c') ->
  exists ext,
    n' = n ++ ext /\ incl ext (keys P) /\ (NoDup n -> NoDup n') /\
    (c' = true -> ext <> []) /\ (c' = false -> ext = []).
Proof.
  intros H. apply pass_fold_grows in H. destruct H as [ext [-> [Hi [Hn [H1 H2]]]]].
  exists ext. repeat split; auto.
  - intros -> ->. now specialize (H1 eq_refl).
  - intros ->. destruct ext; [reflexivity|]. discriminate H2. discriminate.
Qed.

(** Enough fuel: with [U] a list that contains every head, the loop started
    from a duplicate-free subset [n] of the heads needs at most
    [length U - length n] passes that add something, and one that does not. *)
Lemma nullable_loop_total (P : dict (list body)) (U : list symbol) :
  incl (keys P) U ->
  forall (fuel : nat) (n : list symbol),
    NoDup n -> incl n (keys P) -> length U - length n < fuel ->
    exists r k,
      nullable_loop fuel P n = Some (r, k) /\
      nullable_pass P r = (r, false) /\
      length n + k <= length r /\ NoDup r /\ incl r (keys P) /\ incl n r /\
      (forall Q : symbol -> Prop,
         (forall A b, produces P A b -> Forall Q b -> Q A) ->
         Forall Q n -> Forall Q r).
Proof.
  intros HU. induction fuel as [|fuel IH]; intros n Hnd Hin Hlt; [lia|].
  simpl. destruct (nullable_pass P n) as [n' c'] eqn:Hp.
  destruct (nullable_pass_grows _ _ Hp) as [ext [-> [Hi [Hn [Ht Hf]]]]].
  destruct c'.
  - specialize (Ht eq_refl).
    assert (Hlen : length (n ++ ext) > length n).
    { rewrite length_app. destruct ext; [congruence | simpl; lia]. }
    assert (Hin' : incl (n ++ ext) (keys P)) by (apply incl_app; assumption).
    assert (Hle : length (n ++ ext) <= length U).
    { apply NoDup_incl_length; [now apply Hn|]. eapply incl_tran; eassumption. }
    destruct (IH (n ++ ext) (Hn Hnd) Hin' ltac:(lia))
      as [r [k [Hl [Hfix [Hk [Hr [Hir [Hnr HQ]]]]]]]].
    exists r, (S k). rewrite Hl. repeat split; auto; try lia.
    + eapply incl_tran; [|exact Hnr]. now apply incl_appl.
    + intros Q HQ1 HQ2. apply HQ; [assumption|].
      unfold nullable_pass in Hp. eapply pass_fold_sound; eassumption.
  - specialize (Hf eq_refl). subst ext. rewrite app_nil_r in *.
    exists n, 0. repeat split; auto; try lia. apply incl_refl.
Qed.

Lemma nullable_loop_more_fuel (P : dict (list body)) (fuel fuel' : nat)
    (n : list symbol) (x : list symbol * nat) :
  nullable_loop fuel P n = Some x -> fuel <= fuel' ->
  nullable_loop fuel' P n = Some x.
Proof.
  revert fuel' n x. induction fuel as [|fuel IH]; intros fuel' n x H Hle;
    [discriminate|].
  destruct fuel' as [|fuel']; [lia|]. simpl in *.
  destruct (nullable_pass P n) as [n' c']. destruct c'; [|assumption].
  destruct (nullable_loop fuel P n') as [[r k]|] eqn:Hl; [|discriminate].
  rewrite (IH fuel' n' (r, k) Hl ltac:(lia)). assumption.
Qed.

(** What [find_nullable] returns: the loop ends, on a duplicate-free set of
    heads on which one more pass changes nothing. *)
Lemma find_nullable_loop (cfg : CFG.t) :
  exists k,
    nullable_loop (S (length (CFG.P cfg))) (CFG.P cfg) [] = Some (find_nullable cfg, k) /\
    nullable_pass (CFG.P cfg) (find_nullable cfg) = (find_nullable cfg, false) /\
    k <= length (find_nullable cfg) /\
    NoDup (find_nullable cfg) /\
    incl (find_nullable cfg) (keys (CFG.P cfg)) /\
    (forall Q : symbol -> Prop,
       (forall A b, produces (CFG.P cfg) A b -> Forall Q b -> Q A) ->
       Forall Q (find_nullable cfg)).
Proof.
  destruct (@nullable_loop_total (CFG.P cfg) (keys (CFG.P cfg)) (incl_refl _)
              (S (length (CFG.P cfg))) [])
    as [r [k [Hl [Hfix [Hk [Hr [Hir [_ HQ]]]]]]]].
  - constructor.
  - intros x [].
  - unfold keys. rewrite length_map. simpl. lia.
  - unfold find_nullable. rewrite Hl. exists k. repeat split; auto.
Qed.

Lemma find_nullable_closed (cfg : CFG.t) : closed (CFG.P cfg) (find_nullable cfg).
Proof.
  destruct (find_nullable_loop cfg) as [k [_ [Hfix _]]].
  unfold nullable_pass in Hfix. now apply pass_fold_closed in Hfix.
Qed.

Lemma find_nullable_heads (cfg : CFG.t) (A : symbol) :
  In A (find_nullable cfg) -> In A (keys (CFG.P cfg)).
Proof.
  destruct (find_nullable_loop cfg) as [k [_ [_ [_ [_ [Hi _]]]]]]. apply Hi.
Qed.

(** Derivations are closed under contexts and concatenation. *)
Lemma derives_refl (P : dict (list body)) (w : list symbol) : derives P w w.
Proof. constructor. Qed.

Lemma derives_trans (P : dict (list body)) (w1 w2 w3 : list symbol) :
  derives P w1 w2 -> derives P w2 w3 -> derives P w1 w3.
Proof.
  intros H12 H23. induction H12 as [|x y z Hxy Hyz IH]; [assumption|].
  econstructor; [eassumption | now apply IH].
Qed.

Lemma derives_context (P : dict (list body)) (u v w w' : list symbol) :
  derives P w w' -> derives P (u ++ w ++ v) (u ++ w' ++ v).
Proof.
  intros H. induction H as [|x y z Hxy Hyz IH]; [constructor|].
  econstructor; [|exact IH].
  destruct Hxy as [u0 v0 A b Hp].
  replace (u ++ (u0 ++ A :: v0) ++ v) with ((u ++ u0) ++ A :: (v0 ++ v))
    by (repeat rewrite <- app_assoc; reflexivity).
  replace (u ++ (u0 ++ b ++ v0) ++ v) with ((u ++ u0) ++ b ++ (v0 ++ v))
    by (repeat rewrite <- app_assoc; reflexivity).
  now constructor.
Qed.

Lemma derives_eps_all (P : dict (list body)) (w : list symbol) :
  Forall (derives_eps P) w -> derives P w [].
Proof.
  induction 1 as [|A w HA Hw IH]; [constructor|].
  apply derives_trans with (w2 := w); [|assumption].
  apply (@derives_context P [] w [A] []) in HA. exact HA.
Qed.

Lemma derives_eps_rule (P : dict (list body)) (A : symbol) (b : body) :
  produces P A b -> Forall (derives_eps P) b -> derives_eps P A.
Proof.
  intros Hp Hb. unfold derives_eps.
  econstructor; [|apply derives_eps_all; eassumption].
  pose proof (@step_rewrite P [] [] A b Hp) as Hs.
  simpl in Hs. rewrite app_nil_r in Hs. exact Hs.
Qed.

(** Every symbol of a string that derives the empty string lies in every
    closed set. *)
Lemma derives_nil_closed (P : dict (list body)) (n : list symbol) (w w' : list symbol) :
  closed P n -> derives P w w' -> w' = [] -> Forall (fun s => In s n) w.
Proof.
  intros Hcl H. induction H as [|x y z Hxy Hyz IH]; intros Hz.
  - subst. constructor.
  - specialize (IH Hz). destruct Hxy as [u v A b Hp].
    apply Forall_app in IH. destruct IH as [Hu Hbv].
    apply Forall_app in Hbv. destruct Hbv as [Hb Hv].
    apply Forall_app. split; [assumption|]. constructor; [|assumption].
    now apply (Hcl A b).
Qed.

(** The computed set is exactly the set of symbols that derive ε. *)
Lemma find_nullable_correct (cfg : CFG.t) (A : symbol) :
  In A (find_nullable cfg) <-> derives_eps (CFG.P cfg) A.
Proof.
  split.
  - destruct (find_nullable_loop cfg) as [k [_ [_ [_ [_ [_ HQ]]]]]].
    specialize (HQ (derives_eps (CFG.P cfg)) (@derives_eps_rule (CFG.P cfg))).
    rewrite Forall_forall in HQ. apply HQ.
  - intros H.
    pose proof (derives_nil_closed (find_nullable_closed cfg) H eq_refl) as HF.
    now inversion HF.
Qed.

(** ** Dictionaries *)

Section DictFacts.
Variable V : Type.
Implicit Types (d : dict V) (k : symbol) (v : V).

Lemma dict_get_In d k v : dict_get d k = Some v -> In (k, v) d.
Proof.
  induction d as [|[k' v'] d IH]; simpl; [discriminate|].
  destruct (String.eqb k' k) eqn:He.
  - apply String.eqb_eq in He. intros H. inversion H; subst. now left.
  - intros H. right. now apply IH.
Qed.

Lemma In_dict_get d k v : dict_ok d -> In (k, v) d -> dict_get d k = Some v.
Proof.
  unfold dict_ok. induction d as [|[k' v'] d IH]; simpl; intros Hnd Hin; [destruct Hin|].
  inversion Hnd as [|? ? Hk Hnd']; subst.
  destruct Hin as [Heq|Hin].
  - inversion Heq; subst. now rewrite String.eqb_refl.
  - destruct (String.eqb k' k) eqn:He.
    + apply String.eqb_eq in He. subst. exfalso. apply Hk.
      apply in_map_iff. now exists (k, v).
    + now apply IH.
Qed.

Lemma dict_get_keys d k : In k (keys d) <-> exists v, dict_get d k = Some v.
Proof.
  induction d as [|[k' v'] d IH]; simpl.
  - split; [intros [] | intros [v H]; discriminate].
  - destruct (String.eqb k' k) eqn:He.
    + apply String.eqb_eq in He. subst. split; [eauto | auto].
    + apply String.eqb_neq in He. rewrite <- IH. tauto.
Qed.

Lemma dict_get_set_same d k v : dict_get (dict_set d k v) k = Some v.
Proof.
  induction d as [|[k' v'] d IH]; simpl.
  - now rewrite String.eqb_refl.
  - destruct (String.eqb k' k) eqn:He; simpl; now rewrite He.
Qed.

Lemma dict_get_set_other d k k' v :
  k <> k' -> dict_get (dict_set d k v) k' = dict_get d k'.
Proof.
  intros Hne. induction d as [|[k0 v0] d IH]; simpl.
  - apply String.eqb_neq in Hne. now rewrite Hne.
  - destruct (String.eqb k0 k) eqn:He; simpl.
    + apply String.eqb_eq in He. subst.
      apply String.eqb_neq in Hne. now rewrite Hne.
    + now rewrite IH.
Qed.

Lemma keys_dict_set_in d k v : In k (keys d) -> keys (dict_set d k v) = keys d.
Proof.
  induction d as [|[k0 v0] d IH]; simpl; [intros []|].
  destruct (String.eqb k0 k) eqn:He; simpl; [reflexivity|].
  apply String.eqb_neq in He. intros [H|H]; [contradiction|]. now rewrite IH.
Qed.

Lemma dict_set_fresh d k v : ~ In k (keys d) -> dict_set d k v = d ++ [(k, v)].
Proof.
  induction d as [|[k0 v0] d IH]; simpl; [reflexivity|].
  intros Hn. destruct (String.eqb k0 k) eqn:He.
  - apply String.eqb_eq in He. subst. exfalso. apply Hn. now left.
  - rewrite IH; [reflexivity|]. intros H. apply Hn. now right.
Qed.

Lemma keys_dict_set d k v x :
  In x (keys (dict_set d k v)) <-> x = k \/ In x (keys d).
Proof.
  rewrite !dict_get_keys.
  destruct (string_dec k x) as [->|Hne].
  - rewrite dict_get_set_same. split; eauto.
  - rewrite dict_get_set_other by assumption. split; [eauto|].
    intros [H|H]; [congruence | assumption].
Qed.

Lemma dict_set_ok d k v : dict_ok d -> dict_ok (dict_set d k v).
Proof.
  unfold dict_ok. induction d as [|[k0 v0] d IH]; simpl; intros Hnd.
  - repeat constructor. intros [].
  - inversion Hnd as [|? ? Hk Hnd']; subst.
    destruct (String.eqb k0 k) eqn:He; simpl; [now constructor|].
    constructor; [|now apply IH].
    apply String.eqb_neq in He. fold (keys (dict_set d k v)).
    rewrite keys_dict_set. intros [H|H]; [congruence | contradiction].
Qed.
End DictFacts.

Lemma produces_dict_get (P : dict (list body)) (A : symbol) (b : body) :
  dict_ok P ->
  (produces P A b <-> exists bs, dict_get P A = Some bs /\ In b bs).
Proof.
  intros Hok. split; intros [bs [H1 H2]]; exists bs; split; auto.
  - now apply In_dict_get.
  - now apply dict_get_In.
Qed.

(** ** Candidates of step 1 *)

Lemma enumerate_nth {A : Type} (l : list A) (k i : nat) (x : A) :
  In (i, x) (combine (seq k (length l)) l) -> k <= i /\ nth_error l (i - k) = Some x.
Proof.
  revert k. induction l as [|y l IH]; intros k; simpl; [intros []|].
  intros [H|H].
  - inversion H; subst. rewrite Nat.sub_diag. split; [lia | reflexivity].
  - apply IH in H. destruct H as [Hle Hn]. split; [lia|].
    replace (i - k) with (S (i - S k)) by lia. exact Hn.
Qed.

Lemma positions_nullable (nullable : list symbol) (b : body) (p : nat) :
  In p (positions nullable b) ->
  exists s, nth_error b p = Some s /\ In s nullable.
Proof.
  unfold positions, enumerate. rewrite in_map_iff.
  intros [[i s] [Hi Hin]]. simpl in Hi. subst i.
  apply filter_In in Hin. destruct Hin as [Hin Hm]. simpl in Hm.
  apply enumerate_nth in Hin. destruct Hin as [_ Hn].
  rewrite Nat.sub_0_r in Hn. exists s. split; [assumption | now apply mem_In].
Qed.

Lemma list_set_entry_ok (nullable : list symbol) (nb : list (option symbol))
    (b : body) (p : nat) :
  Forall2 (entry_ok nullable) nb b ->
  (exists s, nth_error b p = Some s /\ In s nullable) ->
  Forall2 (entry_ok nullable) (list_set nb p None) b.
Proof.
  intros H. revert p. induction H as [|o s nb b Hos H IH]; intros p [s0 [Hn Hs0]].
  - constructor.
  - destruct p as [|p]; simpl in *.
    + inversion Hn; subst. constructor; [right; auto | assumption].
    + constructor; [assumption|]. apply IH. now exists s0.
Qed.

Lemma mark_deleted_entry_ok (nullable : list symbol) (mask : nat) (b : body) :
  Forall2 (entry_ok nullable)
          (mark_deleted mask (positions nullable b) (map Some b)) b.
Proof.
  unfold mark_deleted.
  set (pos := positions nullable b).
  assert (Hinit : Forall2 (entry_ok nullable) (map Some b) b).
  { induction b; simpl; constructor; [now left | assumption]. }
  assert (Hjs : forall j, In j (seq 0 (length pos)) -> j < length pos).
  { intros j Hj. apply in_seq in Hj. lia. }
  revert Hinit Hjs. generalize (map Some b). generalize (seq 0 (length pos)).
  intros js. induction js as [|j js IH]; intros nb Hnb Hjs; simpl; [assumption|].
  apply IH; [|intros j' Hj'; apply Hjs; now right].
  destruct (negb (Nat.eqb (Nat.land (Nat.shiftr mask j) 1) 0)); [|assumption].
  apply list_set_entry_ok; [assumption|].
  apply positions_nullable. apply nth_In. apply Hjs. now left.
Qed.

Lemma compact_entry_ok (nullable : list symbol) (nb : list (option symbol)) (b : body) :
  Forall2 (entry_ok nullable) nb b ->
  incl (compact nb) b /\
  (compact nb = [] -> Forall (fun s => In s nullable) b).
Proof.
  induction 1 as [|o s nb b Hos H [IH1 IH2]]; simpl.
  - split; [apply incl_refl | constructor].
  - destruct Hos as [-> | [-> Hs]]; simpl.
    + split; [|discriminate].
      intros x [<-|Hx]; [now left | right; now apply IH1].
    + split; [intros x Hx; right; now apply IH1|].
      intros Hc. constructor; [assumption | now apply IH2].
Qed.

Lemma candidate_spec (nullable : list symbol) (mask : nat) (b : body) :
  incl (candidate mask (positions nullable b) b) b /\
  (candidate mask (positions nullable b) b = [] ->
   Forall (fun s => In s nullable) b).
Proof.
  unfold candidate. apply compact_entry_ok, mark_deleted_entry_ok.
Qed.

(** Everything inserted for a body is made of its symbols; an empty
    insertion means that the whole body is nullable, and it is only made
    for the start symbol or by an empty body. *)
Lemma body_insertions_spec (nullable : list symbol) (is_start : bool) (b c : body) :
  In c (body_insertions nullable is_start b) ->
  incl c b /\
  (c = [] -> Forall (fun s => In s nullable) b) /\
  (c = [] -> is_start = true \/ b = []).
Proof.
  unfold body_insertions. rewrite in_app_iff. intros [H|[<-|[]]].
  - apply filter_In in H. destruct H as [H Hk].
    apply in_map_iff in H. destruct H as [mask [<- _]].
    destruct (candidate_spec nullable mask b) as [H1 H2].
    repeat split; auto.
    intros Hc. rewrite Hc in Hk. simpl in Hk. now left.
  - repeat split; [apply incl_refl | intros ->; constructor | now right].
Qed.

Lemma body_insertions_self (nullable : list symbol) (is_start : bool) (b : body) :
  In b (body_insertions nullable is_start b).
Proof. unfold body_insertions. apply in_or_app. right. now left. Qed.

(** ** remove_epsilon_rules, step by step *)

Lemma remove_first_empty_In (bs : list body) (c : body) :
  In c (remove_first_empty bs) -> In c bs.
Proof.
  induction bs as [|b bs IH]; simpl; [auto|].
  destruct (is_empty b); [now right|]. intros [H|H]; [now left | right; auto].
Qed.

Lemma remove_first_empty_keeps (bs : list body) (c : body) :
  c <> [] -> In c bs -> In c (remove_first_empty bs).
Proof.
  intros Hc. induction bs as [|b bs IH]; simpl; [auto|].
  destruct (is_empty b) eqn:He.
  - apply is_empty_nil in He. subst. intros [H|H]; [congruence | assumption].
  - intros [H|H]; [now left | right; auto].
Qed.

Lemma remove_first_empty_NoDup (bs : list body) :
  NoDup bs -> ~ In [] (remove_first_empty bs) /\ NoDup (remove_first_empty bs).
Proof.
  induction 1 as [|b bs Hb Hnd [IH1 IH2]]; simpl.
  - split; [intros [] | constructor].
  - destruct (is_empty b) eqn:He.
    + apply is_empty_nil in He. subst. split; assumption.
    + split.
      * intros [H|H]; [subst; discriminate | contradiction].
      * constructor; [|assumption]. intros H. apply Hb.
        now apply remove_first_empty_In.
Qed.

Lemma s_in_rhs_spec (start : symbol) (np : dict (list body)) :
  s_in_rhs start np = true <-> occurs_in_rhs np start.
Proof.
  unfold s_in_rhs, occurs_in_rhs, produces. rewrite existsb_exists. split.
  - intros [[h bs] [Hin Hex]]. simpl in Hex. apply existsb_exists in Hex.
    destruct Hex as [b [Hb Hm]]. apply mem_In in Hm.
    exists h, b. split; [exists bs; auto | assumption].
  - intros [h [b [[bs [Hin Hb]] Hs]]]. exists (h, bs). split; [assumption|].
    simpl. apply existsb_exists. exists b. split; [assumption | now apply mem_In].
Qed.

Section RemoveEpsilonFacts.
Context {order : SetOrder}.

Lemma new_bodies_of_spec (nullable : list symbol) (start head : symbol)
    (bodies : list body) (c : body) :
  In c (new_bodies_of nullable start head bodies) ->
  (exists b, In b bodies /\ incl c b /\
             (c = [] -> Forall (fun s => In s nullable) b)) /\
  (c = [] -> head = start).
Proof.
  unfold new_bodies_of.
  assert (Hins : forall c,
    In c (flat_map (body_insertions nullable (String.eqb head start)) bodies) ->
    exists b, In b bodies /\ incl c b /\
              (c = [] -> Forall (fun s => In s nullable) b)).
  { intros c0 H. apply in_flat_map in H. destruct H as [b [Hb Hc]].
    apply body_insertions_spec in Hc. destruct Hc as [H1 [H2 _]].
    exists b. auto. }
  destruct (String.eqb head start) eqn:He; simpl.
  - apply String.eqb_eq in He. rewrite set_iter_In. intros H. split; auto.
  - rewrite set_iter_In, filter_In, set_iter_In. intros [H Ht]. split; auto.
    intros ->. discriminate Ht.
Qed.

Lemma new_bodies_of_NoDup (nullable : list symbol) (start head : symbol)
    (bodies : list body) :
  NoDup (new_bodies_of nullable start head bodies).
Proof.
  unfold new_bodies_of.
  destruct (negb (String.eqb head start)); apply set_iter_NoDup.
Qed.

(** On a dictionary, the loop of step 1 rewrites each entry in place. *)
Lemma step1_eq (nullable : list symbol) (start : symbol) (P : dict (list body)) :
  dict_ok P ->
  step1 nullable start P =
  map (fun hb => (fst hb, new_bodies_of nullable start (fst hb) (snd hb))) P.
Proof.
  unfold step1. set (g := fun hb : symbol * list body =>
    (fst hb, new_bodies_of nullable start (fst hb) (snd hb))).
  intros Hok.
  assert (Hgen : forall l acc,
    NoDup (keys acc ++ keys l) ->
    fold_left (fun np hb => dict_set np (fst hb)
                 (new_bodies_of nullable start (fst hb) (snd hb))) l acc
    = acc ++ map g l).
  { induction l as [|[h bs] l IH]; intros acc Hnd; simpl.
    - now rewrite app_nil_r.
    - assert (Hfresh : ~ In h (keys acc)).
      { intros Hin. apply NoDup_remove_2 in Hnd. apply Hnd.
        apply in_or_app. now left. }
      rewrite dict_set_fresh by assumption.
      rewrite IH.
      + rewrite <- app_assoc. reflexivity.
      + unfold keys in *. rewrite map_app. simpl in *.
        rewrite <- app_assoc. exact Hnd. }
  apply (Hgen P []). exact Hok.
Qed.

Lemma step1_keys (nullable : list symbol) (start : symbol) (P : dict (list body)) :
  dict_ok P -> keys (step1 nullable start P) = keys P.
Proof.
  intros Hok. rewrite step1_eq by assumption. unfold keys.
  rewrite map_map. reflexivity.
Qed.

Lemma step1_In (nullable : list symbol) (start : symbol) (P : dict (list body))
    (A : symbol) (cs : list body) :
  dict_ok P ->
  In (A, cs) (step1 nullable start P) ->
  exists bs, In (A, bs) P /\ cs = new_bodies_of nullable start A bs.
Proof.
  intros Hok. rewrite step1_eq by assumption. rewrite in_map_iff.
  intros [[h bs] [Heq Hin]]. simpl in Heq. inversion Heq; subst.
  exists bs. auto.
Qed.
End RemoveEpsilonFacts.

Lemma dict_set_get_id (V : Type) (d : dict V) (k : symbol) (v : V) :
  dict_get d k = Some v -> dict_set d k v = d.
Proof.
  induction d as [|[k0 v0] d IH]; simpl; [discriminate|].
  destruct (String.eqb k0 k) eqn:He.
  - intros H. inversion H; subst. reflexivity.
  - intros H. now rewrite IH.
Qed.

Lemma produces_dict_set (P : dict (list body)) (k : symbol) (bs : list body)
    (A : symbol) (c : body) :
  dict_ok P ->
  (produces (dict_set P k bs) A c <->
   (A = k /\ In c bs) \/ (A <> k /\ produces P A c)).
Proof.
  intros Hok.
  rewrite (@produces_dict_get (dict_set P k bs)) by now apply dict_set_ok.
  rewrite (@produces_dict_get P) by assumption.
  destruct (string_dec k A) as [->|Hne].
  - rewrite dict_get_set_same. split.
    + intros [bs' [H1 H2]]. inversion H1; subst. now left.
    + intros [[_ H]|[H _]]; [eauto | congruence].
  - rewrite dict_get_set_other by assumption. split.
    + intros H. right. split; [congruence | assumption].
    + intros [[H _]|[_ H]]; [congruence | assumption].
Qed.

Lemma step3_spec (nullable : list symbol) (start : symbol)
    (np : dict (list body)) (bs : list body) :
  dict_get np start = Some bs -> NoDup bs ->
  (In [] bs -> In start nullable) ->
  exists bs',
    step3 nullable start np = Ok (dict_set np start bs') /\
    (forall c, c <> [] -> (In c bs' <-> In c bs)) /\
    (In [] bs' <-> In start nullable /\ ~ occurs_in_rhs np start) /\
    NoDup bs'.
Proof.
  intros Hget Hnd Hnul. unfold step3, dict_item. rewrite Hget. simpl.
  pose proof (s_in_rhs_spec start np) as Hspec.
  destruct (s_in_rhs start np) eqn:Hs.
  - assert (Hocc : occurs_in_rhs np start) by now apply Hspec.
    exists (remove_first_empty bs).
    destruct (remove_first_empty_NoDup Hnd) as [Hno Hnd'].
    split; [|split; [|split]].
    + destruct (has_empty bs) eqn:He; [reflexivity|].
      f_equal. symmetry. apply dict_set_get_id. rewrite Hget. f_equal.
      clear -He. induction bs as [|b bs IH]; simpl in *; [reflexivity|].
      apply orb_false_iff in He. destruct He as [He1 He2].
      rewrite He1. f_equal. apply IH. exact He2.
    + intros c Hc. split; [apply remove_first_empty_In | now apply remove_first_empty_keeps].
    + split; [contradiction | intros [_ H]; contradiction].
    + assumption.
  - assert (Hocc : ~ occurs_in_rhs np start).
    { intros H. apply Hspec in H. discriminate. }
    destruct (mem start nullable) eqn:Hm.
    + apply mem_In in Hm. destruct (has_empty bs) eqn:He; simpl.
      * exists bs. split; [|split; [|split]]; auto.
        -- f_equal. symmetry. now apply dict_set_get_id.
        -- tauto.
        -- apply has_empty_In in He. tauto.
      * exists (bs ++ [[]]). split; [reflexivity|]. split; [|split].
        -- intros c Hc. rewrite in_app_iff. simpl. split; [|tauto].
           intros [H|[H|[]]]; [assumption | congruence].
        -- split; [tauto|].
           intros _. apply in_or_app. right. now left.
        -- apply NoDup_app_remove_l with (l := []). simpl.
           apply Permutation_NoDup with (l := [] :: bs);
             [apply Permutation_cons_append|].
           constructor; [|assumption]. intros H. apply has_empty_In in H. congruence.
    + exists bs. split; [|split; [|split]]; auto.
      * f_equal. symmetry. now apply dict_set_get_id.
      * tauto.
      * apply mem_false in Hm. tauto.
Qed.

(** ** remove_epsilon_rules: the grammar returned *)

Section RemoveEpsilonSpec.
Context {order : SetOrder}.

Lemma step1_produces (nullable : list symbol) (start : symbol)
    (P : dict (list body)) (A : symbol) (c : body) :
  dict_ok P ->
  produces (step1 nullable start P) A c ->
  (exists b, produces P A b /\ incl c b /\
             (c = [] -> Forall (fun s => In s nullable) b)) /\
  (c = [] -> A = start).
Proof.
  intros Hok [cs [Hin Hc]].
  apply step1_In in Hin; [|assumption]. destruct Hin as [bs [Hin ->]].
  apply new_bodies_of_spec in Hc. destruct Hc as [[b [Hb [H1 H2]]] H3].
  split; [|assumption]. exists b. split; [exists bs; auto | auto].
Qed.

(** The grammar returned by [remove_epsilon_rules]: the bodies of step 1,
    except that the empty body is kept or added exactly for a nullable
    start symbol that occurs in no body. *)
Lemma remove_epsilon_rules_spec (cfg : CFG.t) :
  dict_ok (CFG.P cfg) -> In (CFG.S cfg) (keys (CFG.P cfg)) ->
  let np := step1 (find_nullable cfg) (CFG.S cfg) (CFG.P cfg) in
  exists P',
    remove_epsilon_rules cfg =
      Ok (CFG.mk (CFG.N cfg) (CFG.Sigma cfg) P' (CFG.S cfg)) /\
    keys P' = keys (CFG.P cfg) /\ dict_ok P' /\
    (forall A c, c <> [] -> (produces P' A c <-> produces np A c)) /\
    (forall A, produces P' A [] <->
               A = CFG.S cfg /\ In (CFG.S cfg) (find_nullable cfg) /\
               ~ occurs_in_rhs np (CFG.S cfg)) /\
    (forall A bs, dict_get P' A = Some bs -> NoDup bs).
Proof.
  intros Hok Hstart np.
  assert (Hk : keys np = keys (CFG.P cfg)) by now apply step1_keys.
  assert (Hoknp : dict_ok np) by (unfold dict_ok; now rewrite Hk).
  assert (Hget : exists bs, dict_get np (CFG.S cfg) = Some bs).
  { apply dict_get_keys. now rewrite Hk. }
  destruct Hget as [bs Hget].
  pose proof (dict_get_In _ _ Hget) as Hin.
  pose proof Hin as Hin'. apply step1_In in Hin'; [|assumption].
  destruct Hin' as [bodies [HinP Hbs]].
  assert (Hnd : NoDup bs) by (subst bs; apply new_bodies_of_NoDup).
  assert (Hnul : In [] bs -> In (CFG.S cfg) (find_nullable cfg)).
  { intros He. subst bs. apply new_bodies_of_spec in He.
    destruct He as [[b [Hb [_ Hall]]] _].
    apply (find_nullable_closed cfg) with (b := b); [exists bodies; auto | auto]. }
  destruct (@step3_spec (find_nullable cfg) _ _ _ Hget Hnd Hnul)
    as [bs' [Hs3 [Hne [Hnil Hnd']]]].
  exists (dict_set np (CFG.S cfg) bs').
  split; [|split; [|split; [|split; [|split]]]].
  - unfold remove_epsilon_rules. fold np. rewrite Hs3. reflexivity.
  - rewrite keys_dict_set_in; [assumption|]. now rewrite Hk.
  - now apply dict_set_ok.
  - intros A c Hc. rewrite produces_dict_set by assumption.
    split.
    + intros [[-> Hc']|[_ H]]; [|assumption].
      apply Hne in Hc'; [|assumption]. exists bs. auto.
    + intros H. destruct (string_dec A (CFG.S cfg)) as [->|Hneq].
      * left. split; [reflexivity|]. apply Hne; [assumption|].
        apply produces_dict_get in H; [|assumption].
        destruct H as [bs0 [H1 H2]].
        assert (Hbb : bs0 = bs) by congruence. now rewrite <- Hbb.
      * right. auto.
  - intros A. rewrite produces_dict_set by assumption. split.
    + intros [[-> H]|[Hneq H]].
      * apply Hnil in H. tauto.
      * exfalso. apply Hneq.
        apply step1_produces in H; [|assumption]. now apply H.
    + intros [-> H]. left. split; [reflexivity | now apply Hnil].
  - intros A cs Hg. destruct (string_dec (CFG.S cfg) A) as [<-|Hneq].
    + rewrite dict_get_set_same in Hg. now inversion Hg; subst.
    + rewrite dict_get_set_other in Hg by assumption.
      apply dict_get_In in Hg. apply step1_In in Hg; [|assumption].
      destruct Hg as [bs0 [_ ->]]. apply new_bodies_of_NoDup.
Qed.

(** With its start symbol among the heads, the call returns. *)
Lemma remove_epsilon_rules_total (cfg : CFG.t) :
  dict_ok (CFG.P cfg) -> In (CFG.S cfg) (keys (CFG.P cfg)) ->
  exists cfg', remove_epsilon_rules cfg = Ok cfg'.
Proof.
  intros H1 H2. destruct (remove_epsilon_rules_spec cfg H1 H2) as [P' [H _]].
  eauto.
Qed.

Lemma occurs_in_rhs_nonempty (P1 P2 : dict (list body)) (X : symbol) :
  (forall A c, c <> [] -> (produces P1 A c <-> produces P2 A c)) ->
  (occurs_in_rhs P1 X <-> occurs_in_rhs P2 X).
Proof.
  intros H. split; intros [A [c [Hp Hx]]]; exists A, c; split; auto;
    apply (H A c); auto; intros ->; destruct Hx.
Qed.
End RemoveEpsilonSpec.

Lemma well_formed_start_head (cfg : CFG.t) :
  well_formed cfg -> In (CFG.S cfg) (keys (CFG.P cfg)).
Proof. intros Hwf. apply (wf_entries Hwf), (wf_start Hwf). Qed.

(** ** eliminate_left_recursion: the loops *)

Lemma fromkeys_spec (xs : list symbol) :
  NoDup (fromkeys xs) /\ (forall x, In x (fromkeys xs) <-> In x xs).
Proof.
  unfold fromkeys.
  assert (H : forall l acc,
    NoDup acc ->
    NoDup (fold_left (fun acc k => if mem k acc then acc else acc ++ [k]) l acc) /\
    (forall x, In x (fold_left (fun acc k => if mem k acc then acc else acc ++ [k]) l acc)
               <-> In x acc \/ In x l)).
  { induction l as [|k l IH]; intros acc Hnd; simpl.
    - split; [assumption | intros x; tauto].
    - destruct (mem k acc) eqn:Hm.
      + apply mem_In in Hm. destruct (IH acc Hnd) as [H1 H2].
        split; [assumption|]. intros x. rewrite H2.
        split; [tauto|]. intros [H|[<-|H]]; auto.
      + apply mem_false in Hm.
        assert (Hnd' : NoDup (acc ++ [k])).
        { apply Permutation_NoDup with (l := k :: acc);
            [apply Permutation_cons_append | now constructor]. }
        destruct (IH (acc ++ [k]) Hnd') as [H1 H2].
        split; [assumption|]. intros x. rewrite H2, in_app_iff. simpl. tauto. }
  destruct (H xs [] (NoDup_nil _)) as [H1 H2].
  split; [assumption|]. intros x. rewrite H2. simpl. tauto.
Qed.

Lemma fromkeys_NoDup (xs : list symbol) : NoDup (fromkeys xs).
Proof. apply fromkeys_spec. Qed.

Lemma fromkeys_In (xs : list symbol) (x : symbol) : In x (fromkeys xs) <-> In x xs.
Proof. apply fromkeys_spec. Qed.

Lemma bind_Ok (A B : Type) (m : result A) (k : A -> result B) (b : B) :
  bind m k = Ok b -> exists a, m = Ok a /\ k a = Ok b.
Proof. destruct m as [a|e]; simpl; [eauto | discriminate]. Qed.

Lemma bind_Ok_intro (A B : Type) (m : result A) (k : A -> result B) (a : A) (b : B) :
  m = Ok a -> k a = Ok b -> bind m k = Ok b.
Proof. intros -> H. exact H. Qed.

Lemma dict_item_Ok (V : Type) (d : dict V) (k : symbol) (v : V) :
  dict_item d k = Ok v <-> dict_get d k = Some v.
Proof.
  unfold dict_item. destruct (dict_get d k); split; intros H; inversion H; reflexivity.
Qed.

(** One substitution pass: where each updated rule comes from. *)
Lemma substitute_Forall (Q Q' : body -> Prop) (np : dict (list body)) (B : symbol)
    (rules out : list body) :
  substitute np B rules = Ok out ->
  Forall Q rules ->
  (forall rule, Q rule -> begins_with B rule = false -> Q' rule) ->
  (forall rule betas beta,
     Q rule -> begins_with B rule = true ->
     dict_get np B = Some betas -> In beta betas -> Q' (beta ++ tl rule)) ->
  Forall Q' out.
Proof.
  intros Hsub Hall Hkeep Hexp. revert out Hsub.
  induction Hall as [|rule rules Hr Hrs IH]; intros out Hsub; simpl in Hsub.
  - inversion Hsub. constructor.
  - apply bind_Ok in Hsub. destruct Hsub as [rs [Hrule Hsub]].
    apply bind_Ok in Hsub. destruct Hsub as [rs' [Hrest Hsub]].
    inversion Hsub; subst out. apply Forall_app. split; [|now apply IH].
    unfold substitute_rule in Hrule.
    destruct (begins_with B rule) eqn:Hb.
    + apply bind_Ok in Hrule. destruct Hrule as [betas [Hget Hrule]].
      apply dict_item_Ok in Hget. inversion Hrule; subst rs.
      apply Forall_forall. intros r Hin. apply in_map_iff in Hin.
      destruct Hin as [beta [<- Hbeta]]. now apply Hexp with (betas := betas).
    + inversion Hrule; subst rs. constructor; [now apply Hkeep | constructor].
Qed.

(** All substitution passes, with a property [Q done] that may depend on
    the nonterminals substituted so far. *)
Lemma substitute_all_Forall (Q : list symbol -> body -> Prop)
    (np : dict (list body)) (earlier pre : list symbol) (rules out : list body) :
  substitute_all np earlier rules = Ok out ->
  Forall (Q pre) rules ->
  (forall done B suf rule,
     pre ++ earlier = done ++ B :: suf ->
     Q done rule -> begins_with B rule = false -> Q (done ++ [B]) rule) ->
  (forall done B suf rule betas beta,
     pre ++ earlier = done ++ B :: suf ->
     Q done rule -> begins_with B rule = true ->
     dict_get np B = Some betas -> In beta betas ->
     Q (done ++ [B]) (beta ++ tl rule)) ->
  Forall (Q (pre ++ earlier)) out.
Proof.
  revert pre rules out. induction earlier as [|B earlier IH];
    intros pre rules out Hsub Hall Hkeep Hexp; simpl in Hsub.
  - inversion Hsub; subst. now rewrite app_nil_r.
  - apply bind_Ok in Hsub. destruct Hsub as [updated [Hone Hsub]].
    replace (pre ++ B :: earlier) with ((pre ++ [B]) ++ earlier)
      by (rewrite <- app_assoc; reflexivity).
    apply IH with (rules := updated); [assumption| | |].
    + eapply substitute_Forall; [exact Hone | exact Hall | |].
      * intros rule Hq Hb. now apply Hkeep with (suf := earlier).
      * intros rule betas beta Hq Hb Hget Hin.
        now apply Hexp with (suf := earlier) (betas := betas).
    + intros done B' suf rule Heq. apply Hkeep with (suf := suf).
      rewrite <- Heq, <- app_assoc. reflexivity.
    + intros done B' suf rule betas beta Heq. apply Hexp with (suf := suf).
      rewrite <- Heq, <- app_assoc. reflexivity.
Qed.

(** What one iteration of the main loop does to the state. *)
Lemma process_Ok (P : dict (list body)) (ord : list symbol) (i : nat) (A : symbol)
    (np : dict (list body)) (nn : collection) (np' : dict (list body)) (nn' : collection) :
  process P ord i A (np, nn) = Ok (np', nn') ->
  exists rules current,
    dict_get P A = Some rules /\
    substitute_all np (firstn i ord) rules = Ok current /\
    ((filter (begins_with A) current <> [] /\
      coll_add nn (prime A) = Ok nn' /\
      np' = dict_set
              (dict_set np A
                 (map (fun b => b ++ [prime A])
                      (filter (fun r => negb (begins_with A r)) current)))
              (prime A)
              (map (fun a => tl a ++ [prime A]) (filter (begins_with A) current) ++ [[]]))
     \/
     (filter (begins_with A) current = [] /\ nn' = nn /\
      np' = dict_set np A current)).
Proof.
  unfold process. intros H.
  apply bind_Ok in H. destruct H as [rules [Hget H]].
  apply dict_item_Ok in Hget.
  apply bind_Ok in H. destruct H as [current [Hsub H]].
  exists rules, current. split; [assumption|]. split; [assumption|].
  destruct (truthy (filter (begins_with A) current)) eqn:Ht.
  - apply truthy_spec in Ht.
    apply bind_Ok in H. destruct H as [nn1 [Hadd H]].
    inversion H; subst. left. auto.
  - right. inversion H; subst.
    split; [|auto]. destruct (filter (begins_with A) current); [reflexivity|discriminate].
Qed.

Lemma skipn_cons_nth (A : Type) (l : list A) (i : nat) (x : A) (rest : list A) :
  skipn i l = x :: rest ->
  nth_error l i = Some x /\ skipn (S i) l = rest /\ firstn (S i) l = firstn i l ++ [x].
Proof.
  revert l. induction i as [|i IH]; intros l H.
  - destruct l; simpl in H; inversion H; subst. auto.
  - destruct l as [|y l]; simpl in H; [discriminate|].
    apply IH in H. destruct H as [H1 [H2 H3]].
    repeat split; auto. rewrite !firstn_cons, H3. reflexivity.
Qed.

(** Invariants of the main loop. *)
Lemma main_loop_invariant (Inv : nat -> dict (list body) * collection -> Prop)
    (P : dict (list body)) (ord : list symbol) :
  (forall i A st st',
     nth_error ord i = Some A -> firstn (S i) ord = firstn i ord ++ [A] ->
     Inv i st -> process P ord i A st = Ok st' -> Inv (S i) st') ->
  forall todo i st st',
    i <= length ord -> skipn i ord = todo ->
    Inv i st -> main_loop P ord i todo st = Ok st' ->
    Inv (length ord) st'.
Proof.
  intros Hstep. induction todo as [|A todo IH];
    intros i st st' Hle Hskip Hinv Hloop; simpl in Hloop.
  - inversion Hloop; subst st'.
    assert (Hl : length (skipn i ord) = length ord - i) by apply length_skipn.
    rewrite Hskip in Hl. simpl in Hl.
    replace (length ord) with i by lia. assumption.
  - apply bind_Ok in Hloop. destruct Hloop as [st1 [Hp Hloop]].
    apply skipn_cons_nth in Hskip. destruct Hskip as [Hn [Hs Hf]].
    assert (Hlt : i < length ord) by (apply nth_error_Some; congruence).
    apply (IH (S i) st1 st'); [lia | assumption | | assumption].
    now apply (Hstep i A st st1).
Qed.

Lemma initial_productions_keys (ord : list symbol) :
  keys (initial_productions ord) = ord.
Proof.
  unfold keys, initial_productions. rewrite map_map. simpl. apply map_id.
Qed.

Lemma initial_productions_get (ord : list symbol) (A : symbol) (bs : list body) :
  dict_get (initial_productions ord) A = Some bs -> bs = [].
Proof.
  intros H. apply dict_get_In in H. unfold initial_productions in H.
  apply in_map_iff in H. destruct H as [x [Hx _]]. now inversion Hx.
Qed.

Lemma eliminate_left_recursion_Ok (cfg cfg' : CFG.t) :
  eliminate_left_recursion cfg = Ok cfg' ->
  let ord := fromkeys (elements (CFG.N cfg)) in
  main_loop (CFG.P cfg) ord 0 ord (initial_productions ord, CFG.N cfg)
    = Ok (CFG.P cfg', CFG.N cfg') /\
  CFG.Sigma cfg' = CFG.Sigma cfg /\ CFG.S cfg' = CFG.S cfg.
Proof.
  unfold eliminate_left_recursion. intros H.
  apply bind_Ok in H. destruct H as [[np nn] [Hloop H]].
  inversion H; subst cfg'. simpl. auto.
Qed.

(** Any invariant of the iterations holds of the grammar returned. *)
Lemma eliminate_left_recursion_invariant
    (Inv : nat -> dict (list body) * collection -> Prop) (cfg cfg' : CFG.t) :
  let ord := fromkeys (elements (CFG.N cfg)) in
  Inv 0 (initial_productions ord, CFG.N cfg) ->
  (forall i A st st',
     nth_error ord i = Some A -> firstn (S i) ord = firstn i ord ++ [A] ->
     Inv i st -> process (CFG.P cfg) ord i A st = Ok st' -> Inv (S i) st') ->
  eliminate_left_recursion cfg = Ok cfg' ->
  Inv (length ord) (CFG.P cfg', CFG.N cfg').
Proof.
  intros ord H0 Hstep H.
  apply eliminate_left_recursion_Ok in H. destruct H as [Hloop _].
  eapply main_loop_invariant with (i := 0); try eassumption; [lia | reflexivity].
Qed.

Lemma coll_add_elements (c c' : collection) (x : symbol) :
  coll_add c x = Ok c' ->
  (forall y, In y (elements c') <-> y = x \/ In y (elements c)) /\
  (exists xs, c = PySet xs) /\ (exists xs', c' = PySet xs').
Proof.
  destruct c as [xs|xs]; simpl; [discriminate|].
  intros H. inversion H; subst c'. simpl. split; [|eauto].
  intros y. destruct (mem x xs) eqn:Hm.
  - apply mem_In in Hm. split; [tauto | intros [->|H']; assumption].
  - rewrite in_app_iff. simpl. split; [intros [H1|[H1|[]]]; auto | intros [->|H1]; auto].
Qed.

Lemma shape_initial (cfg : CFG.t) :
  shape cfg 0 (initial_productions (fromkeys (elements (CFG.N cfg))), CFG.N cfg).
Proof.
  unfold shape. rewrite initial_productions_keys.
  split; [|split; [|split; [|split; [|split; [|split]]]]]; eauto.
  unfold dict_ok. rewrite initial_productions_keys. apply fromkeys_NoDup.
Qed.

Lemma shape_step (cfg : CFG.t) (i : nat) (A : symbol)
    (st st' : dict (list body) * collection) :
  let ord := fromkeys (elements (CFG.N cfg)) in
  nth_error ord i = Some A -> firstn (S i) ord = firstn i ord ++ [A] ->
  shape cfg i st -> process (CFG.P cfg) ord i A st = Ok st' -> shape cfg (S i) st'.
Proof.
  intros ord Hn Hf Hsh Hp. destruct st as [np nn]. destruct st' as [np' nn'].
  unfold shape in *. fold ord in Hsh |- *.
  destruct Hsh as [Hok [Hkeys [Hkeys' [Hsub [Hnew [Hlist Hset]]]]]].
  assert (HA : In A ord) by (eapply nth_error_In; eassumption).
  assert (Hmono : forall x, In x (firstn i ord) -> In x (firstn (S i) ord)).
  { intros x Hx. rewrite Hf. apply in_or_app. now left. }
  assert (HAi : In A (firstn (S i) ord)).
  { rewrite Hf. apply in_or_app. right. now left. }
  apply process_Ok in Hp. destruct Hp as [rules [current [Hget [Hsubst Hcase]]]].
  destruct Hcase as [[Halpha [Hadd ->]] | [Halpha [-> ->]]].
  - apply coll_add_elements in Hadd. destruct Hadd as [Hel [[xs ->] [xs' Hnn']]].
    split; [now apply dict_set_ok, dict_set_ok|].
    split; [intros x Hx; rewrite !keys_dict_set; auto|].
    split; [|split; [|split; [|split]]].
    + intros x Hx. rewrite !keys_dict_set in Hx.
      destruct Hx as [->|[->|Hx]]; [|now left|].
      * right. exists A. repeat split; auto. apply Hel. now left.
      * destruct (Hkeys' x Hx) as [H|[B [HB [-> Hin]]]]; [now left|].
        right. exists B. repeat split; auto. apply Hel. now right.
    + intros x Hx. apply Hel. right. now apply Hsub.
    + intros x Hx. apply Hel in Hx. destruct Hx as [->|Hx].
      * right. exists A. repeat split; auto. rewrite !keys_dict_set. now left.
      * destruct (Hnew x Hx) as [H|[B [HB [-> Hin]]]]; [now left|].
        right. exists B. repeat split; auto. rewrite !keys_dict_set. auto.
    + intros ys Hys. specialize (Hlist ys Hys). rewrite <- Hlist in Hys. discriminate.
    + intros ys Hys. eauto.
  - split; [now apply dict_set_ok|].
    split; [intros x Hx; rewrite keys_dict_set; auto|].
    split; [|split; [|split; [|split]]]; auto.
    + intros x Hx. rewrite keys_dict_set in Hx. destruct Hx as [->|Hx]; [now left|].
      destruct (Hkeys' x Hx) as [H|[B [HB [-> Hin]]]]; [now left|].
      right. exists B. auto.
    + intros x Hx. destruct (Hnew x Hx) as [H|[B [HB [-> Hin]]]]; [now left|].
      right. exists B. repeat split; auto. rewrite keys_dict_set. auto.
Qed.

Lemma eliminate_left_recursion_shape (cfg cfg' : CFG.t) :
  eliminate_left_recursion cfg = Ok cfg' ->
  shape cfg (length (fromkeys (elements (CFG.N cfg)))) (CFG.P cfg', CFG.N cfg').
Proof.
  apply eliminate_left_recursion_invariant with (Inv := shape cfg).
  - apply shape_initial.
  - intros i A st st'. apply shape_step.
Qed.

(** ** eliminate_left_recursion returns on a set of nonterminals *)

Lemma firstn_incl (A : Type) (n : nat) (l : list A) (x : A) :
  In x (firstn n l) -> In x l.
Proof.
  intros H. rewrite <- (firstn_skipn n l). apply in_or_app. now left.
Qed.

Lemma substitute_total (np : dict (list body)) (B : symbol) (rules : list body) :
  In B (keys np) -> exists out, substitute np B rules = Ok out.
Proof.
  intros HB. apply dict_get_keys in HB. destruct HB as [betas Hget].
  induction rules as [|rule rules [out IH]]; simpl; [eauto|].
  unfold substitute_rule, dict_item. rewrite Hget, IH.
  destruct (begins_with B rule); simpl; eauto.
Qed.

Lemma substitute_all_total (np : dict (list body)) (earlier : list symbol)
    (rules : list body) :
  (forall B, In B earlier -> In B (keys np)) ->
  exists out, substitute_all np earlier rules = Ok out.
Proof.
  revert rules. induction earlier as [|B earlier IH]; intros rules HB; simpl; [eauto|].
  destruct (@substitute_total np B rules) as [out Hout]; [apply HB; now left|].
  rewrite Hout. simpl. apply IH. intros B' HB'. apply HB. now right.
Qed.

Lemma process_total (P : dict (list body)) (ord : list symbol) (i : nat) (A : symbol)
    (np : dict (list body)) (xs : list symbol) :
  In A (keys P) -> (forall B, In B ord -> In B (keys np)) ->
  exists np' xs',
    process P ord i A (np, PySet xs) = Ok (np', PySet xs') /\
    (forall B, In B ord -> In B (keys np')).
Proof.
  intros HA Hkeys. unfold process, dict_item.
  apply dict_get_keys in HA. destruct HA as [rules ->]. simpl.
  destruct (@substitute_all_total np (firstn i ord) rules) as [current ->].
  { intros B HB. apply Hkeys. eapply firstn_incl; eassumption. }
  simpl. destruct (truthy (filter (begins_with A) current)); simpl.
  - eexists _, _. split; [reflexivity|].
    intros B HB. rewrite !keys_dict_set. auto.
  - eexists _, _. split; [reflexivity|].
    intros B HB. rewrite keys_dict_set. auto.
Qed.

Lemma main_loop_total (P : dict (list body)) (ord todo : list symbol) :
  (forall A, In A todo -> In A (keys P)) ->
  forall i np xs,
    (forall B, In B ord -> In B (keys np)) ->
    exists st', main_loop P ord i todo (np, PySet xs) = Ok st'.
Proof.
  induction todo as [|A todo IH]; intros HP i np xs Hkeys; cbn [main_loop]; [eauto|].
  destruct (@process_total P ord i A np xs) as [np' [xs' [Hp Hkeys']]];
    [apply HP; now left | assumption |].
  rewrite Hp. cbn [bind]. apply IH; [|assumption].
  intros B HB. apply HP. now right.
Qed.

(** With a set for [cfg.N] and an entry for each of its elements, the call
    returns a grammar. *)
Lemma eliminate_left_recursion_set_total (cfg : CFG.t) (xs : list symbol) :
  CFG.N cfg = PySet xs ->
  (forall A, In A xs -> In A (keys (CFG.P cfg))) ->
  exists cfg', eliminate_left_recursion cfg = Ok cfg'.
Proof.
  intros HN HP. unfold eliminate_left_recursion. rewrite HN.
  cbv zeta. cbn [elements].
  destruct (@main_loop_total (CFG.P cfg) (fromkeys xs) (fromkeys xs)) with
    (i := 0) (np := map (fun nt => (nt, @nil body)) (fromkeys xs)) (xs := xs)
    as [st' Hst].
  - intros A HA. apply HP. now apply fromkeys_In.
  - intros B HB. fold (initial_productions (fromkeys xs)).
    now rewrite initial_productions_keys.
  - eexists. eapply bind_Ok_intro; [exact Hst | reflexivity].
Qed.

(** ** Symbols of the bodies *)

Lemma In_tl (A : Type) (l : list A) (x : A) : In x (tl l) -> In x l.
Proof. destruct l; simpl; auto. Qed.

Lemma symbols_step (cfg : CFG.t) (i : nat) (A : symbol)
    (st st' : dict (list body) * collection) :
  let ord := fromkeys (elements (CFG.N cfg)) in
  symbols_closed cfg ->
  nth_error ord i = Some A -> firstn (S i) ord = firstn i ord ++ [A] ->
  symbols_inv cfg i st -> process (CFG.P cfg) ord i A st = Ok st' ->
  symbols_inv cfg (S i) st'.
Proof.
  intros ord Hcl Hn Hf [Hsh Hsym] Hp.
  split; [eapply shape_step; eassumption|].
  destruct st as [np nn]. destruct st' as [np' nn']. cbn [fst snd] in *.
  destruct Hsh as [Hok [_ [_ [Hsub _]]]].
  apply process_Ok in Hp. destruct Hp as [rules [current [Hget [Hsubst Hcase]]]].
  assert (Hcur : Forall (symbols_in (CFG.Sigma cfg) nn) current).
  { apply (@substitute_all_Forall (fun _ => symbols_in (CFG.Sigma cfg) nn)
             np (firstn i ord) [] rules current); [assumption| | |].
    - apply Forall_forall. intros rule Hr s Hs.
      destruct (Hcl A rule s) as [H|H]; auto.
      exists rules. split; [now apply dict_get_In | assumption].
    - auto.
    - intros done B suf rule betas beta _ Hq _ Hgb Hbeta s Hs.
      apply in_app_or in Hs. destruct Hs as [Hs|Hs].
      + apply (Hsym B beta); [|assumption].
        exists betas. split; [now apply dict_get_In | assumption].
      + apply Hq. now apply In_tl. }
  rewrite Forall_forall in Hcur.
  destruct Hcase as [[Halpha [Hadd ->]] | [Halpha [-> ->]]].
  - apply coll_add_elements in Hadd. destruct Hadd as [Hel _].
    assert (Hmono : forall b, symbols_in (CFG.Sigma cfg) nn b ->
                              symbols_in (CFG.Sigma cfg) nn' b).
    { intros b Hb s Hs. destruct (Hb s Hs) as [H|H]; [now left|].
      right. apply Hel. now right. }
    intros H b Hprod.
    apply produces_dict_set in Hprod; [|now apply dict_set_ok].
    destruct Hprod as [[-> Hb]|[Hne Hprod]].
    + apply in_app_or in Hb. destruct Hb as [Hb|[<-|[]]]; [|intros s []].
      apply in_map_iff in Hb. destruct Hb as [a [<- Ha]].
      apply filter_In in Ha. destruct Ha as [Ha _].
      intros s Hs. apply in_app_or in Hs. destruct Hs as [Hs|[<-|[]]].
      * apply Hmono with (b := a); [now apply Hcur | now apply In_tl].
      * right. apply Hel. now left.
    + apply produces_dict_set in Hprod; [|assumption].
      destruct Hprod as [[-> Hb]|[Hne' Hprod]].
      * apply in_map_iff in Hb. destruct Hb as [b0 [<- Hb0]].
        apply filter_In in Hb0. destruct Hb0 as [Hb0 _].
        intros s Hs. apply in_app_or in Hs. destruct Hs as [Hs|[<-|[]]].
        -- apply Hmono with (b := b0); [now apply Hcur | assumption].
        -- right. apply Hel. now left.
      * apply Hmono. now apply (Hsym H b).
  - intros H b Hprod. apply produces_dict_set in Hprod; [|assumption].
    destruct Hprod as [[-> Hb]|[Hne Hprod]]; [now apply Hcur | now apply (Hsym H b)].
Qed.

(** [eliminate_left_recursion] keeps the bodies within the terminals and
    the nonterminals of its result. *)
Lemma eliminate_left_recursion_symbols (cfg cfg' : CFG.t) :
  symbols_closed cfg ->
  eliminate_left_recursion cfg = Ok cfg' ->
  symbols_closed cfg'.
Proof.
  intros Hcl H.
  pose proof H as H0. apply eliminate_left_recursion_Ok in H0.
  destruct H0 as [_ [HSig _]].
  apply eliminate_left_recursion_invariant with (Inv := symbols_inv cfg) in H.
  - destruct H as [_ H]. simpl in H. intros A b s Hp Hs.
    rewrite HSig. now apply (H A b).
  - split; [apply shape_initial|]. simpl. intros A b [bs [Hin Hb]].
    apply in_map_iff in Hin. destruct Hin as [x [Hx _]].
    inversion Hx; subst. destruct Hb.
  - intros i A st st'. now apply symbols_step.
Qed.

(** ** Empty bodies through eliminate_left_recursion *)

Lemma count_empty_app (l1 l2 : list body) :
  count_empty (l1 ++ l2) = count_empty l1 + count_empty l2.
Proof. unfold count_empty. now rewrite filter_app, length_app. Qed.

Lemma count_empty_zero (l : list body) :
  (forall b, In b l -> b <> []) -> count_empty l = 0.
Proof.
  unfold count_empty. induction l as [|b l IH]; intros H; simpl; [reflexivity|].
  destruct b as [|s b]; simpl.
  - exfalso. apply (H []); [now left | reflexivity].
  - apply IH. intros b' Hb'. apply H. now right.
Qed.

Lemma count_empty_In (l : list body) : In [] l <-> 0 < count_empty l.
Proof.
  unfold count_empty. induction l as [|b l IH]; simpl.
  - split; [intros [] | lia].
  - destruct b as [|s b]; simpl.
    + split; [lia | auto].
    + rewrite <- IH. split; [intros [H|H]; [discriminate | assumption] | auto].
Qed.

Lemma count_empty_NoDup (l : list body) : NoDup l -> count_empty l <= 1.
Proof.
  induction 1 as [|b l Hb Hnd IH]; simpl; [unfold count_empty; simpl; lia|].
  unfold count_empty in *. simpl. destruct b as [|s b]; simpl; [|assumption].
  assert (H0 : count_empty l = 0).
  { destruct (count_empty l) eqn:Hc; [reflexivity|].
    exfalso. apply Hb. apply count_empty_In. lia. }
  unfold count_empty in H0. lia.
Qed.

Lemma begins_with_cons (B : symbol) (rule : body) :
  begins_with B rule = true -> rule = B :: tl rule.
Proof.
  destruct rule as [|s rule]; simpl; [discriminate|].
  intros H. apply String.eqb_eq in H. now subst.
Qed.

Lemma substitute_count (np : dict (list body)) (B : symbol) (rules out : list body) :
  substitute np B rules = Ok out ->
  (forall rule betas beta,
     In rule rules -> begins_with B rule = true ->
     dict_get np B = Some betas -> In beta betas -> beta ++ tl rule <> []) ->
  count_empty out = count_empty rules.
Proof.
  revert out. induction rules as [|rule rules IH]; intros out Hsub Hne; simpl in Hsub.
  - now inversion Hsub.
  - apply bind_Ok in Hsub. destruct Hsub as [rs [Hrule Hsub]].
    apply bind_Ok in Hsub. destruct Hsub as [rs' [Hrest Hsub]].
    inversion Hsub; subst out. rewrite count_empty_app.
    rewrite (IH rs' Hrest) by (intros r bs b Hr; apply Hne; now right).
    change (rule :: rules) with ([rule] ++ rules). rewrite count_empty_app.
    f_equal. unfold substitute_rule in Hrule.
    destruct (begins_with B rule) eqn:Hb.
    + apply bind_Ok in Hrule. destruct Hrule as [betas [Hget Hrule]].
      apply dict_item_Ok in Hget. inversion Hrule; subst rs.
      rewrite count_empty_zero.
      * apply begins_with_cons in Hb. rewrite Hb. reflexivity.
      * intros b Hin. apply in_map_iff in Hin. destruct Hin as [beta [<- Hbeta]].
        apply Hne with (betas := betas); auto. now left.
    + now inversion Hrule.
Qed.

Lemma substitute_all_count (Q : list symbol -> body -> Prop)
    (np : dict (list body)) (earlier pre : list symbol) (rules out : list body) :
  substitute_all np earlier rules = Ok out ->
  Forall (Q pre) rules ->
  (forall done B suf rule,
     pre ++ earlier = done ++ B :: suf ->
     Q done rule -> begins_with B rule = false -> Q (done ++ [B]) rule) ->
  (forall done B suf rule betas beta,
     pre ++ earlier = done ++ B :: suf ->
     Q done rule -> begins_with B rule = true ->
     dict_get np B = Some betas -> In beta betas ->
     Q (done ++ [B]) (beta ++ tl rule) /\ beta ++ tl rule <> []) ->
  count_empty out = count_empty rules.
Proof.
  revert pre rules out. induction earlier as [|B earlier IH];
    intros pre rules out Hsub Hall Hkeep Hexp; simpl in Hsub.
  - now inversion Hsub.
  - apply bind_Ok in Hsub. destruct Hsub as [updated [Hone Hsub]].
    transitivity (count_empty updated).
    + apply (IH (pre ++ [B]) updated out Hsub).
      * eapply substitute_Forall; [exact Hone | exact Hall | |].
        -- intros rule Hq Hb. now apply Hkeep with (suf := earlier).
        -- intros rule betas beta Hq Hb Hget Hin.
           now apply (Hexp pre B earlier rule betas beta).
      * intros done B' suf rule Heq. apply Hkeep with (suf := suf).
        rewrite <- Heq, <- app_assoc. reflexivity.
      * intros done B' suf rule betas beta Heq. apply Hexp with (suf := suf).
        rewrite <- Heq, <- app_assoc. reflexivity.
    + eapply substitute_count; [exact Hone|].
      intros rule betas beta Hr Hb Hget Hin.
      rewrite Forall_forall in Hall.
      now apply (Hexp pre B earlier rule betas beta eq_refl (Hall rule Hr)).
Qed.

Lemma count_empty_map_app (l : list body) (f : body -> body) (x : symbol) :
  count_empty (map (fun b => f b ++ [x]) l) = 0.
Proof.
  apply count_empty_zero. intros b Hb. apply in_map_iff in Hb.
  destruct Hb as [a [<- _]]. destruct (f a); discriminate.
Qed.

Lemma eps_step (cfg : CFG.t) (i : nat) (A : symbol)
    (st st' : dict (list body) * collection) :
  let ord := fromkeys (elements (CFG.N cfg)) in
  start_only_eps cfg -> primes_fresh cfg -> In (CFG.S cfg) (elements (CFG.N cfg)) ->
  nth_error ord i = Some A -> firstn (S i) ord = firstn i ord ++ [A] ->
  eps_inv cfg i st -> process (CFG.P cfg) ord i A st = Ok st' ->
  eps_inv cfg (S i) st'.
Proof.
  intros ord Hsoe Hfresh Hstart Hn Hf [Hsh [Hrules Hcount]] Hp.
  split; [eapply shape_step; eassumption|].
  destruct st as [np nn]. destruct st' as [np' nn']. cbn [fst snd] in *.
  destruct Hsh as [Hok _].
  assert (HA : In A (elements (CFG.N cfg))).
  { apply fromkeys_In. eapply nth_error_In; eassumption. }
  assert (HAS : prime A <> CFG.S cfg).
  { intros Heq. apply (Hfresh A HA). now rewrite Heq. }
  apply process_Ok in Hp. destruct Hp as [rules [current [Hget [Hsubst Hcase]]]].
  assert (Hinit : Forall (rule_ok cfg A) rules).
  { apply Forall_forall. intros rule Hr.
    assert (Hpr : produces (CFG.P cfg) A rule).
    { exists rules. split; [now apply dict_get_In | assumption]. }
    split.
    - intros ->. pose proof (soe_heads Hsoe Hpr) as HAeq. split; [assumption|].
      now rewrite <- HAeq.
    - intros HE Hin. apply (soe_rhs Hsoe HE). exists A, rule. auto. }
  assert (Hexp : forall done B suf rule betas beta,
    [] ++ firstn i ord = done ++ B :: suf ->
    rule_ok cfg A rule -> begins_with B rule = true ->
    dict_get np B = Some betas -> In beta betas ->
    rule_ok cfg A (beta ++ tl rule) /\ beta ++ tl rule <> []).
  { intros done B suf rule betas beta Heq [Hq1 Hq2] Hb Hgb Hbeta.
    assert (HB : In B (elements (CFG.N cfg))).
    { apply fromkeys_In. apply firstn_incl with (n := i). simpl in Heq.
      fold ord. rewrite Heq. apply in_or_app. right. now left. }
    destruct (Hrules B beta HB) as [Hb1 Hb2].
    { exists betas. split; [now apply dict_get_In | assumption]. }
    apply begins_with_cons in Hb.
    assert (Hne : beta ++ tl rule <> []).
    { intros Hnil. apply app_eq_nil in Hnil. destruct Hnil as [Hbn Htn].
      destruct (Hb1 Hbn) as [HBS HE]. apply (Hq2 HE).
      rewrite Hb, HBS. now left. }
    split; [|assumption]. split; [intros Hnil; contradiction|].
    intros HE Hin. apply in_app_or in Hin. destruct Hin as [Hin|Hin].
    - now apply (Hb2 HE).
    - apply (Hq2 HE). now apply In_tl. }
  assert (Hcur : Forall (rule_ok cfg A) current).
  { apply (@substitute_all_Forall (fun _ => rule_ok cfg A)
             np (firstn i ord) [] rules current); [assumption | assumption | auto |].
    intros done B suf rule betas beta Heq Hq Hb Hgb Hbeta.
    now apply (Hexp done B suf rule betas beta). }
  assert (Hcnt : count_empty current <= 1).
  { rewrite (@substitute_all_count (fun _ => rule_ok cfg A)
               np (firstn i ord) [] rules current); auto.
    now apply (soe_single Hsoe A). }
  rewrite Forall_forall in Hcur.
  destruct Hcase as [[Halpha [Hadd ->]] | [Halpha [-> ->]]].
  - split.
    + intros B beta HB Hprod.
      apply produces_dict_set in Hprod; [|now apply dict_set_ok].
      destruct Hprod as [[-> _]|[Hne Hprod]]; [exfalso; now apply (Hfresh A HA)|].
      apply produces_dict_set in Hprod; [|assumption].
      destruct Hprod as [[-> Hb]|[Hne' Hprod]]; [|now apply Hrules].
      apply in_map_iff in Hb. destruct Hb as [b [<- Hb]].
      apply filter_In in Hb. destruct Hb as [Hb _].
      destruct (Hcur b Hb) as [_ Hq2]. split.
      * intros Hnil. apply app_eq_nil in Hnil. destruct Hnil as [_ Hnil]. discriminate.
      * intros HE Hin. apply in_app_or in Hin. destruct Hin as [Hin|[Hin|[]]].
        -- now apply (Hq2 HE).
        -- now apply HAS.
    + intros H bs Hg. destruct (string_dec (prime A) H) as [<-|Hne].
      * rewrite dict_get_set_same in Hg. inversion Hg; subst bs.
        rewrite count_empty_app.
        rewrite (count_empty_map_app _ (@tl symbol) (prime A)).
        unfold count_empty. simpl. lia.
      * rewrite dict_get_set_other in Hg by assumption.
        destruct (string_dec A H) as [<-|Hne'].
        -- rewrite dict_get_set_same in Hg. inversion Hg; subst bs.
           rewrite (count_empty_map_app _ (fun b => b) (prime A)). lia.
        -- rewrite dict_get_set_other in Hg by assumption. now apply (Hcount H).
  - split.
    + intros B beta HB Hprod.
      apply produces_dict_set in Hprod; [|assumption].
      destruct Hprod as [[-> Hb]|[Hne Hprod]]; [now apply Hcur | now apply Hrules].
    + intros H bs Hg. destruct (string_dec A H) as [<-|Hne'].
      * rewrite dict_get_set_same in Hg. now inversion Hg; subst bs.
      * rewrite dict_get_set_other in Hg by assumption. now apply (Hcount H).
Qed.

Section Pipeline.
Context {order : SetOrder}.

(** What [remove_epsilon_rules] hands over to [eliminate_left_recursion]. *)
Lemma remove_epsilon_rules_start_only (cfg cfg' : CFG.t) :
  dict_ok (CFG.P cfg) -> In (CFG.S cfg) (keys (CFG.P cfg)) ->
  remove_epsilon_rules cfg = Ok cfg' ->
  start_only_eps cfg' /\ CFG.N cfg' = CFG.N cfg /\ CFG.S cfg' = CFG.S cfg.
Proof.
  intros Hok Hstart Hre.
  destruct (remove_epsilon_rules_spec cfg Hok Hstart)
    as [P' [Heq [Hk [Hok' [Hne [Hnil Hnd]]]]]].
  rewrite Heq in Hre. inversion Hre; subst cfg'. simpl.
  split; [|auto]. constructor; simpl.
  - intros A HA. now apply Hnil in HA.
  - intros HS Hocc. apply Hnil in HS. destruct HS as [_ [_ HS]]. apply HS.
    apply (occurs_in_rhs_nonempty _ Hne). exact Hocc.
  - intros A bs Hg. apply count_empty_NoDup. now apply (Hnd A).
Qed.
End Pipeline.

(** After [eliminate_left_recursion], on a grammar with an empty body at most
    at its start symbol: an empty body only for the start symbol or a primed
    name, and at most one per head. *)
Lemma eliminate_left_recursion_eps (cfg cfg' : CFG.t) :
  start_only_eps cfg -> primes_fresh cfg -> In (CFG.S cfg) (elements (CFG.N cfg)) ->
  eliminate_left_recursion cfg = Ok cfg' ->
  (forall H, produces (CFG.P cfg') H [] ->
             H = CFG.S cfg \/ exists A, In A (elements (CFG.N cfg)) /\ H = prime A) /\
  (forall H bs, dict_get (CFG.P cfg') H = Some bs -> count_empty bs <= 1).
Proof.
  intros Hsoe Hfresh Hstart H.
  apply eliminate_left_recursion_invariant with (Inv := eps_inv cfg) in H.
  - destruct H as [Hsh [Hrules Hcount]]. cbn [fst snd] in *. split; [|exact Hcount].
    intros H Hprod.
    destruct Hsh as [Hok [_ [Hkeys _]]].
    assert (HH : In H (keys (CFG.P cfg'))).
    { destruct Hprod as [bs [Hin _]]. apply in_map_iff. now exists (H, bs). }
    destruct (Hkeys H HH) as [Hord|[A [HA [-> _]]]].
    + left. apply (proj1 (fromkeys_In _ _)) in Hord.
      now apply (Hrules H [] Hord Hprod).
    + right. exists A. split; [|reflexivity].
      apply fromkeys_In. eapply firstn_incl; eassumption.
  - split; [apply shape_initial|]. cbn [fst snd]. split.
    + intros B beta _ [bs [Hin Hb]].
      apply in_map_iff in Hin. destruct Hin as [x [Hx _]].
      inversion Hx; subst. destruct Hb.
    + intros H0 bs Hg. apply initial_productions_get in Hg. subst.
      unfold count_empty. simpl. lia.
  - intros i A st st'. now apply eps_step.
Qed.

(** ** Leading symbols through eliminate_left_recursion *)

Lemma prefix_nth (A : Type) (l done rest : list A) (B : A) :
  l = done ++ B :: rest ->
  nth_error l (length done) = Some B /\ firstn (S (length done)) l = done ++ [B].
Proof.
  intros ->. split.
  - rewrite nth_error_app2 by lia. now rewrite Nat.sub_diag.
  - replace (S (length done)) with (length done + 1) by lia.
    rewrite firstn_app_2. reflexivity.
Qed.

Lemma firstn_prefix_nth (A : Type) (l done suf : list A) (B : A) (i : nat) :
  firstn i l = done ++ B :: suf ->
  length done < i /\ nth_error l (length done) = Some B /\
  firstn (S (length done)) l = done ++ [B].
Proof.
  intros H.
  assert (Hlen : length done < i).
  { assert (Hl : length (firstn i l) <= i) by apply firstn_le_length.
    rewrite H, length_app in Hl. simpl in Hl. lia. }
  split; [assumption|].
  apply (@prefix_nth A l done (suf ++ skipn i l) B).
  rewrite <- (firstn_skipn i l) at 1. rewrite H, <- app_assoc. reflexivity.
Qed.

Lemma nth_error_firstn_In (A : Type) (l : list A) (m n : nat) (x : A) :
  nth_error l m = Some x -> m < n -> In x (firstn n l).
Proof.
  revert m n. induction l as [|y l IH]; intros m n Hn Hlt.
  - destruct m; discriminate.
  - destruct n as [|n]; [lia|]. destruct m as [|m]; simpl in *.
    + inversion Hn. now left.
    + right. apply (IH m); [assumption | lia].
Qed.

Lemma firstn_In_mono (A : Type) (l : list A) (a b : nat) (x : A) :
  In x (firstn a l) -> a <= b -> In x (firstn b l).
Proof.
  intros H Hle. apply In_nth_error in H. destruct H as [m Hm].
  assert (Hlt : m < length (firstn a l)) by (apply nth_error_Some; congruence).
  assert (Hla : length (firstn a l) <= a) by apply firstn_le_length.
  apply nth_error_firstn_In with (m := m); [|lia].
  rewrite nth_error_firstn in Hm.
  destruct (m <? a)%nat; [assumption | discriminate].
Qed.

Lemma leads_outside_app (cfg : CFG.t) (done : list symbol) (b rest : body) :
  leads_outside cfg done b -> leads_outside cfg done (b ++ rest).
Proof. destruct b; simpl; intros H; [destruct H | exact H]. Qed.

Lemma leads_outside_snoc (cfg : CFG.t) (done : list symbol) (B : symbol) (rule : body) :
  leads_outside cfg done rule -> begins_with B rule = false ->
  leads_outside cfg (done ++ [B]) rule.
Proof.
  destruct rule as [|x rule]; simpl; [intros []|].
  intros [H1 H2] Hb. apply String.eqb_neq in Hb. split; [assumption|].
  intros Hin. apply in_app_or in Hin. destruct Hin as [Hin|[Hin|[]]]; auto.
Qed.

Lemma filter_nil_Forall (A : Type) (f : A -> bool) (l : list A) :
  filter f l = [] -> forall x, In x l -> f x = false.
Proof.
  intros H x Hx. destruct (f x) eqn:Hf; [|reflexivity].
  assert (Hin : In x (filter f l)) by (apply filter_In; auto).
  rewrite H in Hin. destruct Hin.
Qed.

Lemma lead_inv_step (cfg : CFG.t) (i : nat) (A : symbol)
    (st st' : dict (list body) * collection) :
  let ord := fromkeys (elements (CFG.N cfg)) in
  eps_free cfg -> primes_unused cfg ->
  nth_error ord i = Some A -> firstn (S i) ord = firstn i ord ++ [A] ->
  lead_inv cfg i st -> process (CFG.P cfg) ord i A st = Ok st' ->
  lead_inv cfg (S i) st'.
Proof.
  intros ord Hfree Hunused Hn Hf [Hsh Hlead] Hp.
  split; [eapply shape_step; eassumption|]. fold ord.
  destruct st as [np nn]. destruct st' as [np' nn']. cbn [fst snd] in *.
  destruct Hsh as [Hok _].
  assert (Hnd : NoDup ord) by apply fromkeys_NoDup.
  assert (HA : In A (elements (CFG.N cfg))).
  { apply fromkeys_In. eapply nth_error_In; eassumption. }
  assert (Hprime : forall X, In X ord -> X <> prime A).
  { intros X HX Heq. apply (proj1 (Hunused A HA)). rewrite <- Heq.
    now apply (proj1 (fromkeys_In _ _)). }
  apply process_Ok in Hp. destruct Hp as [rules [current [Hget [Hsubst Hcase]]]].
  assert (Hcur : Forall (leads_outside cfg (firstn i ord)) current).
  { apply (@substitute_all_Forall (leads_outside cfg)
             np (firstn i ord) [] rules current); [assumption| | |].
    - apply Forall_forall. intros rule Hr.
      assert (Hpr : produces (CFG.P cfg) A rule).
      { exists rules. split; [now apply dict_get_In | assumption]. }
      destruct rule as [|x rule]; simpl.
      + now apply (Hfree A).
      + split; [|intros []]. intros X HX Heq.
        apply (proj2 (Hunused X HX) A (x :: rule) Hpr). left. auto.
    - intros done B suf rule _. apply leads_outside_snoc.
    - intros done B suf rule betas beta Heq _ _ Hgb Hbeta. simpl in Heq.
      apply firstn_prefix_nth in Heq. destruct Heq as [Hlt [Hnth Hfirst]].
      apply leads_outside_app. rewrite <- Hfirst.
      pose proof (Hlead (length done) B betas Hlt Hnth Hgb) as Hb.
      rewrite Forall_forall in Hb. now apply Hb. }
  rewrite Forall_forall in Hcur.
  assert (Hbeta : forall b, In b (filter (fun r => negb (begins_with A r)) current) ->
                            leads_outside cfg (firstn (S i) ord) b).
  { intros b Hb. apply filter_In in Hb. destruct Hb as [Hb Hneg].
    rewrite Hf. apply leads_outside_snoc; [now apply Hcur|].
    now apply negb_true_iff. }
  assert (Hold : forall k Ak, k < S i -> nth_error ord k = Some Ak ->
                              k = i /\ Ak = A \/ k < i /\ Ak <> A).
  { intros k Ak Hk Hnk. destruct (Nat.eq_dec k i) as [->|Hne].
    - left. split; [reflexivity | congruence].
    - right. split; [lia|]. intros ->. apply Hne.
      apply (proj1 (NoDup_nth_error ord) Hnd);
        [apply nth_error_Some; congruence | congruence]. }
  destruct Hcase as [[Halpha [Hadd ->]] | [Halpha [-> ->]]].
  - intros k Ak bs Hk Hnk Hg.
    assert (HAk : In Ak ord) by (eapply nth_error_In; eassumption).
    rewrite dict_get_set_other in Hg
      by (intros Heq; now apply (Hprime Ak HAk)).
    destruct (Hold k Ak Hk Hnk) as [[-> ->]|[Hlt Hne]].
    + rewrite dict_get_set_same in Hg. inversion Hg; subst bs.
      apply Forall_forall. intros b Hb. apply in_map_iff in Hb.
      destruct Hb as [b0 [<- Hb0]]. apply leads_outside_app. now apply Hbeta.
    + rewrite dict_get_set_other in Hg by congruence.
      now apply (Hlead k Ak bs).
  - intros k Ak bs Hk Hnk Hg.
    destruct (Hold k Ak Hk Hnk) as [[-> ->]|[Hlt Hne]].
    + rewrite dict_get_set_same in Hg. inversion Hg; subst bs.
      apply Forall_forall. intros b Hb. apply Hbeta.
      apply filter_In. split; [assumption|].
      apply negb_true_iff. now apply (filter_nil_Forall _ _ Halpha).
    + rewrite dict_get_set_other in Hg by congruence.
      now apply (Hlead k Ak bs).
Qed.

(** In the grammar returned, the bodies of the [k]-th nonterminal begin with
    a symbol of the input that is none of the first [k + 1] nonterminals. *)
Lemma eliminate_left_recursion_leads (cfg cfg' : CFG.t) :
  let ord := fromkeys (elements (CFG.N cfg)) in
  eps_free cfg -> primes_unused cfg ->
  eliminate_left_recursion cfg = Ok cfg' ->
  shape cfg (length ord) (CFG.P cfg', CFG.N cfg') /\
  forall k A b, nth_error ord k = Some A -> produces (CFG.P cfg') A b ->
                leads_outside cfg (firstn (S k) ord) b.
Proof.
  intros ord Hfree Hunused H.
  apply eliminate_left_recursion_invariant with (Inv := lead_inv cfg) in H.
  - destruct H as [Hsh Hlead]. fold ord in Hsh, Hlead. split; [assumption|].
    cbn [fst snd] in *. intros k A b Hk Hprod.
    apply produces_dict_get in Hprod; [|apply Hsh].
    destruct Hprod as [bs [Hg Hb]].
    assert (Hlt : k < length ord) by (apply nth_error_Some; congruence).
    pose proof (Hlead k A bs Hlt Hk Hg) as HF.
    rewrite Forall_forall in HF. now apply HF.
  - split; [apply shape_initial|]. intros k A bs Hk. lia.
  - intros i A st st'. now apply lead_inv_step.
Qed.

(** Rewriting leading nonterminals never brings one of the first [k + 1]
    nonterminals to the front. *)
Lemma lead_steps_outside (cfg cfg' : CFG.t) (k : nat) (w w' : list symbol) :
  let ord := fromkeys (elements (CFG.N cfg)) in
  eps_free cfg -> primes_unused cfg ->
  eliminate_left_recursion cfg = Ok cfg' ->
  clos_refl_trans_1n _ (lead_step (CFG.P cfg')) w w' ->
  leads_outside cfg (firstn (S k) ord) w ->
  leads_outside cfg (firstn (S k) ord) w'.
Proof.
  intros ord Hfree Hunused Helr Hsteps.
  destruct (eliminate_left_recursion_leads Hfree Hunused Helr) as [Hsh Hlead].
  fold ord in Hsh, Hlead. destruct Hsh as [_ [_ [Hkeys _]]].
  induction Hsteps as [|w1 w2 w3 Hstep _ IH]; [auto|].
  intros Hw1. apply IH. clear IH.
  destruct Hstep as [X [rest [b [-> [Hprod ->]]]]].
  destruct Hw1 as [Hnp Hout].
  apply leads_outside_app.
  assert (HX : In X (keys (CFG.P cfg'))).
  { destruct Hprod as [bs [Hin _]]. apply in_map_iff. now exists (X, bs). }
  destruct (Hkeys X HX) as [Hord|[A [HA [Heq _]]]].
  - apply In_nth_error in Hord. destruct Hord as [m Hm].
    pose proof (Hlead m X b Hm Hprod) as Hb.
    destruct b as [|y b]; [destruct Hb|].
    destruct Hb as [Hy1 Hy2]. split; [assumption|].
    intros Hin. apply Hy2. apply firstn_In_mono with (a := S k); [assumption|].
    destruct (Nat.le_gt_cases (S k) (S m)) as [Hle|Hgt]; [assumption|].
    exfalso. apply Hout. apply nth_error_firstn_In with (m := m); [assumption | lia].
  - exfalso. apply (Hnp A); [|assumption].
    apply fromkeys_In. eapply firstn_incl; eassumption.
Qed.

(** ** Left recursion in the whole result *)

Lemma prime_neq (A : symbol) : prime A <> A.
Proof.
  unfold prime. induction A as [|c A IH]; simpl; [discriminate|].
  intros H. inversion H. contradiction.
Qed.

Lemma prime_inj (A B : symbol) : prime A = prime B -> A = B.
Proof.
  unfold prime. revert B. induction A as [|c A IH]; intros B H; destruct B as [|d B];
    simpl in H.
  - reflexivity.
  - inversion H as [[Hc HB]]. destruct B; discriminate.
  - inversion H as [[Hc HA]]. destruct A; discriminate.
  - inversion H as [[Hc HAB]]. f_equal. now apply IH.
Qed.

Lemma not_primed_primed (cfg : CFG.t) (y : symbol) :
  not_primed cfg y -> primed cfg y -> False.
Proof. intros Hn [B [HB Hy]]. now apply (Hn B HB). Qed.

Lemma primedb_spec (cfg : CFG.t) (y : symbol) :
  (primedb cfg y = true -> primed cfg y) /\
  (primedb cfg y = false -> not_primed cfg y).
Proof.
  unfold primedb. split.
  - intros H. apply existsb_exists in H. destruct H as [B [HB Heq]].
    apply String.eqb_eq in Heq. now exists B.
  - intros H B HB Heq.
    assert (Ht : existsb (fun B => String.eqb y (prime B)) (elements (CFG.N cfg)) = true).
    { apply existsb_exists. exists B. split; [assumption|]. now apply String.eqb_eq. }
    congruence.
Qed.

(** A string is made of primed names, or has a first symbol that is not. *)
Lemma split_primed (cfg : CFG.t) (l : list symbol) :
  Forall (primed cfg) l \/
  exists q X t, l = q ++ X :: t /\ Forall (primed cfg) q /\ not_primed cfg X.
Proof.
  induction l as [|y l IH]; [left; constructor|].
  destruct (primedb cfg y) eqn:Hy.
  - apply (proj1 (primedb_spec cfg y)) in Hy.
    destruct IH as [IH|[q [X [t [-> [Hq HX]]]]]].
    + left. now constructor.
    + right. exists (y :: q), X, t. split; [reflexivity|]. split; [now constructor | assumption].
  - apply (proj2 (primedb_spec cfg y)) in Hy.
    right. exists [], y, l. split; [reflexivity|]. split; [constructor | assumption].
Qed.

Lemma sym_ok_mono (cfg : CFG.t) (done done' : list symbol) (y : symbol) :
  (forall x, In x done -> In x done') -> sym_ok cfg done y -> sym_ok cfg done' y.
Proof.
  intros Hincl [H|[B [HB Hy]]]; [now left | right; exists B; auto].
Qed.

Lemma primed_sym_ok (cfg : CFG.t) (done : list symbol) (y : symbol) :
  primed cfg y -> sym_ok cfg done y -> prime_of done y.
Proof.
  intros Hp [Hn|H]; [exfalso; now apply (not_primed_primed Hn) | assumption].
Qed.

Lemma rule_acyc_mono (cfg : CFG.t) (H : symbol) (done done' : list symbol)
    (rule : body) :
  (forall x, In x done -> In x done') ->
  rule_acyc cfg H done rule -> rule_acyc cfg H done' rule.
Proof.
  intros Hincl [H1 [H2 H3]]. split; [assumption|]. split; [|assumption].
  eapply Forall_impl; [|exact H2]. intros y. now apply sym_ok_mono.
Qed.

Lemma nth_error_not_earlier (ord : list symbol) (i : nat) (A : symbol) :
  NoDup ord -> nth_error ord i = Some A -> ~ In A (firstn i ord).
Proof.
  intros Hnd Hn Hin. apply In_nth_error in Hin. destruct Hin as [m Hm].
  assert (Hl : m < length (firstn i ord)) by (apply nth_error_Some; congruence).
  pose proof (firstn_le_length i ord) as Hle.
  rewrite nth_error_firstn in Hm.
  destruct (m <? i)%nat eqn:Hlt; [|discriminate].
  assert (m = i); [|lia].
  apply (proj1 (NoDup_nth_error ord) Hnd);
    [apply nth_error_Some; congruence | congruence].
Qed.

(** The rules of the input, before any substitution. *)
Lemma rule_acyc_input (cfg : CFG.t) (A : symbol) (rule : body) :
  eps_free cfg -> primes_unused cfg ->
  produces (CFG.P cfg) A rule -> rule_acyc cfg A [] rule.
Proof.
  intros Hfree Hunused Hpr.
  assert (Hsym : forall y, In y rule -> not_primed cfg y).
  { intros y Hy X HX Heq. apply (proj2 (Hunused X HX) A rule Hpr). now rewrite <- Heq. }
  split; [|split].
  - destruct rule as [|x rule]; simpl; [now apply (Hfree A)|].
    split; [|intros []]. apply Hsym. now left.
  - apply Forall_forall. intros y Hy. left. now apply Hsym.
  - intros X q -> Hq. destruct q as [|y q].
    + apply t_step. exact Hpr.
    + exfalso. inversion Hq as [|? ? Hy _]; subst.
      apply (@not_primed_primed cfg y); [|assumption]. apply Hsym. right. now left.
Qed.

(** A rule of [A] that begins with [B] takes a body of [B] for its first
    symbol. *)
Lemma rule_acyc_expand (cfg : CFG.t) (A B : symbol) (done : list symbol)
    (rule beta : body) :
  rule_acyc cfg A done rule -> begins_with B rule = true ->
  rule_acyc cfg B (done ++ [B]) beta ->
  rule_acyc cfg A (done ++ [B]) (beta ++ tl rule).
Proof.
  intros [Hl [Hs Hu]] Hb [Hl' [Hs' Hu']].
  apply begins_with_cons in Hb.
  destruct rule as [|x rule]; [destruct Hl|]. simpl in Hb. injection Hb as Hb. subst x. simpl.
  split; [now apply leads_outside_app|]. split.
  - apply Forall_app. split; [assumption|].
    inversion Hs as [|? ? _ Hs2]; subst.
    eapply Forall_impl; [|exact Hs2]. intros y. apply sym_ok_mono.
    intros z Hz. apply in_or_app. now left.
  - intros X q Heq Hq. destruct beta as [|x beta]; [destruct Hl'|].
    simpl in Heq. injection Heq as Hx Hq'. subst x q.
    apply Forall_app in Hq. destruct Hq as [Hq1 Hq2].
    apply t_trans with (y := B).
    + now apply (Hu B rule).
    + now apply (Hu' X beta).
Qed.

(** A body of [A] with [A'] behind it. *)
Lemma rule_acyc_snoc (cfg : CFG.t) (A : symbol) (done : list symbol) (b : body) :
  In A (elements (CFG.N cfg)) ->
  rule_acyc cfg A done b -> rule_acyc cfg A (done ++ [A]) (b ++ [prime A]).
Proof.
  intros HA [Hl [Hs Hu]]. split; [now apply leads_outside_app|]. split.
  - apply Forall_app. split.
    + eapply Forall_impl; [|exact Hs]. intros y. apply sym_ok_mono.
      intros z Hz. apply in_or_app. now left.
    + constructor; [|constructor]. right. exists A. split; [|reflexivity].
      apply in_or_app. right. now left.
  - intros X q Heq Hq. destruct b as [|x b]; [destruct Hl|].
    simpl in Heq. injection Heq as Hx Hq'. subst x q.
    apply Forall_app in Hq. destruct Hq as [Hq1 _]. now apply (Hu X b).
Qed.

(** What follows [A] in a rule that begins with [A], with [A'] behind it. *)
Lemma guarded_tail (cfg : CFG.t) (A : symbol) (done : list symbol) (a : body) :
  acyclic_units cfg -> In A (elements (CFG.N cfg)) ->
  rule_acyc cfg A done a -> begins_with A a = true ->
  guarded cfg done (tl a ++ [prime A]).
Proof.
  intros Hacyc HA [Hl [Hs Hu]] Hb.
  apply begins_with_cons in Hb.
  destruct a as [|x a]; [destruct Hl|]. simpl in Hb. injection Hb as Hb. subst x. simpl.
  inversion Hs as [|? ? _ Hs2]; subst.
  destruct (split_primed cfg a) as [Hall|[q [X [t [-> [Hq HX]]]]]].
  - exfalso. apply (Hacyc A HA). now apply (Hu A a).
  - right. exists q, X, (t ++ [prime A]). split; [now rewrite <- app_assoc|].
    split; [|assumption].
    apply Forall_app in Hs2. destruct Hs2 as [Hs2 _].
    rewrite Forall_forall in Hq, Hs2. apply Forall_forall. intros y Hy.
    apply (@primed_sym_ok cfg); auto.
Qed.

Lemma guarded_mono (cfg : CFG.t) (done done' : list symbol) (w : list symbol) :
  (forall x, In x done -> In x done') -> guarded cfg done w -> guarded cfg done' w.
Proof.
  intros Hincl [->|[q [X [t [-> [Hq HX]]]]]]; [now left|].
  right. exists q, X, t. split; [reflexivity|]. split; [|assumption].
  eapply Forall_impl; [|exact Hq]. intros y [B [HB Hy]]. exists B. auto.
Qed.

Lemma acyc_inv_step (cfg : CFG.t) (i : nat) (A : symbol)
    (st st' : dict (list body) * collection) :
  let ord := fromkeys (elements (CFG.N cfg)) in
  eps_free cfg -> primes_unused cfg -> acyclic_units cfg ->
  nth_error ord i = Some A -> firstn (S i) ord = firstn i ord ++ [A] ->
  acyc_inv cfg i st -> process (CFG.P cfg) ord i A st = Ok st' ->
  acyc_inv cfg (S i) st'.
Proof.
  intros ord Hfree Hunused Hacyc Hn Hf [Hsh [Hrules Hprimes]] Hp.
  split; [eapply shape_step; eassumption|]. fold ord.
  destruct st as [np nn]. destruct st' as [np' nn']. cbn [fst snd] in *.
  destruct Hsh as [_ [_ [Hkeys' _]]]. fold ord in Hkeys'.
  assert (Hnd : NoDup ord) by apply fromkeys_NoDup.
  assert (HAord : In A ord) by (eapply nth_error_In; eassumption).
  assert (HA : In A (elements (CFG.N cfg))) by now apply fromkeys_In.
  assert (Hnot : forall X, In X ord -> ~ In (prime X) ord).
  { intros X HX HpX. apply (proj1 (Hunused X (proj1 (fromkeys_In _ _) HX))).
    now apply (proj1 (fromkeys_In _ _)). }
  assert (HAnew : ~ In A (firstn i ord)) by now apply nth_error_not_earlier.
  assert (Hold : forall k Ak, k < S i -> nth_error ord k = Some Ak ->
                              k = i /\ Ak = A \/ k < i /\ Ak <> A).
  { intros k Ak Hk Hnk. destruct (Nat.eq_dec k i) as [->|Hne].
    - left. split; [reflexivity | congruence].
    - right. split; [lia|]. intros ->. apply Hne.
      apply (proj1 (NoDup_nth_error ord) Hnd);
        [apply nth_error_Some; congruence | congruence]. }
  assert (Hfresh0 : dict_get np (prime A) = None).
  { destruct (dict_get np (prime A)) as [bs|] eqn:Hg; [|reflexivity]. exfalso.
    assert (Hk : In (prime A) (keys np)).
    { apply dict_get_In in Hg. apply in_map_iff. now exists (prime A, bs). }
    destruct (Hkeys' _ Hk) as [Hin|[B [HB [Heq _]]]].
    - now apply (Hnot A HAord).
    - apply prime_inj in Heq. subst B. contradiction. }
  apply process_Ok in Hp. destruct Hp as [rules [current [Hget [Hsubst Hcase]]]].
  assert (Hcur : Forall (rule_acyc cfg A (firstn i ord)) current).
  { apply (@substitute_all_Forall (rule_acyc cfg A)
             np (firstn i ord) [] rules current); [assumption| | |].
    - apply Forall_forall. intros rule Hr. apply rule_acyc_input; auto.
      exists rules. split; [now apply dict_get_In | assumption].
    - intros done B suf rule _ Hq _. eapply rule_acyc_mono; [|exact Hq].
      intros z Hz. apply in_or_app. now left.
    - intros done B suf rule betas beta Heq Hq Hb Hgb Hbeta. simpl in Heq.
      apply firstn_prefix_nth in Heq. destruct Heq as [Hlt [Hnth Hfirst]].
      apply rule_acyc_expand; [assumption | assumption|]. rewrite <- Hfirst.
      pose proof (Hrules (length done) B betas Hlt Hnth Hgb) as HF.
      rewrite Forall_forall in HF. now apply HF. }
  rewrite Forall_forall in Hcur.
  split.
  - intros k Ak bs Hk Hnk Hg.
    assert (HAk : In Ak ord) by (eapply nth_error_In; eassumption).
    destruct Hcase as [[Halpha [Hadd ->]] | [Halpha [-> ->]]].
    + rewrite dict_get_set_other in Hg
        by (intros Heq; apply (Hnot A HAord); now rewrite Heq).
      destruct (Hold k Ak Hk Hnk) as [[-> ->]|[Hlt Hne]].
      * rewrite dict_get_set_same in Hg. inversion Hg; subst bs.
        apply Forall_forall. intros b Hb. apply in_map_iff in Hb.
        destruct Hb as [b0 [<- Hb0]]. apply filter_In in Hb0. rewrite Hf.
        apply rule_acyc_snoc; [assumption|]. now apply Hcur.
      * rewrite dict_get_set_other in Hg by congruence.
        now apply (Hrules k Ak bs).
    + destruct (Hold k Ak Hk Hnk) as [[-> ->]|[Hlt Hne]].
      * rewrite dict_get_set_same in Hg. inversion Hg; subst bs.
        apply Forall_forall. intros b Hb.
        apply rule_acyc_mono with (done := firstn i ord); [|now apply Hcur].
        intros z Hz. rewrite Hf. apply in_or_app. now left.
      * rewrite dict_get_set_other in Hg by congruence.
        now apply (Hrules k Ak bs).
  - intros k Ak bs Hk Hnk Hg.
    assert (HAk : In Ak ord) by (eapply nth_error_In; eassumption).
    destruct Hcase as [[Halpha [Hadd ->]] | [Halpha [-> ->]]].
    + destruct (Hold k Ak Hk Hnk) as [[-> ->]|[Hlt Hne]].
      * rewrite dict_get_set_same in Hg. inversion Hg; subst bs.
        apply Forall_app. split; [|constructor; [now left | constructor]].
        apply Forall_forall. intros b Hb. apply in_map_iff in Hb.
        destruct Hb as [a [<- Ha]]. apply filter_In in Ha. destruct Ha as [Ha Hbeg].
        apply guarded_tail; auto.
      * rewrite dict_get_set_other in Hg
          by (intros Heq; apply prime_inj in Heq; congruence).
        rewrite dict_get_set_other in Hg
          by (intros Heq; apply (Hnot Ak HAk); now rewrite <- Heq).
        now apply (Hprimes k Ak bs).
    + destruct (Hold k Ak Hk Hnk) as [[-> ->]|[Hlt Hne]].
      * rewrite dict_get_set_other in Hg
          by (intros Heq; symmetry in Heq; now apply prime_neq in Heq).
        congruence.
      * rewrite dict_get_set_other in Hg
          by (intros Heq; apply (Hnot Ak HAk); now rewrite <- Heq).
        now apply (Hprimes k Ak bs).
Qed.

(** In the grammar returned: the bodies of an input nonterminal begin with a
    symbol of the input, and a body of the primed name of the [k]-th
    nonterminal is empty or has a symbol of the input after primed names of
    the first [k] nonterminals only. *)
Lemma eliminate_left_recursion_guarded (cfg cfg' : CFG.t) :
  let ord := fromkeys (elements (CFG.N cfg)) in
  eps_free cfg -> primes_unused cfg -> acyclic_units cfg ->
  eliminate_left_recursion cfg = Ok cfg' ->
  shape cfg (length ord) (CFG.P cfg', CFG.N cfg') /\
  (forall A b, In A ord -> produces (CFG.P cfg') A b -> leads_outside cfg [] b) /\
  (forall k A b, nth_error ord k = Some A -> produces (CFG.P cfg') (prime A) b ->
                 guarded cfg (firstn k ord) b).
Proof.
  intros ord Hfree Hunused Hacyc H.
  apply eliminate_left_recursion_invariant with (Inv := acyc_inv cfg) in H.
  - destruct H as [Hsh [Hrules Hprimes]]. fold ord in Hsh, Hrules, Hprimes.
    split; [assumption|]. cbn [fst snd] in *. split.
    + intros A b HA Hprod. apply In_nth_error in HA. destruct HA as [k Hk].
      apply produces_dict_get in Hprod; [|apply Hsh].
      destruct Hprod as [bs [Hg Hb]].
      assert (Hlt : k < length ord) by (apply nth_error_Some; congruence).
      pose proof (Hrules k A bs Hlt Hk Hg) as HF.
      rewrite Forall_forall in HF. now apply HF.
    + intros k A b Hk Hprod.
      apply produces_dict_get in Hprod; [|apply Hsh].
      destruct Hprod as [bs [Hg Hb]].
      assert (Hlt : k < length ord) by (apply nth_error_Some; congruence).
      pose proof (Hprimes k A bs Hlt Hk Hg) as HF.
      rewrite Forall_forall in HF. now apply HF.
  - split; [apply shape_initial|]. split; intros k A bs Hk; lia.
  - intros i A st st'. now apply acyc_inv_step.
Qed.

(** Rewriting leading symbols keeps a symbol of the input behind primed
    names of the first [i] nonterminals. *)
Lemma guarded_steps (cfg cfg' : CFG.t) (i : nat) (w w' : list symbol) :
  let ord := fromkeys (elements (CFG.N cfg)) in
  eps_free cfg -> primes_unused cfg -> acyclic_units cfg ->
  eliminate_left_recursion cfg = Ok cfg' ->
  clos_refl_trans_1n _ (lead_step (CFG.P cfg')) w w' ->
  guarded cfg (firstn i ord) w ->
  guarded cfg (firstn i ord) w'.
Proof.
  intros ord Hfree Hunused Hacyc Helr Hsteps.
  destruct (eliminate_left_recursion_guarded Hfree Hunused Hacyc Helr)
    as [Hsh [Hin Hpr]].
  fold ord in Hsh, Hin, Hpr. destruct Hsh as [_ [_ [Hkeys _]]].
  induction Hsteps as [|w1 w2 w3 Hstep _ IH]; [auto|].
  intros Hw1. apply IH. clear IH.
  destruct Hstep as [Y [rest [b [-> [Hprod ->]]]]].
  destruct Hw1 as [Hnil|[q [X [t [Heq [Hq HX]]]]]]; [discriminate|].
  destruct q as [|y q]; simpl in Heq; injection Heq as HY Hrest; subst Y rest.
  - assert (HXk : In X (keys (CFG.P cfg'))).
    { destruct Hprod as [bs [Hbs _]]. apply in_map_iff. now exists (X, bs). }
    destruct (Hkeys X HXk) as [Hord|[A [HA [Heq _]]]].
    + pose proof (Hin X b Hord Hprod) as Hb.
      destruct b as [|x b]; [destruct Hb|]. destruct Hb as [Hx _].
      right. exists [], x, (b ++ t). split; [reflexivity|].
      split; [constructor | assumption].
    + exfalso. apply (HX A); [|assumption].
      apply fromkeys_In. eapply firstn_incl; eassumption.
  - inversion Hq as [|? ? [B [HB Hy]] Hq']; subst.
    apply In_nth_error in HB. destruct HB as [m Hm].
    assert (Hmi : m < i).
    { assert (Hl : m < length (firstn i ord)) by (apply nth_error_Some; congruence).
      pose proof (firstn_le_length i ord). lia. }
    rewrite nth_error_firstn in Hm.
    destruct (m <? i)%nat; [|discriminate].
    destruct (Hpr m B b Hm Hprod) as [->|[q1 [X1 [t1 [-> [Hq1 HX1]]]]]].
    + right. exists q, X, t. auto.
    + right. exists q1, X1, (t1 ++ q ++ X :: t).
      split; [now rewrite <- app_assoc|]. split; [|assumption].
      eapply Forall_impl; [|exact Hq1]. intros z [C [HC Hz]]. exists C.
      split; [|assumption]. apply firstn_In_mono with (a := m); [assumption | lia].
Qed.

(** A guarded string does not begin with the primed name of the [i]-th
    nonterminal. *)
Lemma guarded_begins (cfg : CFG.t) (i : nat) (A : symbol) (w : list symbol) :
  let ord := fromkeys (elements (CFG.N cfg)) in
  nth_error ord i = Some A ->
  guarded cfg (firstn i ord) w -> begins_with (prime A) w = false.
Proof.
  intros ord Hn Hw.
  destruct (begins_with (prime A) w) eqn:Hb; [|reflexivity]. exfalso.
  apply begins_with_cons in Hb.
  destruct Hw as [->|[q [X [t [Heq [Hq HX]]]]]]; [discriminate|].
  rewrite Heq in Hb. destruct q as [|y q]; simpl in Hb; inversion Hb as [Hhead].
  - apply (HX A); [|assumption].
    apply fromkeys_In. eapply nth_error_In; eassumption.
  - inversion Hq as [|? ? [B [HB Hy]] _]. rewrite Hy in Hhead.
    apply prime_inj in Hhead. rewrite Hhead in HB.
    apply (@nth_error_not_earlier ord i A); auto. apply fromkeys_NoDup.
Qed.

(** ** Checking the side conditions on a concrete grammar *)

Lemma distinctb_NoDup (l : list symbol) : distinctb l = true -> NoDup l.
Proof.
  induction l as [|x l IH]; simpl; intros H; [constructor|].
  apply andb_true_iff in H. destruct H as [H1 H2].
  constructor; [|now apply IH]. now apply mem_false, negb_true_iff.
Qed.

Lemma subsetb_incl (l1 l2 : list symbol) :
  subsetb l1 l2 = true -> forall x, In x l1 -> In x l2.
Proof.
  unfold subsetb. rewrite forallb_forall. intros H x Hx. now apply mem_In, H.
Qed.

Lemma all_bodies_spec (f : body -> bool) (P : dict (list body)) :
  all_bodies f P = true -> forall A b, produces P A b -> f b = true.
Proof.
  unfold all_bodies. rewrite forallb_forall. intros H A b [bs [Hin Hb]].
  specialize (H (A, bs) Hin). simpl in H. rewrite forallb_forall in H. now apply H.
Qed.

Lemma well_formedb_sound (cfg : CFG.t) : well_formedb cfg = true -> well_formed cfg.
Proof.
  unfold well_formedb. rewrite !andb_true_iff.
  intros [[[[[H1 H2] H3] H4] H5] H6]. constructor.
  - now apply distinctb_NoDup.
  - now apply distinctb_NoDup.
  - now apply subsetb_incl.
  - now apply subsetb_incl.
  - now apply mem_In.
  - intros A b s Hp Hs. pose proof (@all_bodies_spec _ _ H6 _ _ Hp) as Hb.
    rewrite forallb_forall in Hb. specialize (Hb s Hs).
    apply orb_true_iff in Hb. rewrite !mem_In in Hb. exact Hb.
Qed.

Lemma eps_freeb_sound (cfg : CFG.t) : eps_freeb cfg = true -> eps_free cfg.
Proof.
  intros H A Hp. pose proof (@all_bodies_spec _ _ H _ _ Hp) as Hb. discriminate Hb.
Qed.

Lemma primes_freshb_sound (cfg : CFG.t) : primes_freshb cfg = true -> primes_fresh cfg.
Proof.
  unfold primes_freshb. rewrite forallb_forall. intros H X HX.
  now apply mem_false, negb_true_iff, H.
Qed.

Lemma primes_unusedb_sound (cfg : CFG.t) :
  primes_unusedb cfg = true -> primes_unused cfg.
Proof.
  unfold primes_unusedb. rewrite forallb_forall. intros H X HX.
  specialize (H X HX). apply andb_true_iff in H. destruct H as [H1 H2]. split.
  - now apply mem_false, negb_true_iff.
  - intros A b Hp. pose proof (@all_bodies_spec _ _ H2 _ _ Hp) as Hb.
    now apply mem_false, negb_true_iff.
Qed.

Lemma primes_unused_fresh (cfg : CFG.t) : primes_unused cfg -> primes_fresh cfg.
Proof. intros H X HX. now apply (H X HX). Qed.

Lemma unit_rankedb_sound (r : symbol -> nat) (cfg : CFG.t) :
  unit_rankedb r cfg = true -> acyclic_units cfg.
Proof.
  unfold unit_rankedb. rewrite forallb_forall. intros H A _ Hc.
  assert (Hlt : forall X Y, clos_trans _ (unit_step (CFG.P cfg)) X Y -> r X < r Y).
  { intros X Y HXY. induction HXY as [X Y [bs [Hin Hb]]|X Y Z _ IH1 _ IH2]; [|lia].
    specialize (H (X, bs) Hin). simpl in H. rewrite forallb_forall in H.
    specialize (H [Y] Hb). simpl in H. now apply Nat.ltb_lt. }
  specialize (Hlt A A Hc). lia.
Qed.

(** * The properties of the three functions *)

(** C6. A symbol is in the set computed by [find_nullable] exactly when it
    derives the empty string in zero or more rewriting steps of the
    grammar. *)
Theorem find_nullable_sound_complete (cfg : CFG.t) (A : symbol) :
  In A (find_nullable cfg) <-> derives_eps (CFG.P cfg) A.
Proof.
  split.
  - (* soundness: every head added derives ε, by the body that added it *)
    destruct (find_nullable_loop cfg) as [k [_ [_ [_ [_ [_ Hsound]]]]]].
    specialize (Hsound (derives_eps (CFG.P cfg)) (@derives_eps_rule (CFG.P cfg))).
    rewrite Forall_forall in Hsound. apply Hsound.
  - (* completeness: the loop stops on a closed set *)
    intros Hder.
    pose proof (derives_nil_closed (find_nullable_closed cfg) Hder eq_refl) as Hall.
    inversion Hall; subst. assumption.
Qed.

(** C9. On a well-formed grammar the loop of [find_nullable] ends: with any
    fuel above the number of nonterminals it returns the same set, after at
    most that many passes that added a nonterminal; a pass is repeated only
    when it has added one, and the set returned is left unchanged by a
    further pass. *)
Theorem find_nullable_terminates (cfg : CFG.t) :
  well_formed cfg ->
  exists r k,
    (forall fuel, length (elements (CFG.N cfg)) < fuel ->
                  nullable_loop fuel (CFG.P cfg) [] = Some (r, k)) /\
    find_nullable cfg = r /\
    k <= length (elements (CFG.N cfg)) /\
    nullable_pass (CFG.P cfg) r = (r, false) /\
    (forall n n', nullable_pass (CFG.P cfg) n = (n', true) -> length n < length n') /\
    (forall n n', nullable_pass (CFG.P cfg) n = (n', false) -> n' = n).
Proof.
  intros Hwf.
  destruct (@nullable_loop_total (CFG.P cfg) (elements (CFG.N cfg)))
    with (fuel := S (length (elements (CFG.N cfg)))) (n := @nil symbol)
    as [r [k [Hl [Hfix [Hk [Hr [Hir _]]]]]]].
  - intros x. apply (wf_heads Hwf).
  - constructor.
  - intros x [].
  - simpl. lia.
  - exists r, k. split; [|split; [|split; [|split; [|split]]]].
    + intros fuel Hlt. eapply nullable_loop_more_fuel; [exact Hl | lia].
    + destruct (find_nullable_loop cfg) as [k' [Hl' _]].
      set (big := S (length (CFG.P cfg)) + S (length (elements (CFG.N cfg)))).
      assert (H1 : nullable_loop big (CFG.P cfg) [] = Some (r, k))
        by (eapply nullable_loop_more_fuel; [exact Hl | unfold big; lia]).
      assert (H2 : nullable_loop big (CFG.P cfg) [] = Some (find_nullable cfg, k'))
        by (eapply nullable_loop_more_fuel; [exact Hl' | unfold big; lia]).
      congruence.
    + assert (Hle : length r <= length (elements (CFG.N cfg))).
      { apply NoDup_incl_length; [assumption|].
        intros x Hx. apply (wf_heads Hwf). now apply Hir. }
      simpl in Hk. lia.
    + assumption.
    + intros n n' Hp. apply nullable_pass_grows in Hp.
      destruct Hp as [ext [-> [_ [_ [Ht _]]]]]. specialize (Ht eq_refl).
      rewrite length_app. destruct ext; [congruence | simpl; lia].
    + intros n n' Hp. apply nullable_pass_grows in Hp.
      destruct Hp as [ext [-> [_ [_ [_ Hf]]]]]. rewrite (Hf eq_refl).
      apply app_nil_r.
Qed.

Lemma find_nullable_terminates_witness :
  well_formed demo /\
  exists r k,
    (forall fuel, length (elements (CFG.N demo)) < fuel ->
                  nullable_loop fuel (CFG.P demo) [] = Some (r, k)) /\
    find_nullable demo = r /\
    k <= length (elements (CFG.N demo)) /\
    nullable_pass (CFG.P demo) r = (r, false) /\
    (forall n n', nullable_pass (CFG.P demo) n = (n', true) -> length n < length n') /\
    (forall n n', nullable_pass (CFG.P demo) n = (n', false) -> n' = n).
Proof.
  assert (Hwf : well_formed demo) by (apply well_formedb_sound; vm_compute; reflexivity).
  split; [exact Hwf | exact (find_nullable_terminates Hwf)].
Defined.

Section Claims.
Context {order : SetOrder}.

(** C10. On a well-formed grammar [remove_epsilon_rules] returns a grammar
    with the same nonterminal collection, terminal set and start symbol,
    and a production map with the same heads. *)
Theorem remove_epsilon_rules_frame (cfg : CFG.t) :
  well_formed cfg ->
  exists cfg',
    remove_epsilon_rules cfg = Ok cfg' /\
    CFG.N cfg' = CFG.N cfg /\ CFG.Sigma cfg' = CFG.Sigma cfg /\
    CFG.S cfg' = CFG.S cfg /\ keys (CFG.P cfg') = keys (CFG.P cfg).
Proof.
  intros Hwf.
  destruct (remove_epsilon_rules_spec cfg (wf_dict Hwf) (well_formed_start_head Hwf))
    as [P' [Heq [Hk _]]].
  eexists. split; [exact Heq|]. simpl. auto.
Qed.

(** C5. In the grammar returned by [remove_epsilon_rules] on a well-formed
    grammar, no head other than the start symbol has an empty body. *)
Theorem remove_epsilon_rules_no_epsilon (cfg : CFG.t) :
  well_formed cfg ->
  exists cfg',
    remove_epsilon_rules cfg = Ok cfg' /\
    forall H b, H <> CFG.S cfg -> produces (CFG.P cfg') H b -> b <> [].
Proof.
  intros Hwf.
  destruct (remove_epsilon_rules_spec cfg (wf_dict Hwf) (well_formed_start_head Hwf))
    as [P' [Heq [_ [_ [_ [Hnil _]]]]]].
  eexists. split; [exact Heq|]. simpl.
  intros H b Hne Hp ->. apply Hnil in Hp. now apply Hne.
Qed.

(** C3. The grammar returned by [remove_epsilon_rules] on a well-formed
    grammar has an empty body among the productions of the start symbol
    exactly when the start symbol derives the empty string in the input
    and occurs in no body of the output. *)
Theorem remove_epsilon_rules_start_epsilon (cfg : CFG.t) :
  well_formed cfg ->
  exists cfg',
    remove_epsilon_rules cfg = Ok cfg' /\
    (produces (CFG.P cfg') (CFG.S cfg') [] <->
     derives_eps (CFG.P cfg) (CFG.S cfg) /\
     ~ occurs_in_rhs (CFG.P cfg') (CFG.S cfg')).
Proof.
  intros Hwf.
  destruct (remove_epsilon_rules_spec cfg (wf_dict Hwf) (well_formed_start_head Hwf))
    as [P' [Heq [_ [_ [Hne [Hnil _]]]]]].
  eexists. split; [exact Heq|]. simpl.
  rewrite Hnil, <- find_nullable_correct.
  rewrite (occurs_in_rhs_nonempty (CFG.S cfg) Hne). tauto.
Qed.

(** C7. Both transformations keep every symbol of every body inside the
    terminal set or the nonterminal collection of their result, on an input
    that satisfies the data-model invariants. *)
Theorem symbols_invariant_preserved (cfg : CFG.t) :
  well_formed cfg ->
  (exists cfg', remove_epsilon_rules cfg = Ok cfg' /\ symbols_closed cfg') /\
  (forall cfg', eliminate_left_recursion cfg = Ok cfg' -> symbols_closed cfg').
Proof.
  intros Hwf. split.
  - destruct (remove_epsilon_rules_spec cfg (wf_dict Hwf) (well_formed_start_head Hwf))
      as [P' [Heq [_ [_ [Hne _]]]]].
    eexists. split; [exact Heq|]. intros A c s Hp Hs. simpl in *.
    apply Hne in Hp; [|intros ->; destruct Hs].
    apply step1_produces in Hp; [|apply (wf_dict Hwf)].
    destruct Hp as [[b [Hb [Hincl _]]] _].
    eapply (wf_symbols Hwf); [exact Hb | now apply Hincl].
  - intros cfg'. apply eliminate_left_recursion_symbols. apply (wf_symbols Hwf).
Qed.

(** C1, as amended.  For a well-formed grammar none of whose nonterminals
    is the primed name of another, a grammar returned by the pipeline has
    an empty body only among the productions of the start symbol or of a
    primed name [A'] of a nonterminal [A], and at most one per head. *)
Theorem pipeline_epsilon_confined (cfg cfg1 cfg2 : CFG.t) :
  well_formed cfg -> primes_fresh cfg ->
  remove_epsilon_rules cfg = Ok cfg1 ->
  eliminate_left_recursion cfg1 = Ok cfg2 ->
  (forall H, produces (CFG.P cfg2) H [] ->
             H = CFG.S cfg \/ exists A, In A (elements (CFG.N cfg)) /\ H = prime A) /\
  (forall H bs, dict_get (CFG.P cfg2) H = Some bs -> count_empty bs <= 1).
Proof.
  intros Hwf Hfresh H1 H2.
  destruct (remove_epsilon_rules_start_only cfg (wf_dict Hwf)
              (well_formed_start_head Hwf) H1) as [Hsoe [HN HS]].
  rewrite <- HN, <- HS.
  apply eliminate_left_recursion_eps; try assumption.
  - unfold primes_fresh. rewrite HN. exact Hfresh.
  - rewrite HN, HS. apply (wf_start Hwf).
Qed.
End Claims.

Lemma remove_epsilon_rules_frame_witness :
  well_formed demo /\
  exists cfg',
    remove_epsilon_rules demo = Ok cfg' /\
    CFG.N cfg' = CFG.N demo /\ CFG.Sigma cfg' = CFG.Sigma demo /\
    CFG.S cfg' = CFG.S demo /\ keys (CFG.P cfg') = keys (CFG.P demo).
Proof.
  assert (Hwf : well_formed demo) by (apply well_formedb_sound; vm_compute; reflexivity).
  split; [exact Hwf | exact (@remove_epsilon_rules_frame insertion_order demo Hwf)].
Defined.

Lemma remove_epsilon_rules_no_epsilon_witness :
  well_formed demo /\
  exists cfg',
    remove_epsilon_rules demo = Ok cfg' /\
    forall H b, H <> CFG.S demo -> produces (CFG.P cfg') H b -> b <> [].
Proof.
  assert (Hwf : well_formed demo) by (apply well_formedb_sound; vm_compute; reflexivity).
  split; [exact Hwf | exact (@remove_epsilon_rules_no_epsilon insertion_order demo Hwf)].
Defined.

Lemma remove_epsilon_rules_start_epsilon_witness :
  well_formed demo /\
  exists cfg',
    remove_epsilon_rules demo = Ok cfg' /\
    (produces (CFG.P cfg') (CFG.S cfg') [] <->
     derives_eps (CFG.P demo) (CFG.S demo) /\
     ~ occurs_in_rhs (CFG.P cfg') (CFG.S cfg')).
Proof.
  assert (Hwf : well_formed demo) by (apply well_formedb_sound; vm_compute; reflexivity).
  split; [exact Hwf | exact (@remove_epsilon_rules_start_epsilon insertion_order demo Hwf)].
Defined.

Lemma symbols_invariant_preserved_witness :
  well_formed direct /\
  (exists cfg', remove_epsilon_rules direct = Ok cfg' /\ symbols_closed cfg') /\
  eliminate_left_recursion direct = Ok direct_result /\
  symbols_closed direct_result.
Proof.
  assert (Hwf : well_formed direct) by (apply well_formedb_sound; vm_compute; reflexivity).
  assert (Helr : eliminate_left_recursion direct = Ok direct_result)
    by (vm_compute; reflexivity).
  destruct (@symbols_invariant_preserved insertion_order direct Hwf) as [H1 H2].
  split; [exact Hwf|]. split; [exact H1|]. split; [exact Helr|].
  exact (H2 direct_result Helr).
Defined.

Lemma pipeline_epsilon_confined_witness :
  well_formed direct /\ primes_fresh direct /\
  remove_epsilon_rules direct = Ok direct /\
  eliminate_left_recursion direct = Ok direct_result /\
  (forall H, produces (CFG.P direct_result) H [] ->
             H = CFG.S direct \/ exists A, In A (elements (CFG.N direct)) /\ H = prime A) /\
  (forall H bs, dict_get (CFG.P direct_result) H = Some bs -> count_empty bs <= 1).
Proof.
  assert (Hwf : well_formed direct) by (apply well_formedb_sound; vm_compute; reflexivity).
  assert (Hfr : primes_fresh direct) by (apply primes_freshb_sound; vm_compute; reflexivity).
  assert (H1 : remove_epsilon_rules direct = Ok direct) by (vm_compute; reflexivity).
  assert (H2 : eliminate_left_recursion direct = Ok direct_result)
    by (vm_compute; reflexivity).
  split; [exact Hwf|]. split; [exact Hfr|]. split; [exact H1|]. split; [exact H2|].
  exact (@pipeline_epsilon_confined insertion_order direct direct direct_result
           Hwf Hfr H1 H2).
Defined.

(** C1, as stated, fails: on A -> A a | b the pipeline returns a grammar in
    which the new nonterminal A', which is not the start symbol, has the
    empty body. *)
Lemma pipeline_epsilon_counterexample :
  well_formed direct /\
  exists cfg1 cfg2,
    remove_epsilon_rules direct = Ok cfg1 /\
    eliminate_left_recursion cfg1 = Ok cfg2 /\
    ~ eps_only_at_start cfg2.
Proof.
  split; [apply well_formedb_sound; vm_compute; reflexivity|].
  exists direct, direct_result.
  split; [vm_compute; reflexivity|]. split; [vm_compute; reflexivity|].
  intros H. specialize (H "A'"). simpl in H.
  assert (Hp : produces (CFG.P direct_result) "A'" []).
  { exists [["a"; "A'"]; []]. simpl. auto. }
  specialize (H Hp). discriminate H.
Qed.

(** C2, as amended.  For an ε-free grammar that has no cycle of unit
    productions and in which no primed name of a nonterminal is in use, no
    symbol, the new primed nonterminals included, has in a grammar returned
    by [eliminate_left_recursion] a body that begins with itself, at once or
    after rewriting leading nonterminals by their bodies. *)
Theorem no_nonterminal_left_recursive (cfg cfg' : CFG.t) (A : symbol) :
  eps_free cfg -> primes_unused cfg -> acyclic_units cfg ->
  eliminate_left_recursion cfg = Ok cfg' ->
  ~ left_recursive (CFG.P cfg') A.
Proof.
  intros Hfree Hunused Hacyc Helr [b [w [Hprod [Hsteps Hbegin]]]].
  destruct (eliminate_left_recursion_leads Hfree Hunused Helr) as [Hsh Hlead].
  destruct Hsh as [_ [_ [Hkeys _]]].
  assert (HA : In A (keys (CFG.P cfg'))).
  { destruct Hprod as [bs [Hbs _]]. apply in_map_iff. now exists (A, bs). }
  destruct (Hkeys A HA) as [Hord|[B [HB [-> _]]]].
  - apply In_nth_error in Hord. destruct Hord as [k Hk].
    pose proof (Hlead k A b Hk Hprod) as Hb.
    pose proof (lead_steps_outside k Hfree Hunused Helr Hsteps Hb) as Hw.
    apply begins_with_cons in Hbegin. rewrite Hbegin in Hw.
    destruct Hw as [_ Hw]. apply Hw.
    apply nth_error_firstn_In with (m := k); [assumption | lia].
  - apply firstn_incl in HB. apply In_nth_error in HB. destruct HB as [k Hk].
    destruct (eliminate_left_recursion_guarded Hfree Hunused Hacyc Helr)
      as [_ [_ Hpr]].
    pose proof (Hpr k B b Hk Hprod) as Hb.
    pose proof (guarded_steps k Hfree Hunused Hacyc Helr Hsteps Hb) as Hw.
    pose proof (guarded_begins k Hk Hw) as Hno. congruence.
Qed.

Lemma no_nonterminal_left_recursive_witness :
  eps_free direct /\ primes_unused direct /\ acyclic_units direct /\
  eliminate_left_recursion direct = Ok direct_result /\
  In "A'" (elements (CFG.N direct_result)) /\
  ~ left_recursive (CFG.P direct_result) "A'".
Proof.
  assert (H1 : eps_free direct) by (apply eps_freeb_sound; vm_compute; reflexivity).
  assert (H2 : primes_unused direct)
    by (apply primes_unusedb_sound; vm_compute; reflexivity).
  assert (H3 : acyclic_units direct)
    by (apply unit_rankedb_sound with (r := rank_direct); vm_compute; reflexivity).
  assert (H4 : eliminate_left_recursion direct = Ok direct_result)
    by (vm_compute; reflexivity).
  split; [exact H1|]. split; [exact H2|]. split; [exact H3|]. split; [exact H4|].
  split; [simpl; auto|].
  exact (@no_nonterminal_left_recursive direct direct_result "A'" H1 H2 H3 H4).
Defined.

(** C2, as stated, fails: on the ε-free grammar A -> A | a the result has
    A' -> A', a body of the new nonterminal A' that begins with A'. *)
Lemma left_recursion_counterexample :
  well_formed unit_loop /\ eps_free unit_loop /\
  exists cfg',
    eliminate_left_recursion unit_loop = Ok cfg' /\
    In "A'" (elements (CFG.N cfg')) /\
    left_recursive (CFG.P cfg') "A'".
Proof.
  split; [apply well_formedb_sound; vm_compute; reflexivity|].
  split; [apply eps_freeb_sound; vm_compute; reflexivity|].
  exists unit_loop_result. split; [vm_compute; reflexivity|].
  split; [simpl; auto|].
  exists ["A'"], ["A'"]. split; [|split].
  - exists [["A'"]; []]. simpl. auto.
  - constructor.
  - reflexivity.
Qed.

(** A -> A | a has a unit production from A to A. *)
Lemma unit_loop_cyclic : ~ acyclic_units unit_loop.
Proof.
  intros H. apply (H "A"); [simpl; auto|].
  apply t_step. exists [["A"]; ["a"]]. simpl. auto.
Qed.

(** The condition on primed names cannot be dropped: in
    A -> A a | A' A | b with A' a terminal, the result has A -> A' A A' and
    A' -> ε, and the body A' A A' rewrites to A A'. *)
Lemma primed_name_in_use_left_recursive :
  well_formed primed_terminal /\ eps_free primed_terminal /\
  acyclic_units primed_terminal /\
  eliminate_left_recursion primed_terminal = Ok primed_terminal_result /\
  left_recursive (CFG.P primed_terminal_result) "A".
Proof.
  split; [apply well_formedb_sound; vm_compute; reflexivity|].
  split; [apply eps_freeb_sound; vm_compute; reflexivity|].
  split; [apply unit_rankedb_sound with (r := rank_direct); vm_compute; reflexivity|].
  split; [vm_compute; reflexivity|].
  exists ["A'"; "A"; "A'"], ["A"; "A'"]. split; [|split].
  - exists [["A'"; "A"; "A'"]; ["b"; "A'"]]. simpl. auto.
  - apply Relation_Operators.rt1n_trans with (y := ["A"; "A'"]); [|constructor].
    exists "A'", ["A"; "A'"], []. split; [reflexivity|]. split; [|reflexivity].
    exists [["a"; "A'"]; []]. simpl. auto.
  - reflexivity.
Qed.

(** The grammar of the script, once its ε-rules are removed, meets the
    three conditions. *)
Lemma demo_no_eps_conditions :
  eps_free demo_no_eps /\ primes_unused demo_no_eps /\ acyclic_units demo_no_eps.
Proof.
  split; [apply eps_freeb_sound; vm_compute; reflexivity|].
  split; [apply primes_unusedb_sound; vm_compute; reflexivity|].
  apply unit_rankedb_sound with (r := rank_demo). vm_compute. reflexivity.
Qed.

(** C4.  The nonterminal collection is a list, as annotated; line 108 calls
    [add] on it.  On the well-formed grammar A -> A a | b the call raises
    [AttributeError] instead of returning a grammar. *)
Theorem eliminate_left_recursion_list_raises :
  well_formed direct_list /\
  eliminate_left_recursion direct_list = Raise (AttributeError "add").
Proof.
  split; [apply well_formedb_sound; vm_compute; reflexivity | vm_compute; reflexivity].
Qed.

(** C8.  Of every grammar returned by [eliminate_left_recursion]: the
    terminal set and the start symbol are those of the input, every
    nonterminal of the input is kept and every other one is the primed name
    of an input nonterminal, with productions of its own.  The call returns
    whenever [N] is a set with an entry for each element.  A list of
    nonterminals is returned as it was: it cannot grow, and on the script's
    own grammar with [N] a list the call raises instead of adding E'. *)
Theorem eliminate_left_recursion_frame :
  (forall cfg cfg',
     eliminate_left_recursion cfg = Ok cfg' ->
     CFG.Sigma cfg' = CFG.Sigma cfg /\ CFG.S cfg' = CFG.S cfg /\
     (forall x, In x (elements (CFG.N cfg)) -> In x (elements (CFG.N cfg'))) /\
     (forall x, In x (elements (CFG.N cfg')) ->
                In x (elements (CFG.N cfg)) \/
                exists A, In A (elements (CFG.N cfg)) /\ x = prime A /\
                          In x (keys (CFG.P cfg'))) /\
     (forall xs, CFG.N cfg = PyList xs -> CFG.N cfg' = CFG.N cfg)) /\
  (forall cfg xs,
     CFG.N cfg = PySet xs ->
     (forall A, In A xs -> In A (keys (CFG.P cfg))) ->
     exists cfg', eliminate_left_recursion cfg = Ok cfg') /\
  well_formed demo_list /\
  eliminate_left_recursion demo_list = Raise (AttributeError "add").
Proof.
  split; [|split; [apply eliminate_left_recursion_set_total|
                   split; [apply well_formedb_sound; vm_compute; reflexivity
                          | vm_compute; reflexivity]]].
  intros cfg cfg' H.
  pose proof H as H0. apply eliminate_left_recursion_Ok in H0.
  destruct H0 as [_ [HSig HS]].
  apply eliminate_left_recursion_shape in H.
  destruct H as [_ [_ [_ [Hsub [Hnew [Hlist _]]]]]].
  split; [assumption|]. split; [assumption|]. split; [assumption|].
  split; [|assumption].
  intros x Hx. destruct (Hnew x Hx) as [H|[A [HA [-> Hk]]]]; [now left|].
  right. exists A. split; [|auto].
  apply fromkeys_In. eapply firstn_incl; eassumption.
Qed.

Lemma eliminate_left_recursion_frame_witness :
  eliminate_left_recursion direct = Ok direct_result /\
  CFG.Sigma direct_result = CFG.Sigma direct /\
  CFG.S direct_result = CFG.S direct /\
  (forall x, In x (elements (CFG.N direct)) -> In x (elements (CFG.N direct_result))).
Proof.
  assert (H : eliminate_left_recursion direct = Ok direct_result)
    by (vm_compute; reflexivity).
  destruct (proj1 eliminate_left_recursion_frame direct direct_result H)
    as [H1 [H2 [H3 _]]].
  split; [exact H|]. split; [exact H1|]. split; [exact H2 | exact H3].
Defined.

(** The script's own run. *)
Example demo_find_nullable : find_nullable demo = ["E"].
Proof. vm_compute. reflexivity. Qed.

Example demo_pipeline :
  (g <- remove_epsilon_rules demo ;; eliminate_left_recursion g) =
  Ok (CFG.mk (PySet ["E"; "T"; "F"; "E'"; "T'"])
             ["+"; "*"; "("; ")"; "id"; "ε"]
             [ ("E", [["+"; "T"; "E'"]; ["T"; "E'"]]);
               ("T", [["F"; "T'"]]);
               ("F", [["("; "E"; ")"]; ["("; ")"]; ["id"]]);
               ("E'", [["+"; "T"; "E'"]; []]);
               ("T'", [["*"; "F"; "T'"]; []]) ]
             "E").
Proof. vm_compute. reflexivity. Qed.

(** * Further properties *)

(** ** find_nullable *)

(** X1. The set computed by [find_nullable] is the least set closed under
    the rule of the loop: it is closed, it is included in every closed set,
    and it only holds heads of the production map. *)
Theorem find_nullable_least (cfg : CFG.t) :
  closed (CFG.P cfg) (find_nullable cfg) /\
  (forall n, closed (CFG.P cfg) n -> incl (find_nullable cfg) n) /\
  incl (find_nullable cfg) (keys (CFG.P cfg)).
Proof.
  split; [apply find_nullable_closed|]. split.
  - intros n Hn.
    destruct (find_nullable_loop cfg) as [k [_ [_ [_ [_ [_ Hsound]]]]]].
    specialize (Hsound (fun A => In A n) Hn).
    rewrite Forall_forall in Hsound. exact Hsound.
  - intros A. apply find_nullable_heads.
Qed.

Lemma eps_free_no_nullable (cfg : CFG.t) :
  eps_free cfg -> find_nullable cfg = [].
Proof.
  intros Hfree.
  destruct (find_nullable_loop cfg) as [k [_ [_ [_ [_ [_ Hsound]]]]]].
  assert (H : Forall (fun _ : symbol => False) (find_nullable cfg)).
  { apply Hsound. intros A b Hp Hb. destruct b as [|s b].
    - now apply (Hfree A).
    - now inversion Hb. }
  destruct (find_nullable cfg) as [|x l]; [reflexivity | now inversion H].
Qed.

(** X2. Without an empty body nothing is nullable: on an ε-free grammar
    [find_nullable] returns the empty set, and no symbol derives the empty
    string. *)
Theorem find_nullable_eps_free (cfg : CFG.t) :
  eps_free cfg ->
  find_nullable cfg = [] /\ forall A, ~ derives_eps (CFG.P cfg) A.
Proof.
  intros Hfree. pose proof (eps_free_no_nullable Hfree) as Hnil.
  split; [exact Hnil|].
  intros A HA. apply find_nullable_correct in HA. rewrite Hnil in HA. destruct HA.
Qed.

Lemma find_nullable_eps_free_witness :
  eps_free direct /\
  find_nullable direct = [] /\ forall A, ~ derives_eps (CFG.P direct) A.
Proof.
  assert (H : eps_free direct) by (apply eps_freeb_sound; vm_compute; reflexivity).
  split; [exact H | exact (find_nullable_eps_free H)].
Defined.

(** ** remove_epsilon_rules: the candidates are the deletions *)

Lemma deletes_refl (nullable : list symbol) (b : body) : deletes nullable b b.
Proof. induction b; constructor; assumption. Qed.

Lemma deletes_incl (nullable : list symbol) (b c : body) :
  deletes nullable b c -> incl c b.
Proof.
  induction 1 as [|s b c _ IH|s b c _ _ IH].
  - apply incl_refl.
  - intros x [<-|Hx]; [now left | right; now apply IH].
  - intros x Hx. right. now apply IH.
Qed.

Lemma deletes_none (nullable : list symbol) (b c : body) :
  (forall s, In s b -> ~ In s nullable) -> deletes nullable b c -> c = b.
Proof.
  intros Hb H. induction H as [|s b c _ IH|s b c Hs _ _].
  - reflexivity.
  - f_equal. apply IH. intros x Hx. apply Hb. now right.
  - exfalso. apply (Hb s); [now left | assumption].
Qed.

Lemma deletes_nil_all (nullable : list symbol) (b : body) :
  deletes nullable b [] <-> Forall (fun s => In s nullable) b.
Proof.
  split.
  - intros H. remember [] as c eqn:Hc. induction H; try discriminate; auto.
  - induction 1; constructor; assumption.
Qed.

Lemma compact_deletes (nullable : list symbol) (nb : list (option symbol)) (b : body) :
  Forall2 (entry_ok nullable) nb b -> deletes nullable b (compact nb).
Proof.
  induction 1 as [|o s nb b Hos _ IH]; simpl; [constructor|].
  destruct Hos as [-> | [-> Hs]]; simpl; constructor; assumption.
Qed.

Lemma candidate_deletes (nullable : list symbol) (mask : nat) (b : body) :
  deletes nullable b (candidate mask (positions nullable b) b).
Proof. unfold candidate. apply compact_deletes, mark_deleted_entry_ok. Qed.

(** Positions of a longer body. *)
Lemma positions_from_S (k : nat) (nullable : list symbol) (b : body) :
  positions_from (S k) nullable b = map S (positions_from k nullable b).
Proof.
  unfold positions_from. revert k. induction b as [|s b IH]; intros k; simpl.
  - reflexivity.
  - destruct (mem s nullable); simpl; now rewrite IH.
Qed.

Lemma positions_cons (nullable : list symbol) (s : symbol) (b : body) :
  positions nullable (s :: b) =
  if mem s nullable then 0 :: map S (positions nullable b)
  else map S (positions nullable b).
Proof.
  change (positions nullable (s :: b)) with (positions_from 0 nullable (s :: b)).
  change (positions nullable b) with (positions_from 0 nullable b).
  rewrite <- positions_from_S. unfold positions_from. simpl.
  destruct (mem s nullable); reflexivity.
Qed.

(** The marking loop on a body with one more symbol in front, when that
    symbol is not a position. *)
Lemma mark_fold_shift (mask : nat) (bit : nat -> nat) (pos : list nat)
    (js : list nat) (o : option symbol) (nb : list (option symbol)) :
  (forall j, In j js -> j < length pos) ->
  fold_left
    (fun nb j =>
       if negb (Nat.eqb (Nat.land (Nat.shiftr mask (bit j)) 1) 0)
       then list_set nb (S (nth j pos 0)) None else nb)
    js (o :: nb)
  = o :: fold_left
           (fun nb j =>
              if negb (Nat.eqb (Nat.land (Nat.shiftr mask (bit j)) 1) 0)
              then list_set nb (nth j pos 0) None else nb)
           js nb.
Proof.
  revert nb. induction js as [|j js IH]; intros nb Hjs; simpl; [reflexivity|].
  destruct (negb (Nat.eqb (Nat.land (Nat.shiftr mask (bit j)) 1) 0)); simpl;
    apply IH; intros j' Hj'; apply Hjs; now right.
Qed.

Lemma fold_left_ext_in (A B : Type) (f g : A -> B -> A) (l : list B) (a : A) :
  (forall a x, In x l -> f a x = g a x) -> fold_left f l a = fold_left g l a.
Proof.
  revert a. induction l as [|x l IH]; intros a H; simpl; [reflexivity|].
  rewrite H by now left. apply IH. intros a' x' Hx'. apply H. now right.
Qed.

Lemma fold_left_map_arg (A B C : Type) (f : A -> C -> A) (g : B -> C)
    (l : list B) (a : A) :
  fold_left f (map g l) a = fold_left (fun a x => f a (g x)) l a.
Proof. revert a. induction l as [|x l IH]; intros a; simpl; auto. Qed.

Lemma mark_deleted_skip (mask : nat) (pos : list nat) (o : option symbol)
    (nb : list (option symbol)) :
  mark_deleted mask (map S pos) (o :: nb) = o :: mark_deleted mask pos nb.
Proof.
  unfold mark_deleted. rewrite length_map.
  rewrite <- (@mark_fold_shift mask (fun j => j) pos (seq 0 (length pos)) o nb).
  - apply fold_left_ext_in. intros a j Hj. apply in_seq in Hj.
    replace (nth j (map S pos) 0) with (S (nth j pos 0)); [reflexivity|].
    rewrite (nth_indep (map S pos) 0 (S 0)) by (rewrite length_map; lia).
    now rewrite map_nth.
  - intros j Hj. apply in_seq in Hj. lia.
Qed.

Lemma shiftr_double (m d j : nat) :
  d < 2 -> Nat.shiftr (2 * m + d) (S j) = Nat.shiftr m j.
Proof.
  intros Hd. replace (S j) with (1 + j) by lia.
  rewrite <- Nat.shiftr_shiftr. f_equal.
  rewrite Nat.shiftr_div_pow2. change (2 ^ 1) with 2.
  rewrite (Nat.mul_comm 2 m), Nat.div_add_l by lia.
  rewrite (Nat.div_small d 2) by lia. lia.
Qed.

Lemma land_double (m d : nat) : d < 2 -> Nat.land (2 * m + d) 1 = d.
Proof.
  intros Hd. change 1 with (Nat.ones 1). rewrite Nat.land_ones.
  simpl Nat.pow. rewrite Nat.add_comm, Nat.mul_comm, Nat.Div0.mod_add.
  apply Nat.mod_small. lia.
Qed.

Lemma mark_deleted_first (m d : nat) (pos : list nat) (s : symbol)
    (nb : list (option symbol)) :
  d < 2 ->
  mark_deleted (2 * m + d) (0 :: map S pos) (Some s :: nb)
  = (if Nat.eqb d 0 then Some s else None) :: mark_deleted m pos nb.
Proof.
  intros Hd.
  assert (Hl : Nat.land (2 * m + d) 1 = d) by now apply land_double.
  assert (Hs : forall j, Nat.shiftr (2 * m + d) (S j) = Nat.shiftr m j)
    by (intros j; now apply shiftr_double).
  revert Hl Hs. generalize (2 * m + d). intros mask Hl Hs.
  unfold mark_deleted. cbn [length]. rewrite length_map.
  rewrite <- cons_seq, <- seq_shift. cbn [fold_left nth].
  rewrite Nat.shiftr_0_r, Hl. cbn [list_set].
  set (o := if Nat.eqb d 0 then Some s else None).
  replace (if negb (Nat.eqb d 0) then None :: nb else Some s :: nb) with (o :: nb)
    by (unfold o; destruct (Nat.eqb d 0); reflexivity).
  rewrite fold_left_map_arg.
  rewrite <- (@mark_fold_shift m (fun j => j) pos (seq 0 (length pos)) o nb).
  - apply fold_left_ext_in. intros a j Hj. apply in_seq in Hj.
    rewrite Hs. cbn [nth].
    replace (nth j (map S pos) 0) with (S (nth j pos 0)); [reflexivity|].
    rewrite (nth_indep (map S pos) 0 (S 0)) by (rewrite length_map; lia).
    now rewrite map_nth.
  - intros j Hj. apply in_seq in Hj. lia.
Qed.

(** Every deletion is the candidate of some mask below [1 << n]. *)
Lemma deletes_candidate (nullable : list symbol) (b c : body) :
  deletes nullable b c ->
  exists mask,
    mask < 2 ^ length (positions nullable b) /\
    candidate mask (positions nullable b) b = c.
Proof.
  induction 1 as [|s b c _ [m [Hm Hc]]|s b c Hs _ [m [Hm Hc]]].
  - exists 0. split; [simpl; lia | reflexivity].
  - rewrite positions_cons. destruct (mem s nullable).
    + exists (2 * m + 0). split.
      * cbn [length]. rewrite length_map, Nat.pow_succ_r'. lia.
      * unfold candidate in *. cbn [map].
        rewrite mark_deleted_first by lia. simpl. now rewrite Hc.
    + exists m. split; [now rewrite length_map|].
      unfold candidate in *. cbn [map].
      rewrite mark_deleted_skip. simpl. now rewrite Hc.
  - rewrite positions_cons. apply mem_In in Hs. rewrite Hs.
    exists (2 * m + 1). split.
    + cbn [length]. rewrite length_map, Nat.pow_succ_r'. lia.
    + unfold candidate in *. cbn [map].
      rewrite mark_deleted_first by lia. simpl. exact Hc.
Qed.

(** What one body inserts: its deletions, the empty one only for the start
    symbol or from an empty body. *)
Lemma body_insertions_deletes (nullable : list symbol) (is_start : bool) (b c : body) :
  In c (body_insertions nullable is_start b) <->
  deletes nullable b c /\ (c = [] -> is_start = true \/ b = []).
Proof.
  split.
  - intros H. split; [|now apply (body_insertions_spec _ _ _ _ H)].
    unfold body_insertions in H. apply in_app_or in H.
    destruct H as [H|[<-|[]]]; [|apply deletes_refl].
    apply filter_In in H. destruct H as [H _].
    apply in_map_iff in H. destruct H as [mask [<- _]]. apply candidate_deletes.
  - intros [Hd He]. unfold body_insertions. apply in_or_app.
    destruct c as [|x c].
    + destruct (He eq_refl) as [Hs| ->].
      * left. apply filter_In. split; [|now rewrite Hs, orb_true_r].
        destruct (deletes_candidate Hd) as [mask [Hm Hc]].
        apply in_map_iff. exists mask. split; [assumption|].
        apply in_seq. rewrite Nat.shiftl_1_l. lia.
      * right. inversion Hd; subst. now left.
    + left. apply filter_In. split; [|reflexivity].
      destruct (deletes_candidate Hd) as [mask [Hm Hc]].
      apply in_map_iff. exists mask. split; [assumption|].
      apply in_seq. rewrite Nat.shiftl_1_l. lia.
Qed.

Section Deletions.
Context {order : SetOrder}.

Lemma new_bodies_of_deletes (nullable : list symbol) (start head : symbol)
    (bodies : list body) (c : body) :
  In c (new_bodies_of nullable start head bodies) <->
  (exists b, In b bodies /\ deletes nullable b c) /\ (c = [] -> head = start).
Proof.
  unfold new_bodies_of.
  assert (Hins : forall c,
    In c (flat_map (body_insertions nullable (String.eqb head start)) bodies) <->
    exists b, In b bodies /\ deletes nullable b c /\
              (c = [] -> String.eqb head start = true \/ b = [])).
  { intros c0. rewrite in_flat_map. split; intros [b [Hb H]]; exists b;
      (split; [assumption|]); now apply body_insertions_deletes. }
  destruct (String.eqb head start) eqn:He; simpl.
  - apply String.eqb_eq in He. rewrite set_iter_In, Hins. split.
    + intros [b [Hb [Hd _]]]. split; [now exists b | auto].
    + intros [[b [Hb Hd]] _]. exists b. auto.
  - apply String.eqb_neq in He.
    rewrite set_iter_In, filter_In, set_iter_In, Hins. split.
    + intros [[b [Hb [Hd _]]] Ht]. split; [now exists b|].
      intros ->. discriminate Ht.
    + intros [[b [Hb Hd]] Hc]. destruct c as [|x c]; [now elim He; apply Hc|].
      split; [|reflexivity]. exists b. split; [assumption|]. split; [assumption|].
      discriminate.
Qed.

Lemma step1_deletes (nullable : list symbol) (start : symbol)
    (P : dict (list body)) (A : symbol) (c : body) :
  dict_ok P ->
  (produces (step1 nullable start P) A c <->
   (exists b, produces P A b /\ deletes nullable b c) /\ (c = [] -> A = start)).
Proof.
  intros Hok. rewrite step1_eq by assumption. unfold produces. split.
  - intros [cs [Hin Hc]]. apply in_map_iff in Hin.
    destruct Hin as [[h bs] [Heq Hin]]. simpl in Heq. inversion Heq; subst.
    apply new_bodies_of_deletes in Hc. destruct Hc as [[b [Hb Hd]] He].
    split; [|assumption]. exists b. split; [exists bs; auto | assumption].
  - intros [[b [[bs [Hin Hb]] Hd]] He].
    exists (new_bodies_of nullable start A bs). split.
    + apply in_map_iff. now exists (A, bs).
    + apply new_bodies_of_deletes. split; [exists b; auto | assumption].
Qed.

(** X3. The non-empty bodies of a head in the grammar returned by
    [remove_epsilon_rules] are exactly the non-empty bodies obtained from a
    body of that head by deleting occurrences of nullable symbols. *)
Theorem remove_epsilon_rules_bodies (cfg cfg' : CFG.t) :
  dict_ok (CFG.P cfg) -> In (CFG.S cfg) (keys (CFG.P cfg)) ->
  remove_epsilon_rules cfg = Ok cfg' ->
  forall A c, c <> [] ->
    (produces (CFG.P cfg') A c <->
     exists b, produces (CFG.P cfg) A b /\ deletes (find_nullable cfg) b c).
Proof.
  intros Hok Hstart Hre A c Hc.
  destruct (remove_epsilon_rules_spec cfg Hok Hstart) as [P' [Heq [_ [_ [Hne _]]]]].
  rewrite Heq in Hre. inversion Hre; subst cfg'. simpl.
  rewrite (Hne A c Hc), step1_deletes by assumption. split.
  - intros [H _]. exact H.
  - intros H. split; [exact H | intros ->; contradiction].
Qed.

(** X4. [remove_epsilon_rules] never loses a production with a non-empty
    body. *)
Theorem remove_epsilon_rules_keeps (cfg cfg' : CFG.t) :
  dict_ok (CFG.P cfg) -> In (CFG.S cfg) (keys (CFG.P cfg)) ->
  remove_epsilon_rules cfg = Ok cfg' ->
  forall A b, produces (CFG.P cfg) A b -> b <> [] -> produces (CFG.P cfg') A b.
Proof.
  intros Hok Hstart Hre A b Hp Hb.
  destruct (remove_epsilon_rules_spec cfg Hok Hstart) as [P' [Heq [_ [_ [Hne _]]]]].
  rewrite Heq in Hre. inversion Hre; subst cfg'. simpl.
  apply (Hne A b Hb). apply step1_deletes; [assumption|].
  split; [|intros ->; contradiction].
  exists b. split; [assumption | apply deletes_refl].
Qed.
End Deletions.

(** ** remove_epsilon_rules: errors, the empty string, repeated use *)

Section RemoveEpsilonMore.
Context {order : SetOrder}.

Lemma step1_occurs (nullable : list symbol) (start : symbol)
    (P : dict (list body)) (X : symbol) :
  dict_ok P ->
  (occurs_in_rhs (step1 nullable start P) X <-> occurs_in_rhs P X).
Proof.
  intros Hok. split; intros [A [c [Hp Hx]]].
  - apply step1_deletes in Hp; [|assumption].
    destruct Hp as [[b [Hb Hd]] _]. exists A, b. split; [assumption|].
    now apply (deletes_incl Hd).
  - exists A, c. split; [|assumption]. apply step1_deletes; [assumption|].
    split; [exists c; split; [assumption | apply deletes_refl]|].
    intros ->. destruct Hx.
Qed.

(** X5. When the start symbol has no entry in the production map,
    [remove_epsilon_rules] raises [KeyError] on it if it occurs in a body,
    and otherwise returns a grammar with the same heads. *)
Theorem remove_epsilon_rules_missing_start (cfg : CFG.t) :
  dict_ok (CFG.P cfg) -> ~ In (CFG.S cfg) (keys (CFG.P cfg)) ->
  (occurs_in_rhs (CFG.P cfg) (CFG.S cfg) ->
   remove_epsilon_rules cfg = Raise (KeyError (CFG.S cfg))) /\
  (~ occurs_in_rhs (CFG.P cfg) (CFG.S cfg) ->
   exists cfg', remove_epsilon_rules cfg = Ok cfg' /\
                keys (CFG.P cfg') = keys (CFG.P cfg)).
Proof.
  intros Hok Hmiss.
  set (np := step1 (find_nullable cfg) (CFG.S cfg) (CFG.P cfg)).
  assert (Hk : keys np = keys (CFG.P cfg)) by now apply step1_keys.
  assert (Hnone : dict_get np (CFG.S cfg) = None).
  { destruct (dict_get np (CFG.S cfg)) as [bs|] eqn:Hg; [|reflexivity].
    exfalso. apply Hmiss. rewrite <- Hk. apply dict_get_keys. now exists bs. }
  assert (Hnul : mem (CFG.S cfg) (find_nullable cfg) = false).
  { apply mem_false. intros H. apply Hmiss. now apply find_nullable_heads. }
  pose proof (s_in_rhs_spec (CFG.S cfg) np) as Hspec.
  pose proof (@step1_occurs (find_nullable cfg) (CFG.S cfg) (CFG.P cfg) (CFG.S cfg) Hok)
    as Hocc.
  fold np in Hocc.
  unfold remove_epsilon_rules. fold np. unfold step3, dict_item.
  rewrite Hnone, Hnul. split.
  - intros H. apply Hocc, Hspec in H. rewrite H. reflexivity.
  - intros H. destruct (s_in_rhs (CFG.S cfg) np) eqn:Hs.
    + exfalso. apply H, Hocc, Hspec. reflexivity.
    + simpl. eexists. split; [reflexivity | exact Hk].
Qed.

Lemma remove_epsilon_rules_output_ok (cfg cfg' : CFG.t) :
  dict_ok (CFG.P cfg) -> In (CFG.S cfg) (keys (CFG.P cfg)) ->
  remove_epsilon_rules cfg = Ok cfg' ->
  dict_ok (CFG.P cfg') /\ In (CFG.S cfg') (keys (CFG.P cfg')).
Proof.
  intros Hok Hstart Hre.
  destruct (remove_epsilon_rules_spec cfg Hok Hstart) as [P' [Heq [Hk [Hok' _]]]].
  rewrite Heq in Hre. inversion Hre; subst cfg'. simpl.
  split; [assumption | now rewrite Hk].
Qed.

(** On a grammar with an empty body at most at a start symbol that occurs
    in no body, only the start symbol can be nullable. *)
Lemma start_only_eps_nullable (cfg : CFG.t) (A : symbol) :
  start_only_eps cfg ->
  (In A (find_nullable cfg) <->
   A = CFG.S cfg /\ produces (CFG.P cfg) (CFG.S cfg) []).
Proof.
  intros Hsoe. split.
  - destruct (find_nullable_loop cfg) as [k [_ [_ [_ [_ [_ Hsound]]]]]].
    specialize (Hsound
      (fun A => A = CFG.S cfg /\ produces (CFG.P cfg) (CFG.S cfg) [])).
    rewrite Forall_forall in Hsound. apply Hsound.
    intros B b Hp Hb. destruct b as [|x b].
    + pose proof (soe_heads Hsoe Hp) as HB. split; [assumption | now rewrite <- HB].
    + exfalso. inversion Hb as [|? ? [Hx HS] _]; subst.
      apply (soe_rhs Hsoe HS). exists B, (CFG.S cfg :: b). split; [assumption | now left].
  - intros [-> HS]. apply (find_nullable_closed cfg HS). constructor.
Qed.

(** X6. In the grammar returned by [remove_epsilon_rules] only the start
    symbol can be nullable, and it is exactly when it has the empty body. *)
Theorem remove_epsilon_rules_nullable_after (cfg cfg' : CFG.t) (A : symbol) :
  dict_ok (CFG.P cfg) -> In (CFG.S cfg) (keys (CFG.P cfg)) ->
  remove_epsilon_rules cfg = Ok cfg' ->
  (In A (find_nullable cfg') <->
   A = CFG.S cfg' /\ produces (CFG.P cfg') (CFG.S cfg') []).
Proof.
  intros Hok Hstart Hre. apply start_only_eps_nullable.
  now apply (remove_epsilon_rules_start_only cfg Hok Hstart Hre).
Qed.

(** X7. When the start symbol occurs in some body, the grammar returned has
    no empty body at all and none of its symbols derives the empty string:
    if the start symbol of the input did, the empty string is lost. *)
Theorem remove_epsilon_rules_loses_epsilon (cfg : CFG.t) :
  dict_ok (CFG.P cfg) -> In (CFG.S cfg) (keys (CFG.P cfg)) ->
  occurs_in_rhs (CFG.P cfg) (CFG.S cfg) ->
  exists cfg',
    remove_epsilon_rules cfg = Ok cfg' /\ eps_free cfg' /\
    forall A, ~ derives_eps (CFG.P cfg') A.
Proof.
  intros Hok Hstart Hocc.
  destruct (remove_epsilon_rules_spec cfg Hok Hstart) as [P' [Heq [_ [_ [_ [Hnil _]]]]]].
  eexists. split; [exact Heq|].
  assert (Hfree : eps_free (CFG.mk (CFG.N cfg) (CFG.Sigma cfg) P' (CFG.S cfg))).
  { intros A HA. simpl in HA. apply Hnil in HA. destruct HA as [_ [_ HA]].
    apply HA. now apply step1_occurs. }
  split; [exact Hfree|].
  intros A HA. apply find_nullable_correct in HA.
  rewrite (eps_free_no_nullable Hfree) in HA. destruct HA.
Qed.

(** X8. Applying [remove_epsilon_rules] to its own result changes no
    production. *)
Theorem remove_epsilon_rules_twice (cfg cfg1 : CFG.t) :
  dict_ok (CFG.P cfg) -> In (CFG.S cfg) (keys (CFG.P cfg)) ->
  remove_epsilon_rules cfg = Ok cfg1 ->
  exists cfg2,
    remove_epsilon_rules cfg1 = Ok cfg2 /\
    forall A b, produces (CFG.P cfg2) A b <-> produces (CFG.P cfg1) A b.
Proof.
  intros Hok Hstart Hre.
  destruct (remove_epsilon_rules_start_only cfg Hok Hstart Hre) as [Hsoe _].
  destruct (@remove_epsilon_rules_output_ok cfg cfg1 Hok Hstart Hre) as [Hok1 Hstart1].
  destruct (remove_epsilon_rules_spec cfg1 Hok1 Hstart1)
    as [P2 [Heq [_ [_ [Hne [Hnil _]]]]]].
  eexists. split; [exact Heq|]. simpl.
  assert (Hclean : forall A b s, produces (CFG.P cfg1) A b -> In s b ->
                                 ~ In s (find_nullable cfg1)).
  { intros A b s Hp Hs Hn. apply (start_only_eps_nullable s Hsoe) in Hn.
    destruct Hn as [-> HS]. apply (soe_rhs Hsoe HS). now exists A, b. }
  intros A b. destruct b as [|x b].
  - rewrite Hnil. split.
    + intros [-> [Hn _]]. now apply (start_only_eps_nullable (CFG.S cfg1) Hsoe).
    + intros Hp. pose proof (soe_heads Hsoe Hp) as HA. subst A.
      split; [reflexivity|]. split.
      * apply (start_only_eps_nullable (CFG.S cfg1) Hsoe). auto.
      * rewrite step1_occurs by assumption. now apply (soe_rhs Hsoe).
  - rewrite Hne by discriminate. rewrite step1_deletes by assumption. split.
    + intros [[b0 [Hp Hd]] _].
      assert (Heqb : x :: b = b0).
      { eapply deletes_none; [|exact Hd]. intros s Hs. now apply (Hclean A b0 s). }
      now rewrite Heqb.
    + intros Hp. split; [|discriminate].
      exists (x :: b). split; [assumption | apply deletes_refl].
Qed.

(** X9. A head without any body keeps none. *)
Theorem remove_epsilon_rules_dead_head (cfg cfg' : CFG.t) (A : symbol) :
  dict_ok (CFG.P cfg) -> In (CFG.S cfg) (keys (CFG.P cfg)) ->
  remove_epsilon_rules cfg = Ok cfg' ->
  dict_get (CFG.P cfg) A = Some [] ->
  dict_get (CFG.P cfg') A = Some [].
Proof.
  intros Hok Hstart Hre Hdead.
  assert (Hnone : forall b, ~ produces (CFG.P cfg) A b).
  { intros b Hp. apply produces_dict_get in Hp; [|assumption].
    destruct Hp as [bs [Hg Hb]]. rewrite Hdead in Hg. inversion Hg; subst. destruct Hb. }
  destruct (remove_epsilon_rules_spec cfg Hok Hstart)
    as [P' [Heq [Hk [Hok' [Hne [Hnil _]]]]]].
  rewrite Heq in Hre. inversion Hre; subst cfg'. simpl.
  assert (HA : In A (keys P')).
  { rewrite Hk. apply dict_get_keys. eauto. }
  apply dict_get_keys in HA. destruct HA as [bs Hg]. rewrite Hg. f_equal.
  destruct bs as [|c bs]; [reflexivity|]. exfalso.
  assert (Hp : produces P' A c).
  { exists (c :: bs). split; [now apply dict_get_In | now left]. }
  destruct c as [|x c].
  - apply Hnil in Hp. destruct Hp as [-> [Hn _]].
    apply find_nullable_correct in Hn. inversion Hn as [|y z Hstep _]; subst.
    inversion Hstep as [u v B b Hpb Heq1 Heq2].
    destruct u as [|u0 u]; simpl in Heq1.
    + inversion Heq1; subst. now apply (Hnone b).
    + inversion Heq1. destruct u; discriminate.
  - apply Hne in Hp; [|discriminate]. apply step1_deletes in Hp; [|assumption].
    destruct Hp as [[b [Hb _]] _]. now apply (Hnone b).
Qed.
End RemoveEpsilonMore.

(** ** eliminate_left_recursion: errors and the heads of the result *)

Lemma bind_Raise_intro (A B : Type) (m : result A) (k : A -> result B) (e : exn) :
  m = Raise e -> bind m k = Raise e.
Proof. intros ->. reflexivity. Qed.

Lemma main_loop_entries (P : dict (list body)) (ord todo : list symbol)
    (i : nat) (st st' : dict (list body) * collection) :
  main_loop P ord i todo st = Ok st' ->
  forall A, In A todo -> In A (keys P).
Proof.
  revert i st. induction todo as [|B todo IH]; intros i st H A HA; [destruct HA|].
  cbn [main_loop] in H. apply bind_Ok in H. destruct H as [st1 [Hp H]].
  destruct HA as [<-|HA]; [|now apply (IH (S i) st1)].
  destruct st as [np nn]. destruct st1 as [np1 nn1].
  apply process_Ok in Hp. destruct Hp as [rules [_ [Hg _]]].
  apply dict_get_keys. now exists rules.
Qed.

Lemma main_loop_prefix_raises (P : dict (list body)) (ord pre rest : list symbol)
    (A : symbol) :
  (forall B, In B pre -> In B (keys P)) -> ~ In A (keys P) ->
  forall i np xs,
    (forall B, In B ord -> In B (keys np)) ->
    main_loop P ord i (pre ++ A :: rest) (np, PySet xs) = Raise (KeyError A).
Proof.
  intros Hpre HA. induction pre as [|B pre IH]; intros i np xs Hkeys.
  - cbn [app main_loop]. unfold process, dict_item.
    destruct (dict_get P A) as [v|] eqn:Hg; [|reflexivity].
    exfalso. apply HA. apply dict_get_keys. now exists v.
  - cbn [app main_loop].
    destruct (@process_total P ord i B np xs) as [np' [xs' [Hp Hkeys']]];
      [apply Hpre; now left | assumption |].
    rewrite Hp. cbn [bind]. apply IH; [|assumption].
    intros B' HB'. apply Hpre. now right.
Qed.

(** X10. When a nonterminal has no entry in the production map,
    [eliminate_left_recursion] returns no grammar; with a set of
    nonterminals it raises [KeyError] on the first nonterminal without
    entry. *)
Theorem eliminate_left_recursion_missing_entry (cfg : CFG.t) (A : symbol) :
  In A (elements (CFG.N cfg)) -> ~ In A (keys (CFG.P cfg)) ->
  (forall cfg', eliminate_left_recursion cfg <> Ok cfg') /\
  (forall xs pre rest,
     CFG.N cfg = PySet xs -> fromkeys xs = pre ++ A :: rest ->
     (forall B, In B pre -> In B (keys (CFG.P cfg))) ->
     eliminate_left_recursion cfg = Raise (KeyError A)).
Proof.
  intros HA Hmiss. split.
  - intros cfg' H. apply eliminate_left_recursion_Ok in H. destruct H as [H _].
    apply Hmiss. eapply main_loop_entries; [exact H|]. now apply fromkeys_In.
  - intros xs pre rest HN Hord Hpre.
    unfold eliminate_left_recursion. rewrite HN. cbv zeta. cbn [elements].
    assert (Hloop :
      main_loop (CFG.P cfg) (fromkeys xs) 0 (fromkeys xs)
        (map (fun nt => (nt, @nil body)) (fromkeys xs), PySet xs)
      = Raise (KeyError A)).
    { rewrite Hord at 2. apply main_loop_prefix_raises; try assumption.
      intros B HB. fold (initial_productions (fromkeys xs)).
      now rewrite initial_productions_keys. }
    apply bind_Raise_intro. exact Hloop.
Qed.

Lemma eliminate_left_recursion_missing_entry_witness :
  In "B" (elements (CFG.N no_entry)) /\ ~ In "B" (keys (CFG.P no_entry)) /\
  (forall cfg', eliminate_left_recursion no_entry <> Ok cfg') /\
  eliminate_left_recursion no_entry = Raise (KeyError "B").
Proof.
  assert (H1 : In "B" (elements (CFG.N no_entry))) by (simpl; auto).
  assert (H2 : ~ In "B" (keys (CFG.P no_entry)))
    by (simpl; intros [H|[]]; discriminate H).
  destruct (eliminate_left_recursion_missing_entry no_entry "B" H1 H2) as [H3 H4].
  split; [exact H1|]. split; [exact H2|]. split; [exact H3|].
  apply (H4 ["A"; "B"] ["A"] []); [reflexivity | reflexivity|].
  intros B [<-|[]]. simpl. auto.
Defined.

(** X11. The production map returned by [eliminate_left_recursion] has
    distinct heads, one for every nonterminal of the input; every other head
    is the primed name of an input nonterminal and was added to the
    nonterminal collection.  Entries of the input under other heads are
    dropped. *)
Theorem eliminate_left_recursion_heads (cfg cfg' : CFG.t) :
  eliminate_left_recursion cfg = Ok cfg' ->
  dict_ok (CFG.P cfg') /\
  (forall x, In x (elements (CFG.N cfg)) -> In x (keys (CFG.P cfg'))) /\
  (forall x, In x (keys (CFG.P cfg')) ->
             In x (elements (CFG.N cfg)) \/
             exists A, In A (elements (CFG.N cfg)) /\ x = prime A /\
                       In x (elements (CFG.N cfg'))).
Proof.
  intros H. apply eliminate_left_recursion_shape in H.
  destruct H as [Hok [Hkeys [Hkeys' _]]].
  split; [assumption|]. split.
  - intros x Hx. apply Hkeys. now apply fromkeys_In.
  - intros x Hx. destruct (Hkeys' x Hx) as [H|[A [HA [-> Hin]]]].
    + left. now apply (proj1 (fromkeys_In _ _)).
    + right. exists A. split; [|auto].
      apply fromkeys_In. eapply firstn_incl; eassumption.
Qed.

Lemma eliminate_left_recursion_heads_witness :
  eliminate_left_recursion direct = Ok direct_result /\
  dict_ok (CFG.P direct_result) /\
  (forall x, In x (elements (CFG.N direct)) -> In x (keys (CFG.P direct_result))).
Proof.
  assert (H : eliminate_left_recursion direct = Ok direct_result)
    by (vm_compute; reflexivity).
  destruct (@eliminate_left_recursion_heads direct direct_result H) as [H1 [H2 _]].
  split; [exact H|]. split; [exact H1 | exact H2].
Defined.

(** ** eliminate_left_recursion: direct left recursion *)

Lemma begins_with_app (A : symbol) (b rest : body) :
  b <> [] -> begins_with A (b ++ rest) = begins_with A b.
Proof. destruct b; [congruence | reflexivity]. Qed.

Lemma no_direct_step (cfg : CFG.t) (i : nat) (A : symbol)
    (st st' : dict (list body) * collection) :
  let ord := fromkeys (elements (CFG.N cfg)) in
  primes_fresh cfg \/ (exists xs, CFG.N cfg = PyList xs) ->
  nth_error ord i = Some A -> firstn (S i) ord = firstn i ord ++ [A] ->
  no_direct_inv cfg i st -> process (CFG.P cfg) ord i A st = Ok st' ->
  no_direct_inv cfg (S i) st'.
Proof.
  intros ord Hcase Hn Hf [Hsh Hinv] Hp.
  split; [eapply shape_step; eassumption|]. fold ord.
  destruct st as [np nn]. destruct st' as [np' nn']. cbn [fst snd] in *.
  destruct Hsh as [_ [_ [_ [_ [_ [Hlist _]]]]]].
  assert (Hnd : NoDup ord) by apply fromkeys_NoDup.
  assert (HA : In A (elements (CFG.N cfg))).
  { apply fromkeys_In. eapply nth_error_In; eassumption. }
  assert (Hold : forall k Ak, k < S i -> nth_error ord k = Some Ak ->
                              k = i /\ Ak = A \/ k < i /\ Ak <> A).
  { intros k Ak Hk Hnk. destruct (Nat.eq_dec k i) as [->|Hne].
    - left. split; [reflexivity | congruence].
    - right. split; [lia|]. intros ->. apply Hne.
      apply (proj1 (NoDup_nth_error ord) Hnd);
        [apply nth_error_Some; congruence | congruence]. }
  apply process_Ok in Hp. destruct Hp as [rules [current [Hget [Hsubst Hbranch]]]].
  destruct Hbranch as [[Halpha [Hadd ->]] | [Halpha [-> ->]]].
  - assert (Hfresh : primes_fresh cfg).
    { destruct Hcase as [H|[xs Hxs]]; [assumption|]. exfalso.
      apply coll_add_elements in Hadd. destruct Hadd as [_ [[ys Hys] _]].
      rewrite (Hlist xs Hxs), Hxs in Hys. discriminate. }
    intros k Ak bs Hk Hnk Hg.
    assert (HAk : In Ak (elements (CFG.N cfg))).
    { apply fromkeys_In. eapply nth_error_In; eassumption. }
    rewrite dict_get_set_other in Hg
      by (intros Heq; apply (Hfresh A HA); now rewrite Heq).
    destruct (Hold k Ak Hk Hnk) as [[-> ->]|[Hlt Hne]].
    + rewrite dict_get_set_same in Hg. inversion Hg; subst bs.
      apply Forall_forall. intros b Hb. apply in_map_iff in Hb.
      destruct Hb as [b0 [<- Hb0]]. apply filter_In in Hb0.
      destruct Hb0 as [_ Hb0]. apply negb_true_iff in Hb0.
      destruct b0 as [|x b0]; [|exact Hb0].
      simpl. apply String.eqb_neq. apply prime_neq.
    + rewrite dict_get_set_other in Hg by congruence.
      now apply (Hinv k Ak bs).
  - intros k Ak bs Hk Hnk Hg.
    destruct (Hold k Ak Hk Hnk) as [[-> ->]|[Hlt Hne]].
    + rewrite dict_get_set_same in Hg. inversion Hg; subst bs.
      apply Forall_forall. intros b Hb. now apply (filter_nil_Forall _ _ Halpha).
    + rewrite dict_get_set_other in Hg by congruence.
      now apply (Hinv k Ak bs).
Qed.

Lemma eliminate_left_recursion_no_direct (cfg cfg' : CFG.t) :
  primes_fresh cfg \/ (exists xs, CFG.N cfg = PyList xs) ->
  eliminate_left_recursion cfg = Ok cfg' ->
  forall A b, In A (elements (CFG.N cfg)) -> produces (CFG.P cfg') A b ->
              begins_with A b = false.
Proof.
  intros Hcase H.
  apply eliminate_left_recursion_invariant with (Inv := no_direct_inv cfg) in H.
  - destruct H as [Hsh Hinv]. cbn [fst snd] in *. intros A b HA Hp.
    apply fromkeys_In in HA. apply In_nth_error in HA. destruct HA as [k Hk].
    apply produces_dict_get in Hp; [|apply Hsh]. destruct Hp as [bs [Hg Hb]].
    assert (Hlt : k < length (fromkeys (elements (CFG.N cfg))))
      by (apply nth_error_Some; congruence).
    pose proof (Hinv k A bs Hlt Hk Hg) as HF.
    rewrite Forall_forall in HF. now apply HF.
  - split; [apply shape_initial|]. intros k A bs Hk. lia.
  - intros i A st st'. now apply no_direct_step.
Qed.

(** X12. Direct left recursion is always removed from the nonterminals of
    the input: when no nonterminal is the primed name of another, no body of
    an input nonterminal in the result begins with that nonterminal, whether
    or not the grammar has empty bodies. *)
Theorem eliminate_left_recursion_direct (cfg cfg' : CFG.t) (A : symbol) (b : body) :
  primes_fresh cfg ->
  eliminate_left_recursion cfg = Ok cfg' ->
  In A (elements (CFG.N cfg)) -> produces (CFG.P cfg') A b ->
  begins_with A b = false.
Proof.
  intros Hfresh H. apply (@eliminate_left_recursion_no_direct cfg cfg'); auto.
Qed.

(** X13. With a list of nonterminals the call only returns when no
    nonterminal needed a primed name: the result has the same list, heads
    that are all in it, and no body that begins with its own head. *)
Theorem eliminate_left_recursion_list_result (cfg cfg' : CFG.t) (xs : list symbol) :
  CFG.N cfg = PyList xs ->
  eliminate_left_recursion cfg = Ok cfg' ->
  CFG.N cfg' = PyList xs /\
  (forall x, In x (keys (CFG.P cfg')) <-> In x xs) /\
  (forall A b, produces (CFG.P cfg') A b -> begins_with A b = false).
Proof.
  intros HN H.
  pose proof H as Hsh. apply eliminate_left_recursion_shape in Hsh.
  destruct Hsh as [_ [Hkeys [Hkeys' [_ [_ [Hlist _]]]]]].
  pose proof (Hlist xs HN) as HN'. rewrite HN in HN', Hkeys, Hkeys'.
  cbn [elements] in *.
  assert (Hk : forall x, In x (keys (CFG.P cfg')) <-> In x xs).
  { intros x. split.
    - intros Hx. destruct (Hkeys' x Hx) as [Hx'|[A [_ [_ Hx']]]].
      + now apply (proj1 (fromkeys_In _ _)).
      + rewrite HN' in Hx'. exact Hx'.
    - intros Hx. apply Hkeys. now apply fromkeys_In. }
  split; [assumption|]. split; [assumption|].
  intros A b Hp.
  apply (@eliminate_left_recursion_no_direct cfg cfg'); try assumption.
  - right. now exists xs.
  - rewrite HN. cbn [elements]. apply Hk.
    destruct Hp as [bs [Hin _]]. apply in_map_iff. now exists (A, bs).
Qed.

(** ** eliminate_left_recursion: grammars it leaves alone *)

Lemma substitute_noop (np : dict (list body)) (B : symbol) (rules : list body) :
  (forall r, In r rules -> begins_with B r = false) ->
  substitute np B rules = Ok rules.
Proof.
  induction rules as [|r rules IH]; intros H; simpl; [reflexivity|].
  unfold substitute_rule. rewrite (H r) by now left.
  rewrite IH by (intros r' Hr'; apply H; now right). reflexivity.
Qed.

Lemma substitute_all_noop (np : dict (list body)) (earlier : list symbol)
    (rules : list body) :
  (forall B r, In B earlier -> In r rules -> begins_with B r = false) ->
  substitute_all np earlier rules = Ok rules.
Proof.
  induction earlier as [|B earlier IH]; intros H; simpl; [reflexivity|].
  rewrite substitute_noop by (intros r Hr; apply H; [now left | assumption]).
  simpl. apply IH. intros B' r HB' Hr. apply H; [now right | assumption].
Qed.

Lemma filter_false_nil (A : Type) (f : A -> bool) (l : list A) :
  (forall x, In x l -> f x = false) -> filter f l = [].
Proof.
  induction l as [|x l IH]; intros H; simpl; [reflexivity|].
  rewrite (H x) by now left. apply IH. intros y Hy. apply H. now right.
Qed.

Lemma process_noop (P : dict (list body)) (ord : list symbol) (i : nat) (A : symbol)
    (np : dict (list body)) (nn : collection) (rules : list body) :
  dict_get P A = Some rules -> In A ord ->
  (forall B r, In B ord -> In r rules -> begins_with B r = false) ->
  process P ord i A (np, nn) = Ok (dict_set np A rules, nn).
Proof.
  intros Hg HA Hlead. unfold process, dict_item. rewrite Hg. cbn [bind].
  rewrite substitute_all_noop
    by (intros B r HB Hr; apply Hlead; [eapply firstn_incl; eassumption | assumption]).
  cbn [bind].
  rewrite filter_false_nil by (intros r Hr; now apply Hlead).
  reflexivity.
Qed.

Lemma main_loop_noop (P : dict (list body)) (ord : list symbol) (nn : collection)
    (todo : list symbol) :
  (forall A, In A todo ->
     In A ord /\ exists rules, dict_get P A = Some rules /\
       forall B r, In B ord -> In r rules -> begins_with B r = false) ->
  forall i np,
    (forall A, In A ord -> In A (keys np)) ->
    exists np',
      main_loop P ord i todo (np, nn) = Ok (np', nn) /\
      keys np' = keys np /\
      (forall A, In A todo -> dict_get np' A = dict_get P A) /\
      (forall A, ~ In A todo -> dict_get np' A = dict_get np A).
Proof.
  induction todo as [|A todo IH]; intros Htodo i np Hkeys.
  - exists np. split; [reflexivity|]. split; [reflexivity|]. split; [intros A []|auto].
  - destruct (Htodo A (or_introl eq_refl)) as [HA [rules [Hg Hlead]]].
    cbn [main_loop]. rewrite (@process_noop P ord i A np nn rules Hg HA Hlead).
    cbn [bind].
    destruct (IH (fun B HB => Htodo B (or_intror HB)) (S i) (dict_set np A rules))
      as [np' [Hloop [Hk [Hin Hout]]]].
    { intros B HB. apply keys_dict_set. right. now apply Hkeys. }
    exists np'. split; [exact Hloop|]. split; [|split].
    + rewrite Hk. apply keys_dict_set_in. now apply Hkeys.
    + intros B [<-|HB]; [|now apply Hin].
      destruct (in_dec string_dec A todo) as [Hi|Hni]; [now apply Hin|].
      rewrite (Hout A Hni), dict_get_set_same. now rewrite Hg.
    + intros B HB. rewrite Hout by (intros H; apply HB; now right).
      apply dict_get_set_other. intros ->. apply HB. now left.
Qed.

(** X14. A grammar none of whose bodies begins with a nonterminal is left
    alone, also with a list of nonterminals: the call returns the same
    collection, terminal set and start symbol, one head per nonterminal in
    the order of the collection, and for each nonterminal the list of bodies
    it had. *)
Theorem eliminate_left_recursion_leaves_alone (cfg : CFG.t) :
  dict_ok (CFG.P cfg) ->
  (forall A, In A (elements (CFG.N cfg)) -> In A (keys (CFG.P cfg))) ->
  leads_with_terminals cfg ->
  exists cfg',
    eliminate_left_recursion cfg = Ok cfg' /\
    CFG.N cfg' = CFG.N cfg /\ CFG.Sigma cfg' = CFG.Sigma cfg /\
    CFG.S cfg' = CFG.S cfg /\
    keys (CFG.P cfg') = fromkeys (elements (CFG.N cfg)) /\
    forall A, In A (elements (CFG.N cfg)) ->
              dict_get (CFG.P cfg') A = dict_get (CFG.P cfg) A.
Proof.
  intros Hok Hentries Hlead.
  set (ord := fromkeys (elements (CFG.N cfg))).
  destruct (@main_loop_noop (CFG.P cfg) ord (CFG.N cfg) ord) with
    (i := 0) (np := initial_productions ord) as [np' [Hloop [Hk [Hin _]]]].
  - intros A HA. split; [assumption|].
    apply (proj1 (fromkeys_In _ _)) in HA.
    destruct (proj1 (dict_get_keys _ _) (Hentries A HA)) as [rules Hg].
    exists rules. split; [assumption|]. intros B r HB Hr.
    apply (Hlead A r B HA); [|now apply (proj1 (fromkeys_In _ _))].
    exists rules. split; [now apply dict_get_In | assumption].
  - intros A HA. now rewrite initial_productions_keys.
  - exists (CFG.mk (CFG.N cfg) (CFG.Sigma cfg) np' (CFG.S cfg)). split.
    + unfold eliminate_left_recursion. eapply bind_Ok_intro; [exact Hloop|reflexivity].
    + cbn [CFG.N CFG.Sigma CFG.P CFG.S].
      split; [reflexivity|]. split; [reflexivity|]. split; [reflexivity|]. split.
      * rewrite Hk. apply initial_productions_keys.
      * intros A HA. apply Hin. now apply fromkeys_In.
Qed.

Lemma eliminate_left_recursion_leaves_alone_witness :
  dict_ok (CFG.P leading_terminals) /\
  leads_with_terminals leading_terminals /\
  exists cfg',
    eliminate_left_recursion leading_terminals = Ok cfg' /\
    CFG.N cfg' = CFG.N leading_terminals /\
    CFG.Sigma cfg' = CFG.Sigma leading_terminals /\
    CFG.S cfg' = CFG.S leading_terminals /\
    keys (CFG.P cfg') = fromkeys (elements (CFG.N leading_terminals)) /\
    forall A, In A (elements (CFG.N leading_terminals)) ->
              dict_get (CFG.P cfg') A = dict_get (CFG.P leading_terminals) A.
Proof.
  assert (H1 : dict_ok (CFG.P leading_terminals)).
  { apply distinctb_NoDup. vm_compute. reflexivity. }
  assert (H2 : forall A, In A (elements (CFG.N leading_terminals)) ->
                         In A (keys (CFG.P leading_terminals))).
  { apply subsetb_incl. vm_compute. reflexivity. }
  assert (H3 : leads_with_terminals leading_terminals).
  { intros A b B HA [bs [Hin Hb]] HB. simpl in *.
    destruct HB as [<-|[<-|[]]];
      destruct Hin as [Hin|[Hin|[]]]; inversion Hin; subst; simpl in Hb;
      repeat (destruct Hb as [<-|Hb]; [reflexivity|]); destruct Hb. }
  split; [exact H1|]. split; [exact H3|].
  exact (@eliminate_left_recursion_leaves_alone leading_terminals H1 H2 H3).
Defined.

(** ** eliminate_left_recursion: the primed heads *)

Lemma primed_step (cfg : CFG.t) (i : nat) (A : symbol)
    (st st' : dict (list body) * collection) :
  let ord := fromkeys (elements (CFG.N cfg)) in
  nth_error ord i = Some A ->
  primed_inv cfg i st -> process (CFG.P cfg) ord i A st = Ok st' ->
  primed_inv cfg (S i) st'.
Proof.
  intros ord Hn Hinv Hp.
  destruct st as [np nn]. destruct st' as [np' nn'].
  unfold primed_inv in *. fold ord in Hinv |- *. cbn [fst snd] in *.
  assert (HA : In A ord) by (eapply nth_error_In; eassumption).
  apply process_Ok in Hp. destruct Hp as [rules [current [_ [_ Hbranch]]]].
  destruct Hbranch as [[_ [_ ->]] | [_ [_ ->]]]; intros x bs Hx Hg.
  - destruct (string_dec (prime A) x) as [<-|Hne].
    + rewrite dict_get_set_same in Hg. inversion Hg; subst bs.
      split; [now exists A|]. split.
      * rewrite count_empty_app, (count_empty_map_app _ (@tl symbol) (prime A)).
        reflexivity.
      * apply Forall_app. split; [|constructor; [now left | constructor]].
        apply Forall_forall. intros b Hb. apply in_map_iff in Hb.
        destruct Hb as [a [<- _]]. right. now exists (tl a).
    + rewrite dict_get_set_other in Hg by assumption.
      rewrite dict_get_set_other in Hg by (intros ->; contradiction).
      now apply Hinv.
  - rewrite dict_get_set_other in Hg by (intros ->; contradiction).
    now apply Hinv.
Qed.

(** X15. Every head of the result that is not a nonterminal of the input is
    the primed name of one, and its bodies are in right-recursive form: one
    empty body, and bodies that end with the primed name itself. *)
Theorem eliminate_left_recursion_primed_heads (cfg cfg' : CFG.t)
    (x : symbol) (bs : list body) :
  eliminate_left_recursion cfg = Ok cfg' ->
  ~ In x (elements (CFG.N cfg)) -> dict_get (CFG.P cfg') x = Some bs ->
  (exists A, In A (elements (CFG.N cfg)) /\ x = prime A) /\
  count_empty bs = 1 /\ Forall (right_recursive x) bs.
Proof.
  intros H Hx Hg.
  apply eliminate_left_recursion_invariant with (Inv := primed_inv cfg) in H.
  - unfold primed_inv in H. cbn [fst] in H.
    destruct (H x bs) as [[A [HA ->]] [Hc Hf]]; [|assumption|].
    + intros Hin. apply Hx. now apply (proj1 (fromkeys_In _ _)).
    + split; [|auto]. exists A. split; [|reflexivity].
      now apply (proj1 (fromkeys_In _ _)).
  - intros y ys Hy Hgy. exfalso. apply Hy.
    rewrite <- (initial_productions_keys (fromkeys (elements (CFG.N cfg)))).
    apply dict_get_keys. now exists ys.
  - intros i A st st' Hn _. now apply primed_step.
Qed.

Lemma eliminate_left_recursion_primed_heads_witness :
  eliminate_left_recursion direct = Ok direct_result /\
  ~ In "A'" (elements (CFG.N direct)) /\
  dict_get (CFG.P direct_result) "A'" = Some [["a"; "A'"]; []] /\
  (exists A, In A (elements (CFG.N direct)) /\ "A'" = prime A) /\
  count_empty [["a"; "A'"]; []] = 1 /\
  Forall (right_recursive "A'") [["a"; "A'"]; []].
Proof.
  assert (H1 : eliminate_left_recursion direct = Ok direct_result)
    by (vm_compute; reflexivity).
  assert (H2 : ~ In "A'" (elements (CFG.N direct)))
    by (simpl; intros [H|[]]; discriminate H).
  assert (H3 : dict_get (CFG.P direct_result) "A'" = Some [["a"; "A'"]; []])
    by reflexivity.
  split; [exact H1|]. split; [exact H2|]. split; [exact H3|].
  exact (@eliminate_left_recursion_primed_heads direct direct_result "A'" _ H1 H2 H3).
Defined.

(** ** The two transformations in sequence *)

Section PipelineMore.
Context {order : SetOrder}.

(** X16. On a well-formed grammar whose nonterminals are a set, the
    sequence of the script always returns: the first result has the entries
    the second transformation needs, and its terminal set and start symbol
    reach the final grammar unchanged. *)
Theorem pipeline_returns (cfg : CFG.t) (xs : list symbol) :
  well_formed cfg -> CFG.N cfg = PySet xs ->
  exists cfg1 cfg2,
    remove_epsilon_rules cfg = Ok cfg1 /\
    eliminate_left_recursion cfg1 = Ok cfg2 /\
    CFG.Sigma cfg2 = CFG.Sigma cfg /\ CFG.S cfg2 = CFG.S cfg.
Proof.
  intros Hwf HN.
  destruct (remove_epsilon_rules_spec cfg (wf_dict Hwf) (well_formed_start_head Hwf))
    as [P1 [Heq [Hk _]]].
  destruct (@eliminate_left_recursion_set_total
              (CFG.mk (CFG.N cfg) (CFG.Sigma cfg) P1 (CFG.S cfg)) xs) as [cfg2 H2].
  - exact HN.
  - intros A HA. cbn [CFG.P]. rewrite Hk. apply (wf_entries Hwf).
    rewrite HN. exact HA.
  - eexists. exists cfg2. split; [exact Heq|]. split; [exact H2|].
    apply eliminate_left_recursion_Ok in H2. destruct H2 as [_ [HS HSt]].
    split; assumption.
Qed.
End PipelineMore.

(** ** The further properties on the example grammars *)

Lemma remove_epsilon_rules_bodies_witness :
  dict_ok (CFG.P demo) /\ In (CFG.S demo) (keys (CFG.P demo)) /\
  remove_epsilon_rules demo = Ok demo_no_eps /\
  forall A c, c <> [] ->
    (produces (CFG.P demo_no_eps) A c <->
     exists b, produces (CFG.P demo) A b /\ deletes (find_nullable demo) b c).
Proof.
  assert (H1 : dict_ok (CFG.P demo)) by (apply distinctb_NoDup; vm_compute; reflexivity).
  assert (H2 : In (CFG.S demo) (keys (CFG.P demo))) by (simpl; auto).
  assert (H3 : remove_epsilon_rules demo = Ok demo_no_eps) by (vm_compute; reflexivity).
  split; [exact H1|]. split; [exact H2|]. split; [exact H3|].
  exact (@remove_epsilon_rules_bodies insertion_order demo demo_no_eps H1 H2 H3).
Defined.

Lemma remove_epsilon_rules_keeps_witness :
  dict_ok (CFG.P demo) /\ In (CFG.S demo) (keys (CFG.P demo)) /\
  remove_epsilon_rules demo = Ok demo_no_eps /\
  forall A b, produces (CFG.P demo) A b -> b <> [] -> produces (CFG.P demo_no_eps) A b.
Proof.
  assert (H1 : dict_ok (CFG.P demo)) by (apply distinctb_NoDup; vm_compute; reflexivity).
  assert (H2 : In (CFG.S demo) (keys (CFG.P demo))) by (simpl; auto).
  assert (H3 : remove_epsilon_rules demo = Ok demo_no_eps) by (vm_compute; reflexivity).
  split; [exact H1|]. split; [exact H2|]. split; [exact H3|].
  exact (@remove_epsilon_rules_keeps insertion_order demo demo_no_eps H1 H2 H3).
Defined.

Lemma remove_epsilon_rules_missing_start_witness :
  dict_ok (CFG.P no_start_entry) /\
  ~ In (CFG.S no_start_entry) (keys (CFG.P no_start_entry)) /\
  occurs_in_rhs (CFG.P no_start_entry) (CFG.S no_start_entry) /\
  remove_epsilon_rules no_start_entry = Raise (KeyError "S").
Proof.
  assert (H1 : dict_ok (CFG.P no_start_entry))
    by (apply distinctb_NoDup; vm_compute; reflexivity).
  assert (H2 : ~ In (CFG.S no_start_entry) (keys (CFG.P no_start_entry)))
    by (simpl; intros [H|[]]; discriminate H).
  assert (H3 : occurs_in_rhs (CFG.P no_start_entry) (CFG.S no_start_entry)).
  { exists "A", ["S"; "a"]. split; [|now left].
    exists [["S"; "a"]]. split; now left. }
  split; [exact H1|]. split; [exact H2|]. split; [exact H3|].
  exact (proj1 (@remove_epsilon_rules_missing_start insertion_order no_start_entry H1 H2) H3).
Defined.

Lemma remove_epsilon_rules_nullable_after_witness :
  dict_ok (CFG.P demo) /\ In (CFG.S demo) (keys (CFG.P demo)) /\
  remove_epsilon_rules demo = Ok demo_no_eps /\
  (In "E" (find_nullable demo_no_eps) <->
   "E" = CFG.S demo_no_eps /\ produces (CFG.P demo_no_eps) (CFG.S demo_no_eps) []).
Proof.
  assert (H1 : dict_ok (CFG.P demo)) by (apply distinctb_NoDup; vm_compute; reflexivity).
  assert (H2 : In (CFG.S demo) (keys (CFG.P demo))) by (simpl; auto).
  assert (H3 : remove_epsilon_rules demo = Ok demo_no_eps) by (vm_compute; reflexivity).
  split; [exact H1|]. split; [exact H2|]. split; [exact H3|].
  exact (@remove_epsilon_rules_nullable_after insertion_order demo demo_no_eps "E" H1 H2 H3).
Defined.

Lemma remove_epsilon_rules_loses_epsilon_witness :
  dict_ok (CFG.P demo) /\ In (CFG.S demo) (keys (CFG.P demo)) /\
  occurs_in_rhs (CFG.P demo) (CFG.S demo) /\
  exists cfg',
    remove_epsilon_rules demo = Ok cfg' /\ eps_free cfg' /\
    forall A, ~ derives_eps (CFG.P cfg') A.
Proof.
  assert (H1 : dict_ok (CFG.P demo)) by (apply distinctb_NoDup; vm_compute; reflexivity).
  assert (H2 : In (CFG.S demo) (keys (CFG.P demo))) by (simpl; auto).
  assert (H3 : occurs_in_rhs (CFG.P demo) (CFG.S demo)).
  { exists "E", ["E"; "+"; "T"]. split; [|now left].
    exists [["E"; "+"; "T"]; ["T"]; []]. split; now left. }
  split; [exact H1|]. split; [exact H2|]. split; [exact H3|].
  exact (@remove_epsilon_rules_loses_epsilon insertion_order demo H1 H2 H3).
Defined.

Lemma remove_epsilon_rules_twice_witness :
  dict_ok (CFG.P demo) /\ In (CFG.S demo) (keys (CFG.P demo)) /\
  remove_epsilon_rules demo = Ok demo_no_eps /\
  exists cfg2,
    remove_epsilon_rules demo_no_eps = Ok cfg2 /\
    forall A b, produces (CFG.P cfg2) A b <-> produces (CFG.P demo_no_eps) A b.
Proof.
  assert (H1 : dict_ok (CFG.P demo)) by (apply distinctb_NoDup; vm_compute; reflexivity).
  assert (H2 : In (CFG.S demo) (keys (CFG.P demo))) by (simpl; auto).
  assert (H3 : remove_epsilon_rules demo = Ok demo_no_eps) by (vm_compute; reflexivity).
  split; [exact H1|]. split; [exact H2|]. split; [exact H3|].
  exact (@remove_epsilon_rules_twice insertion_order demo demo_no_eps H1 H2 H3).
Defined.

Lemma remove_epsilon_rules_dead_head_witness :
  dict_ok (CFG.P dead_head) /\ In (CFG.S dead_head) (keys (CFG.P dead_head)) /\
  remove_epsilon_rules dead_head = Ok dead_head /\
  dict_get (CFG.P dead_head) "D" = Some [].
Proof.
  assert (H1 : dict_ok (CFG.P dead_head))
    by (apply distinctb_NoDup; vm_compute; reflexivity).
  assert (H2 : In (CFG.S dead_head) (keys (CFG.P dead_head))) by (simpl; auto).
  assert (H3 : remove_epsilon_rules dead_head = Ok dead_head) by (vm_compute; reflexivity).
  assert (H4 : dict_get (CFG.P dead_head) "D" = Some []) by reflexivity.
  split; [exact H1|]. split; [exact H2|]. split; [exact H3|].
  exact (@remove_epsilon_rules_dead_head insertion_order dead_head dead_head "D"
           H1 H2 H3 H4).
Defined.

Lemma eliminate_left_recursion_direct_witness :
  primes_fresh direct /\
  eliminate_left_recursion direct = Ok direct_result /\
  In "A" (elements (CFG.N direct)) /\
  produces (CFG.P direct_result) "A" ["b"; "A'"] /\
  begins_with "A" ["b"; "A'"] = false.
Proof.
  assert (H1 : primes_fresh direct) by (apply primes_freshb_sound; vm_compute; reflexivity).
  assert (H2 : eliminate_left_recursion direct = Ok direct_result)
    by (vm_compute; reflexivity).
  assert (H3 : In "A" (elements (CFG.N direct))) by (simpl; auto).
  assert (H4 : produces (CFG.P direct_result) "A" ["b"; "A'"]).
  { exists [["b"; "A'"]]. split; now left. }
  split; [exact H1|]. split; [exact H2|]. split; [exact H3|]. split; [exact H4|].
  exact (@eliminate_left_recursion_direct direct direct_result "A" ["b"; "A'"]
           H1 H2 H3 H4).
Defined.

Lemma eliminate_left_recursion_list_result_witness :
  CFG.N leading_terminals = PyList ["A"; "B"] /\
  eliminate_left_recursion leading_terminals = Ok leading_terminals /\
  CFG.N leading_terminals = PyList ["A"; "B"] /\
  (forall x, In x (keys (CFG.P leading_terminals)) <-> In x ["A"; "B"]) /\
  (forall A b, produces (CFG.P leading_terminals) A b -> begins_with A b = false).
Proof.
  assert (H1 : CFG.N leading_terminals = PyList ["A"; "B"]) by reflexivity.
  assert (H2 : eliminate_left_recursion leading_terminals = Ok leading_terminals)
    by (vm_compute; reflexivity).
  split; [exact H1|]. split; [exact H2|].
  exact (@eliminate_left_recursion_list_result leading_terminals leading_terminals
           ["A"; "B"] H1 H2).
Defined.

Lemma pipeline_returns_witness :
  well_formed demo /\ CFG.N demo = PySet ["E"; "T"; "F"] /\
  exists cfg1 cfg2,
    remove_epsilon_rules demo = Ok cfg1 /\
    eliminate_left_recursion cfg1 = Ok cfg2 /\
    CFG.Sigma cfg2 = CFG.Sigma demo /\ CFG.S cfg2 = CFG.S demo.
Proof.
  assert (H1 : well_formed demo) by (apply well_formedb_sound; vm_compute; reflexivity).
  assert (H2 : CFG.N demo = PySet ["E"; "T"; "F"]) by reflexivity.
  split; [exact H1|]. split; [exact H2|].
  exact (@pipeline_returns insertion_order demo ["E"; "T"; "F"] H1 H2).
Defined.

(** ** More on the bodies of the results *)

Section RemoveEpsilonDistinct.
Context {order : SetOrder}.

(** X17. In the grammar returned by [remove_epsilon_rules] no head has the
    same body twice, whatever repetitions the input had. *)
Theorem remove_epsilon_rules_distinct_bodies (cfg cfg' : CFG.t)
    (A : symbol) (bs : list body) :
  dict_ok (CFG.P cfg) -> In (CFG.S cfg) (keys (CFG.P cfg)) ->
  remove_epsilon_rules cfg = Ok cfg' ->
  dict_get (CFG.P cfg') A = Some bs -> NoDup bs.
Proof.
  intros Hok Hstart Hre Hg.
  destruct (remove_epsilon_rules_spec cfg Hok Hstart) as [P' [Heq [_ [_ [_ [_ Hnd]]]]]].
  rewrite Heq in Hre. inversion Hre; subst cfg'. now apply (Hnd A).
Qed.
End RemoveEpsilonDistinct.

Lemma remove_epsilon_rules_distinct_bodies_witness :
  dict_ok (CFG.P demo) /\ In (CFG.S demo) (keys (CFG.P demo)) /\
  remove_epsilon_rules demo = Ok demo_no_eps /\
  dict_get (CFG.P demo_no_eps) "F" = Some [["("; "E"; ")"]; ["("; ")"]; ["id"]] /\
  NoDup [["("; "E"; ")"]; ["("; ")"]; ["id"]].
Proof.
  assert (H1 : dict_ok (CFG.P demo)) by (apply distinctb_NoDup; vm_compute; reflexivity).
  assert (H2 : In (CFG.S demo) (keys (CFG.P demo))) by (simpl; auto).
  assert (H3 : remove_epsilon_rules demo = Ok demo_no_eps) by (vm_compute; reflexivity).
  assert (H4 : dict_get (CFG.P demo_no_eps) "F"
               = Some [["("; "E"; ")"]; ["("; ")"]; ["id"]]) by reflexivity.
  split; [exact H1|]. split; [exact H2|]. split; [exact H3|]. split; [exact H4|].
  exact (@remove_epsilon_rules_distinct_bodies insertion_order demo demo_no_eps "F" _
           H1 H2 H3 H4).
Defined.

Lemma dead_step (cfg : CFG.t) (i : nat) (A : symbol)
    (st st' : dict (list body) * collection) :
  let ord := fromkeys (elements (CFG.N cfg)) in
  primes_fresh cfg ->
  nth_error ord i = Some A ->
  dead_inv cfg i st -> process (CFG.P cfg) ord i A st = Ok st' ->
  dead_inv cfg (S i) st'.
Proof.
  intros ord Hfresh Hn Hinv Hp.
  destruct st as [np nn]. destruct st' as [np' nn'].
  unfold dead_inv in *. fold ord in Hinv |- *. cbn [fst snd] in *.
  assert (Hnd : NoDup ord) by apply fromkeys_NoDup.
  assert (HA : In A (elements (CFG.N cfg))).
  { apply fromkeys_In. eapply nth_error_In; eassumption. }
  pose proof Hp as Hp0.
  apply process_Ok in Hp. destruct Hp as [rules [current [Hget [Hsubst Hbranch]]]].
  intros k Ak Hk Hnk Hdead.
  assert (HAk : In Ak (elements (CFG.N cfg))).
  { apply fromkeys_In. eapply nth_error_In; eassumption. }
  destruct (Nat.eq_dec k i) as [->|Hne].
  - assert (Ak = A) by congruence. subst Ak.
    rewrite Hdead in Hget. inversion Hget; subst rules.
    assert (Hcur : current = []).
    { clear -Hsubst. revert Hsubst. generalize (firstn i ord).
      intros l. induction l as [|B l IH]; simpl; intros H; [now inversion H|].
      now apply IH. }
    subst current. simpl in Hbranch.
    destruct Hbranch as [[Halpha _] | [_ [_ ->]]]; [congruence|].
    apply dict_get_set_same.
  - assert (HAkA : Ak <> A).
    { intros ->. apply Hne.
      apply (proj1 (NoDup_nth_error ord) Hnd);
        [apply nth_error_Some; congruence | congruence]. }
    assert (Hold : dict_get np Ak = Some []) by (apply (Hinv k Ak); [lia | auto | auto]).
    destruct Hbranch as [[_ [_ ->]] | [_ [_ ->]]].
    + rewrite dict_get_set_other
        by (intros Heq; apply (Hfresh A HA); now rewrite Heq).
      rewrite dict_get_set_other by congruence. exact Hold.
    + rewrite dict_get_set_other by congruence. exact Hold.
Qed.

(** X18. A nonterminal without any body keeps none, when no nonterminal is
    the primed name of another. *)
Theorem eliminate_left_recursion_dead_head (cfg cfg' : CFG.t) (A : symbol) :
  primes_fresh cfg ->
  eliminate_left_recursion cfg = Ok cfg' ->
  In A (elements (CFG.N cfg)) -> dict_get (CFG.P cfg) A = Some [] ->
  dict_get (CFG.P cfg') A = Some [].
Proof.
  intros Hfresh H HA Hdead.
  apply eliminate_left_recursion_invariant with (Inv := dead_inv cfg) in H.
  - apply fromkeys_In in HA. apply In_nth_error in HA. destruct HA as [k Hk].
    apply (H k A); [apply nth_error_Some; congruence | assumption | assumption].
  - intros k B Hk. lia.
  - intros i B st st' Hn _. now apply dead_step.
Qed.

Lemma eliminate_left_recursion_dead_head_witness :
  primes_fresh dead_recursive /\
  eliminate_left_recursion dead_recursive = Ok dead_recursive_result /\
  In "D" (elements (CFG.N dead_recursive)) /\
  dict_get (CFG.P dead_recursive) "D" = Some [] /\
  dict_get (CFG.P dead_recursive_result) "D" = Some [].
Proof.
  assert (H1 : primes_fresh dead_recursive)
    by (apply primes_freshb_sound; vm_compute; reflexivity).
  assert (H2 : eliminate_left_recursion dead_recursive = Ok dead_recursive_result)
    by (vm_compute; reflexivity).
  assert (H3 : In "D" (elements (CFG.N dead_recursive))) by (simpl; auto).
  assert (H4 : dict_get (CFG.P dead_recursive) "D" = Some []) by reflexivity.
  split; [exact H1|]. split; [exact H2|]. split; [exact H3|]. split; [exact H4|].
  exact (@eliminate_left_recursion_dead_head dead_recursive dead_recursive_result "D"
           H1 H2 H3 H4).
Defined.

Lemma separated_step (cfg : CFG.t) (i : nat) (A : symbol)
    (st st' : dict (list body) * collection) :
  let ord := fromkeys (elements (CFG.N cfg)) in
  primes_fresh cfg ->
  nth_error ord i = Some A -> firstn (S i) ord = firstn i ord ++ [A] ->
  separated_inv cfg i st -> process (CFG.P cfg) ord i A st = Ok st' ->
  separated_inv cfg (S i) st'.
Proof.
  intros ord Hfresh Hn Hf [Hsh Hinv] Hp.
  split; [eapply shape_step; eassumption|]. fold ord.
  destruct st as [np nn]. destruct st' as [np' nn']. cbn [fst snd] in *.
  destruct Hsh as [_ [_ [Hkeys' _]]]. fold ord in Hkeys'.
  assert (Hnd : NoDup ord) by apply fromkeys_NoDup.
  assert (HA : In A (elements (CFG.N cfg))).
  { apply fromkeys_In. eapply nth_error_In; eassumption. }
  assert (Hnot : forall X, In X ord -> ~ In (prime X) ord).
  { intros X HX HpX. apply (Hfresh X); now apply (proj1 (fromkeys_In _ _)). }
  assert (HAord : In A ord) by (eapply nth_error_In; eassumption).
  assert (HAnew : ~ In A (firstn i ord)).
  { intros Hin. apply In_nth_error in Hin. destruct Hin as [m Hm].
    assert (Hmi : m < i).
    { assert (Hl : m < length (firstn i ord)) by (apply nth_error_Some; congruence).
      pose proof (firstn_le_length i ord). lia. }
    rewrite nth_error_firstn in Hm.
    destruct (m <? i)%nat eqn:Hlt; [|discriminate].
    assert (m = i); [|lia].
    apply (proj1 (NoDup_nth_error ord) Hnd);
      [apply nth_error_Some; congruence | congruence]. }
  apply process_Ok in Hp. destruct Hp as [rules [current [_ [_ Hbranch]]]].
  intros k Ak bs Hk Hnk Hkey Hg.
  assert (HAk : In Ak ord) by (eapply nth_error_In; eassumption).
  destruct (Nat.eq_dec k i) as [->|Hne].
  - assert (Ak = A) by congruence. subst Ak.
    destruct Hbranch as [[_ [_ ->]] | [_ [_ ->]]].
    + rewrite dict_get_set_other in Hg by apply prime_neq.
      rewrite dict_get_set_same in Hg. inversion Hg; subst bs.
      apply Forall_forall. intros b Hb. apply in_map_iff in Hb.
      destruct Hb as [b0 [<- _]]. now exists b0.
    + exfalso. apply keys_dict_set in Hkey.
      destruct Hkey as [Hkey|Hkey]; [now apply prime_neq in Hkey|].
      destruct (Hkeys' _ Hkey) as [Hin|[B [HB [Heq _]]]].
      * now apply (Hnot A HAord).
      * apply prime_inj in Heq. subst B. contradiction.
  - assert (HAkA : Ak <> A).
    { intros ->. apply Hne.
      apply (proj1 (NoDup_nth_error ord) Hnd);
        [apply nth_error_Some; congruence | congruence]. }
    assert (Hkey0 : In (prime Ak) (keys np)).
    { destruct Hbranch as [[_ [_ ->]] | [_ [_ ->]]].
      - apply keys_dict_set in Hkey. destruct Hkey as [Hkey|Hkey].
        + apply prime_inj in Hkey. contradiction.
        + apply keys_dict_set in Hkey. destruct Hkey as [Hkey|Hkey]; [|assumption].
          exfalso. apply (Hnot Ak HAk). now rewrite Hkey.
      - apply keys_dict_set in Hkey. destruct Hkey as [Hkey|Hkey]; [|assumption].
        exfalso. apply (Hnot Ak HAk). now rewrite Hkey. }
    apply (Hinv k Ak bs); [lia | assumption | assumption |].
    destruct Hbranch as [[_ [_ ->]] | [_ [_ ->]]].
    + rewrite dict_get_set_other in Hg
        by (intros Heq; apply (Hnot A HAord); now rewrite Heq).
      rewrite dict_get_set_other in Hg by congruence. exact Hg.
    + rewrite dict_get_set_other in Hg by congruence. exact Hg.
Qed.

(** X19. When no nonterminal is the primed name of another: if the primed
    name [A'] of an input nonterminal [A] is a head of the result, every body
    of [A] in the result ends with [A']. *)
Theorem eliminate_left_recursion_separated_bodies (cfg cfg' : CFG.t)
    (A : symbol) (b : body) :
  primes_fresh cfg ->
  eliminate_left_recursion cfg = Ok cfg' ->
  In A (elements (CFG.N cfg)) -> In (prime A) (keys (CFG.P cfg')) ->
  produces (CFG.P cfg') A b ->
  exists c, b = c ++ [prime A].
Proof.
  intros Hfresh H HA Hkey Hp.
  apply eliminate_left_recursion_invariant with (Inv := separated_inv cfg) in H.
  - destruct H as [Hsh Hinv]. cbn [fst snd] in *.
    apply fromkeys_In in HA. apply In_nth_error in HA. destruct HA as [k Hk].
    apply produces_dict_get in Hp; [|apply Hsh]. destruct Hp as [bs [Hg Hb]].
    assert (Hlt : k < length (fromkeys (elements (CFG.N cfg))))
      by (apply nth_error_Some; congruence).
    pose proof (Hinv k A bs Hlt Hk Hkey Hg) as HF.
    rewrite Forall_forall in HF. now apply HF.
  - split; [apply shape_initial|]. intros k B bs Hk. lia.
  - intros i B st st'. now apply separated_step.
Qed.

Lemma eliminate_left_recursion_separated_bodies_witness :
  primes_fresh direct /\
  eliminate_left_recursion direct = Ok direct_result /\
  In "A" (elements (CFG.N direct)) /\
  In (prime "A") (keys (CFG.P direct_result)) /\
  produces (CFG.P direct_result) "A" ["b"; "A'"] /\
  exists c, ["b"; "A'"] = c ++ [prime "A"].
Proof.
  assert (H1 : primes_fresh direct) by (apply primes_freshb_sound; vm_compute; reflexivity).
  assert (H2 : eliminate_left_recursion direct = Ok direct_result)
    by (vm_compute; reflexivity).
  assert (H3 : In "A" (elements (CFG.N direct))) by (simpl; auto).
  assert (H4 : In (prime "A") (keys (CFG.P direct_result))) by (simpl; auto).
  assert (H5 : produces (CFG.P direct_result) "A" ["b"; "A'"]).
  { exists [["b"; "A'"]]. split; now left. }
  split; [exact H1|]. split; [exact H2|]. split; [exact H3|]. split; [exact H4|].
  split; [exact H5|].
  exact (@eliminate_left_recursion_separated_bodies direct direct_result "A" ["b"; "A'"]
           H1 H2 H3 H4 H5).
Defined.

(** X20.  For an ε-free grammar in which no primed name of a nonterminal is
    in use, and whatever its unit productions are, no nonterminal of the
    input has, in a grammar returned by [eliminate_left_recursion], a body
    that begins with itself, at once or after rewriting leading nonterminals
    by their bodies. *)
Theorem input_nonterminals_not_left_recursive (cfg cfg' : CFG.t) (A : symbol) :
  eps_free cfg -> primes_unused cfg ->
  eliminate_left_recursion cfg = Ok cfg' ->
  In A (elements (CFG.N cfg)) ->
  ~ left_recursive (CFG.P cfg') A.
Proof.
  intros Hfree Hunused Helr HA [b [w [Hprod [Hsteps Hbegin]]]].
  apply fromkeys_In in HA. apply In_nth_error in HA. destruct HA as [k Hk].
  destruct (eliminate_left_recursion_leads Hfree Hunused Helr) as [_ Hlead].
  pose proof (Hlead k A b Hk Hprod) as Hb.
  pose proof (lead_steps_outside k Hfree Hunused Helr Hsteps Hb) as Hw.
  apply begins_with_cons in Hbegin. rewrite Hbegin in Hw.
  destruct Hw as [_ Hw]. apply Hw.
  apply nth_error_firstn_In with (m := k); [assumption | lia].
Qed.

Lemma input_nonterminals_not_left_recursive_witness :
  eps_free direct /\ primes_unused direct /\
  eliminate_left_recursion direct = Ok direct_result /\
  In "A" (elements (CFG.N direct)) /\
  ~ left_recursive (CFG.P direct_result) "A".
Proof.
  assert (H1 : eps_free direct) by (apply eps_freeb_sound; vm_compute; reflexivity).
  assert (H2 : primes_unused direct)
    by (apply primes_unusedb_sound; vm_compute; reflexivity).
  assert (H3 : eliminate_left_recursion direct = Ok direct_result)
    by (vm_compute; reflexivity).
  assert (H4 : In "A" (elements (CFG.N direct))) by (simpl; auto).
  split; [exact H1|]. split; [exact H2|]. split; [exact H3|]. split; [exact H4|].
  exact (@input_nonterminals_not_left_recursive direct direct_result "A" H1 H2 H3 H4).
Defined.
